(** * UnrealScript language service: symbol graph, indexing and reference index

    A shallow embedding of the symbol model ([UCStructSymbol],
    [UCStateSymbol], [UCObjectTypeSymbol], [UCQualifiedTypeSymbol]), of the
    document ([UCDocument]: structural builder, invalidation, analysis), of
    the statements ([UCBlock], [UCSwitchStatement]) and of the handlers of
    the server that prepare a rename and a completion, with the properties
    of the specification proved or refuted against them, and further
    properties that the code has.

    The symbol graph is cyclic and mutable ([outer], [super], [next],
    [children] are object references), so symbols live in a store that is
    addressed by handles and every method takes and returns that store. *)

From stdpp Require Import gmap strings list.

(** ** Names, ranges and identifiers *)

(** An interned name: two names are the same object exactly when their
    normalised text is equal, so a name is modelled by that text. *)
Definition Name := string.

Record Position := { line : Z; character : Z }.

Record Range := { range_start : Position; range_end : Position }.

(** A reference to a [Range] object.  [DEFAULT_RANGE] is the one shared
    object that intrinsic symbols are created with; every range built from
    parser tokens is an object of its own. *)
Inductive RangeRef :=
  | DEFAULT_RANGE
  | TokenRange (r : Range).

(** [a === b] against the shared default object. *)
Definition is_DEFAULT_RANGE (r : RangeRef) : bool :=
  match r with DEFAULT_RANGE => true | TokenRange _ => false end.

Record Identifier := { name : Name; range : RangeRef }.

(** ** Symbol classes *)

Inductive SymbolClass :=
  | UCPackage
  | UCClassSymbol
  | UCScriptStructSymbol
  | UCStateSymbol
  | UCEnumSymbol
  | UCEnumMemberSymbol
  | UCMethodSymbol
  | UCParamSymbol
  | UCLocalSymbol
  | UCPropertySymbol
  | UCConstSymbol
  | UCDefaultPropertiesBlock
  | UCReplicationBlock
  | UCObjectSymbol
  | UCSymbolReference
  | UCTypeSymbol.

Global Instance SymbolClass_eq_dec : EqDecision SymbolClass.
Proof. solve_decision. Defined.

(** [symbol instanceof UCStructSymbol] *)
Definition isStructSymbol (c : SymbolClass) : bool :=
  match c with
  | UCClassSymbol | UCScriptStructSymbol | UCStateSymbol | UCEnumSymbol
  | UCMethodSymbol | UCDefaultPropertiesBlock | UCReplicationBlock
  | UCObjectSymbol => true
  | _ => false
  end.

(** [symbol instanceof UCFieldSymbol]: the struct symbols and every symbol
    the builder passes to [addSymbol (symbol: UCFieldSymbol)]. *)
Definition isFieldSymbol (c : SymbolClass) : bool :=
  match c with
  | UCEnumMemberSymbol | UCParamSymbol | UCLocalSymbol | UCPropertySymbol
  | UCConstSymbol => true
  | _ => isStructSymbol c
  end.

(** ** The expected kind of a type reference ([UCTypeKind]) *)

Module UCTypeKind.

Inductive t :=
  | Float | Int | Byte | String | Name | Bool | Array | Delegate
  | Object | Package | Class | Interface | Enum | State | Struct
  | Property | Function | Type_ | None_ | Error.

Global Instance eq_dec : EqDecision t.
Proof. solve_decision. Defined.

End UCTypeKind.

(** ** Handles and the symbol store *)

Abbreviation handle := positive.

(** A type reference ([UCObjectTypeSymbol]): its identifier, the kind its
    declaration context expects, the symbol it resolved to and the inner
    type of a parametrised type. *)
#[warnings="-register-all"]
Inductive UCObjectTypeSymbol :=
  ObjectType (type_id : Identifier)
             (validTypeKind : option UCTypeKind.t)
             (reference : option handle)
             (baseType : option UCObjectTypeSymbol).

Definition type_id (t : UCObjectTypeSymbol) : Identifier :=
  let 'ObjectType i _ _ _ := t in i.
Definition validTypeKind (t : UCObjectTypeSymbol) : option UCTypeKind.t :=
  let 'ObjectType _ k _ _ := t in k.
Definition reference (t : UCObjectTypeSymbol) : option handle :=
  let 'ObjectType _ _ r _ := t in r.
Definition baseType (t : UCObjectTypeSymbol) : option UCObjectTypeSymbol :=
  let 'ObjectType _ _ _ b := t in b.

(** A reference by name that is resolved during indexing (an object of
    class [UCSymbolReference]), as in the [ignoreRefs] of a state. *)
Record UCSymbolRef := {
  ref_id : Identifier;
  ref_reference : option handle
}.

(** One record for all symbol objects: the fields of [UCSymbol] and
    [UCFieldSymbol] ([id], [outer], [next], [containingStruct]), of
    [UCStructSymbol] ([extendsType], [super], [children]), of
    [UCStateSymbol] ([overriddenState], [ignoreRefs]) and of
    [UCEnumMemberSymbol] ([value]).  [typeFlags] is what the symbol's
    [getTypeFlags ()] returns. *)
Record UCSymbol := {
  class : SymbolClass;
  id : Identifier;
  typeFlags : Z;
  outer : option handle;
  next : option handle;
  containingStruct : option handle;
  extendsType : option UCObjectTypeSymbol;
  super : option handle;
  children : option handle;
  overriddenState : option handle;
  ignoreRefs : option (list UCSymbolRef);
  value : option Z
}.

Definition set_outer (v : option handle) (s : UCSymbol) : UCSymbol :=
  {| class := class s; id := id s; typeFlags := typeFlags s; outer := v;
     next := next s; containingStruct := containingStruct s; extendsType :=
     extendsType s; super := super s; children := children s; overriddenState
     := overriddenState s; ignoreRefs := ignoreRefs s; value := value s |}.

Definition set_next (v : option handle) (s : UCSymbol) : UCSymbol :=
  {| class := class s; id := id s; typeFlags := typeFlags s; outer := outer
     s; next := v; containingStruct := containingStruct s; extendsType :=
     extendsType s; super := super s; children := children s; overriddenState
     := overriddenState s; ignoreRefs := ignoreRefs s; value := value s |}.

Definition set_containingStruct (v : option handle) (s : UCSymbol) : UCSymbol :=
  {| class := class s; id := id s; typeFlags := typeFlags s; outer := outer
     s; next := next s; containingStruct := v; extendsType := extendsType s;
     super := super s; children := children s; overriddenState :=
     overriddenState s; ignoreRefs := ignoreRefs s; value := value s |}.

Definition set_extendsType (v : option UCObjectTypeSymbol) (s : UCSymbol) : UCSymbol :=
  {| class := class s; id := id s; typeFlags := typeFlags s; outer := outer
     s; next := next s; containingStruct := containingStruct s; extendsType :=
     v; super := super s; children := children s; overriddenState :=
     overriddenState s; ignoreRefs := ignoreRefs s; value := value s |}.

Definition set_super (v : option handle) (s : UCSymbol) : UCSymbol :=
  {| class := class s; id := id s; typeFlags := typeFlags s; outer := outer
     s; next := next s; containingStruct := containingStruct s; extendsType :=
     extendsType s; super := v; children := children s; overriddenState :=
     overriddenState s; ignoreRefs := ignoreRefs s; value := value s |}.

Definition set_children (v : option handle) (s : UCSymbol) : UCSymbol :=
  {| class := class s; id := id s; typeFlags := typeFlags s; outer := outer
     s; next := next s; containingStruct := containingStruct s; extendsType :=
     extendsType s; super := super s; children := v; overriddenState :=
     overriddenState s; ignoreRefs := ignoreRefs s; value := value s |}.

Definition set_overriddenState (v : option handle) (s : UCSymbol) : UCSymbol :=
  {| class := class s; id := id s; typeFlags := typeFlags s; outer := outer
     s; next := next s; containingStruct := containingStruct s; extendsType :=
     extendsType s; super := super s; children := children s; overriddenState
     := v; ignoreRefs := ignoreRefs s; value := value s |}.

Definition set_ignoreRefs (v : option (list UCSymbolRef)) (s : UCSymbol) : UCSymbol :=
  {| class := class s; id := id s; typeFlags := typeFlags s; outer := outer
     s; next := next s; containingStruct := containingStruct s; extendsType :=
     extendsType s; super := super s; children := children s; overriddenState
     := overriddenState s; ignoreRefs := v; value := value s |}.

Definition set_value (v : option Z) (s : UCSymbol) : UCSymbol :=
  {| class := class s; id := id s; typeFlags := typeFlags s; outer := outer
     s; next := next s; containingStruct := containingStruct s; extendsType :=
     extendsType s; super := super s; children := children s; overriddenState
     := overriddenState s; ignoreRefs := ignoreRefs s; value := v |}.

(** [new C (name, range)]: a symbol object with no links yet. *)
Definition UCSymbol_new (c : SymbolClass) (i : Identifier) (flags : Z) : UCSymbol :=
  {| class := c; id := i; typeFlags := flags; outer := None; next := None;
     containingStruct := None; extendsType := None; super := None;
     children := None; overriddenState := None; ignoreRefs := None;
     value := None |}.

(** The store of symbol objects. *)
Abbreviation store := (gmap positive UCSymbol).

(** Reading a field of the object behind a handle. *)
Definition field {A} (f : UCSymbol → option A) (σ : store) (h : handle) : option A :=
  σ !! h ≫= f.

(** Assigning to a field of the object behind a handle. *)
Definition assign (f : UCSymbol → UCSymbol) (h : handle) (σ : store) : store :=
  alter f h σ.

(** A call either returns, throws (a [TypeError] on an [undefined]
    receiver) or, in this model, exhausts the bound on the number of [next]
    and [super] links it may follow: those links can be cyclic, and the
    source then does not return. *)
Inductive outcome (A : Type) :=
  | Done (a : A)
  | Throw
  | OutOfFuel.
Arguments Done {A} a.
Arguments Throw {A}.
Arguments OutOfFuel {A}.

Definition outcome_bind {A B} (m : outcome A) (k : A → outcome B) : outcome B :=
  match m with
  | Done a => k a
  | Throw => Throw
  | OutOfFuel => OutOfFuel
  end.

Notation "'let?' x := m 'in' k" := (outcome_bind m (fun x => k))
  (at level 10, x name, m at level 100, k at level 200).

(** ** [UCStructSymbol]: the children chain *)

(** [addSymbol]: four assignments, in the order of the source. *)
Definition addSymbol (this symbol : handle) (σ : store) : store :=
  let σ := assign (set_outer (Some this)) symbol σ in
  let σ := assign (set_next (field children σ this)) symbol σ in
  let σ := assign (set_containingStruct (Some this)) symbol σ in
  assign (set_children (Some symbol)) this σ.

(** The loop of [removeSymbol]: unlink [symbol] behind the first child
    whose [next] it is. *)
Fixpoint removeSymbol_loop (fuel : nat) (symbol : handle) (child : option handle)
    (σ : store) : outcome store :=
  match child with
  | None => Done σ
  | Some c =>
    match fuel with
    | O => OutOfFuel
    | S fuel' =>
      match σ !! c with
      | None => Throw
      | Some s =>
        if decide (next s = Some symbol)
        then Done (assign (set_next (field next σ symbol)) c σ)
        else removeSymbol_loop fuel' symbol (next s) σ
      end
    end
  end.

Definition removeSymbol (fuel : nat) (this symbol : handle) (σ : store) : outcome store :=
  if decide (field children σ this = Some symbol) then
    let σ := assign (set_children (field next σ symbol)) this σ in
    Done (assign (set_next None) symbol σ)
  else removeSymbol_loop fuel symbol (field children σ this) σ.

(** The loop of [childrenCount]. *)
Fixpoint childrenCount_loop (fuel : nat) (σ : store) (child : option handle) (l : Z)
    : outcome Z :=
  match child with
  | None => Done l
  | Some c =>
    match fuel with
    | O => OutOfFuel
    | S fuel' =>
      match σ !! c with
      | None => Throw
      | Some s => childrenCount_loop fuel' σ (next s) (l + 1)%Z
      end
    end
  end.

Definition childrenCount (fuel : nat) (σ : store) (this : handle) : outcome Z :=
  childrenCount_loop fuel σ (field children σ this) 0%Z.

(** The bits of a number that [&] works on: its operands are taken modulo
    [2^32]. *)
Definition int32_bits (x : Z) : Z := x mod 2 ^ 32.

(** Does a child pass the [kind] filter of [getSymbol]?  The source skips
    it when [kind !== undefined && (child.getTypeFlags () & kind) === 0]. *)
Definition kind_accepts (kind : option Z) (s : UCSymbol) : bool :=
  match kind with
  | None => true
  | Some k =>
    negb (bool_decide (Z.land (int32_bits (typeFlags s)) (int32_bits k) = 0%Z))
  end.

(** The loop of [getSymbol]: the first child of the chain with the name
    [i] that passes the filter. *)
Fixpoint getSymbol_loop (fuel : nat) (σ : store) (child : option handle)
    (i : Name) (kind : option Z) : outcome (option handle) :=
  match child with
  | None => Done None
  | Some c =>
    match fuel with
    | O => OutOfFuel
    | S fuel' =>
      match σ !! c with
      | None => Throw
      | Some s =>
        if bool_decide (name (id s) = i) && kind_accepts kind s
        then Done (Some c)
        else getSymbol_loop fuel' σ (next s) i kind
      end
    end
  end.

Definition getSymbol (fuel : nat) (σ : store) (this : handle)
    (i : Name) (kind : option Z) : outcome (option handle) :=
  match σ !! this with
  | None => Throw
  | Some s => getSymbol_loop fuel σ (children s) i kind
  end.

(** [findSuperSymbol], with its override in [UCStateSymbol]: the call is
    dispatched on the class of the receiver.  [UCStructSymbol] looks in its
    own children and then in its [super]; a state that finds nothing that
    way asks its [outer]. *)
Fixpoint findSuperSymbol (fuel : nat) (σ : store) (this : handle)
    (i : Name) (kind : option Z) : outcome (option handle) :=
  match fuel with
  | O => OutOfFuel
  | S fuel' =>
    match σ !! this with
    | None => Throw
    | Some s =>
      let UCStructSymbol_findSuperSymbol :=
        let? own := getSymbol fuel' σ this i kind in
        match own with
        | Some c => Done (Some c)
        | None =>
          match super s with
          | None => Done None
          | Some sup => findSuperSymbol fuel' σ sup i kind
          end
        end in
      if decide (class s = UCStateSymbol) then
        let? symbol := UCStructSymbol_findSuperSymbol in
        match symbol with
        | Some c => Done (Some c)
        | None =>
          match outer s with
          | None => Throw
          | Some o => findSuperSymbol fuel' σ o i kind
          end
        end
      else UCStructSymbol_findSuperSymbol
    end
  end.

(** [findSuperStruct]: the first struct above [context] in the [super]
    chain that has the name [i]. *)
Fixpoint findSuperStruct_loop (fuel : nat) (σ : store) (other : option handle)
    (i : Name) : outcome (option handle) :=
  match other with
  | None => Done None
  | Some o =>
    match fuel with
    | O => OutOfFuel
    | S fuel' =>
      match σ !! o with
      | None => Throw
      | Some s =>
        if bool_decide (name (id s) = i) then Done (Some o)
        else findSuperStruct_loop fuel' σ (super s) i
      end
    end
  end.

Definition findSuperStruct (fuel : nat) (σ : store) (context : handle) (i : Name)
    : outcome (option handle) :=
  findSuperStruct_loop fuel σ (field super σ context) i.

(** The children chain of a struct as the list of handles that the loops
    above visit: it starts at [children], follows [next] and ends at
    [undefined]. *)
Inductive chain (σ : store) : option handle → list handle → Prop :=
  | chain_nil : chain σ None []
  | chain_cons c l :
      is_Some (σ !! c) → chain σ (field next σ c) l → chain σ (Some c) (c :: l).

(** The first symbol of a list with the name [i] that passes the filter. *)
Fixpoint first_named (σ : store) (l : list handle) (i : Name) (kind : option Z)
    : option handle :=
  match l with
  | [] => None
  | c :: l' =>
    match σ !! c with
    | Some s =>
      if bool_decide (name (id s) = i) && kind_accepts kind s then Some c
      else first_named σ l' i kind
    | None => first_named σ l' i kind
    end
  end.

(** [declare]ing the symbols [xs] into [this] one after the other. *)
Definition addSymbols (this : handle) (xs : list handle) (σ : store) : store :=
  foldl (fun σ x => addSymbol this x σ) σ xs.

(** ** The reference index and the document *)

Record Location := { loc_uri : string; loc_range : RangeRef }.

(** A reference record [{ location, symbol, context }].  Records are kept
    in [Set]s, which compare them as objects: a record is addressed by a
    handle of its own, and the sets hold the handles. *)
Record ISymbolReference := {
  location : Location;
  ref_symbol : option Identifier;
  ref_context : option handle
}.

(** The diagnostic nodes of a document: what the parser and the analyzer
    push onto [document.nodes]. *)
Inductive IDiagnosticNode :=
  | SyntaxErrorNode (r : RangeRef) (msg : string)
  | UnrecognizedTypeNode (t : UCObjectTypeSymbol)
  | SemanticErrorNode (t : UCObjectTypeSymbol) (msg : string).

(** [UCDocument]: [context] is the scope stack of the structural builder
    (its last element is the top), [indexReferencesMade] the map from the
    key of a target to the records this document filed under it. *)
Record UCDocument := {
  uri : string;
  filePath : string;
  classPackage : handle;
  nodes : list IDiagnosticNode;
  document_class : option handle;
  indexReferencesMade : gmap string (gset positive);
  context : option (list handle)
}.

Definition set_nodes (v : list IDiagnosticNode) (d : UCDocument) : UCDocument :=
  {| uri := uri d; filePath := filePath d; classPackage := classPackage d;
     nodes := v; document_class := document_class d;
     indexReferencesMade := indexReferencesMade d; context := context d |}.

Definition set_document_class (v : option handle) (d : UCDocument) : UCDocument :=
  {| uri := uri d; filePath := filePath d; classPackage := classPackage d;
     nodes := nodes d; document_class := v;
     indexReferencesMade := indexReferencesMade d; context := context d |}.

Definition set_indexReferencesMade (v : gmap string (gset positive))
    (d : UCDocument) : UCDocument :=
  {| uri := uri d; filePath := filePath d; classPackage := classPackage d;
     nodes := nodes d; document_class := document_class d;
     indexReferencesMade := v; context := context d |}.

Definition set_context (v : option (list handle)) (d : UCDocument) : UCDocument :=
  {| uri := uri d; filePath := filePath d; classPackage := classPackage d;
     nodes := nodes d; document_class := document_class d;
     indexReferencesMade := indexReferencesMade d; context := v |}.

(** A lookup made by the resolution of a type reference: which table or
    which context was searched, and for what. *)
Inductive Lookup :=
  | InPackagesTable (i : Name) (deepSearch : bool)
  | InSymbolsTable (i : Name) (deepSearch : bool)
  | InContext (context : handle) (i : Name).

(** The state the methods work on: the symbol objects, the reference
    record objects, the global maps [IndexedReferences] and
    [EnumMemberMap], the document at hand, and the lookups made so far (in
    the order they were made). *)
Record State := {
  symbols : store;
  referenceObjects : gmap positive ISymbolReference;
  IndexedReferences : gmap string (gset positive);
  EnumMemberMap : gmap string positive;
  document : UCDocument;
  lookups : list Lookup
}.

Definition set_symbols (v : store) (st : State) : State :=
  {| symbols := v; referenceObjects := referenceObjects st;
     IndexedReferences := IndexedReferences st;
     EnumMemberMap := EnumMemberMap st; document := document st;
     lookups := lookups st |}.

Definition set_referenceObjects (v : gmap positive ISymbolReference)
    (st : State) : State :=
  {| symbols := symbols st; referenceObjects := v;
     IndexedReferences := IndexedReferences st;
     EnumMemberMap := EnumMemberMap st; document := document st;
     lookups := lookups st |}.

Definition set_IndexedReferences (v : gmap string (gset positive))
    (st : State) : State :=
  {| symbols := symbols st; referenceObjects := referenceObjects st;
     IndexedReferences := v;
     EnumMemberMap := EnumMemberMap st; document := document st;
     lookups := lookups st |}.

Definition set_EnumMemberMap (v : gmap string positive) (st : State) : State :=
  {| symbols := symbols st; referenceObjects := referenceObjects st;
     IndexedReferences := IndexedReferences st;
     EnumMemberMap := v; document := document st;
     lookups := lookups st |}.

Definition set_document (v : UCDocument) (st : State) : State :=
  {| symbols := symbols st; referenceObjects := referenceObjects st;
     IndexedReferences := IndexedReferences st;
     EnumMemberMap := EnumMemberMap st; document := v;
     lookups := lookups st |}.

Definition set_lookups (v : list Lookup) (st : State) : State :=
  {| symbols := symbols st; referenceObjects := referenceObjects st;
     IndexedReferences := IndexedReferences st;
     EnumMemberMap := EnumMemberMap st; document := document st;
     lookups := v |}.

(** [getIndexedReferences]: the set filed under a key, or a new empty set. *)
Definition getIndexedReferences (qualifiedId : string)
    (index : gmap string (gset positive)) : gset positive :=
  default ∅ (index !! qualifiedId).

Definition addIndexedReference (qualifiedId : string) (ref : positive)
    (index : gmap string (gset positive)) : gmap string (gset positive) :=
  let indexedRefs := getIndexedReferences qualifiedId index in
  <[qualifiedId := indexedRefs ∪ {[ref]}]> index.

(** [unsetIndexedReferences]: delete the given records from the set filed
    under the key, and the entry with it once the set is empty. *)
Definition unsetIndexedReferences (qualifiedId : string) (refs : gset positive)
    (index : gmap string (gset positive)) : gmap string (gset positive) :=
  match index !! qualifiedId with
  | None => index
  | Some indexedRefs =>
    let indexedRefs := indexedRefs ∖ refs in
    if decide (size indexedRefs = 0%nat) then delete qualifiedId index
    else <[qualifiedId := indexedRefs]> index
  end.

(** [UCDocument.invalidate]: drop the class and the diagnostic nodes,
    retract every entry of [indexReferencesMade] from the global index
    (the entries have distinct keys, so the order of the iteration does not
    show), and clear the map. *)
Definition UCDocument_invalidate (st : State) : State :=
  let doc := set_document_class None (document st) in
  let doc := set_nodes [] doc in
  let index :=
    map_fold unsetIndexedReferences (IndexedReferences st)
             (indexReferencesMade doc) in
  let doc := set_indexReferencesMade ∅ doc in
  set_document doc (set_IndexedReferences index st).

(** The entry of the key [k] once the records [made] are retracted from
    [index]: untouched when [made] has no entry for [k], else the set
    without the retracted records, and no entry at all when nothing is
    left. *)
Definition retracted (index made : gmap string (gset positive)) (k : string)
    : option (gset positive) :=
  match made !! k, index !! k with
  | Some refs, Some indexedRefs =>
    if decide (size (indexedRefs ∖ refs) = 0%nat) then None
    else Some (indexedRefs ∖ refs)
  | _, entry => entry
  end.

(** The records a document made are filed in the global index under the
    key the document recorded them under, and under no other. *)
Definition filed_under_own_key (st : State) : Prop :=
  ∀ k k' r,
    r ∈ getIndexedReferences k (indexReferencesMade (document st)) →
    r ∈ getIndexedReferences k' (IndexedReferences st) →
    k' = k.

(** Every record in the index or in the document's map is an allocated
    record object, and the records of the document are filed under their
    own key: the state that [indexReference] and [invalidate] keep. *)
Definition index_consistent (st : State) : Prop :=
  (∀ k r, r ∈ getIndexedReferences k (IndexedReferences st) →
          r ∈ dom (referenceObjects st))
  ∧ (∀ k r, r ∈ getIndexedReferences k (indexReferencesMade (document st)) →
            r ∈ dom (referenceObjects st))
  ∧ filed_under_own_key st.

(** ** Methods with effects *)

(** A method runs on a state; when it throws, what it did to the state
    before stays done. *)
Definition Method (S A : Type) : Type := S → outcome A * S.

Definition ret {S A} (a : A) : Method S A := fun st => (Done a, st).

Definition throw {S A} : Method S A := fun st => (Throw, st).

Definition bind {S A B} (m : Method S A) (k : A → Method S B) : Method S B :=
  fun st =>
    match m st with
    | (Done a, st') => k a st'
    | (Throw, st') => (Throw, st')
    | (OutOfFuel, st') => (OutOfFuel, st')
    end.

Notation "'let!' x := m 'in' k" := (bind m (fun x => k))
  (at level 10, x name, m at level 100, k at level 200).
Notation "'run!' m 'in' k" := (bind m (fun _ => k))
  (at level 10, m at level 100, k at level 200).

(** The methods of the symbols and of the document run on [State]. *)
Abbreviation M := (Method State).

(** [try { m } catch (err) { console.error (...) }] *)
Definition try_catch (m : M unit) : M unit :=
  fun st =>
    match m st with
    | (Throw, st') => (Done tt, st')
    | r => r
    end.

Definition lift {A} (f : State → outcome A) : M A := fun st => (f st, st).

Definition modify (f : State → State) : M unit := fun st => (Done tt, f st).

(** Reading a field of a symbol object; a [TypeError] without the object. *)
Definition read {A} (f : UCSymbol → A) (h : handle) : M A :=
  lift (fun st => match symbols st !! h with Some s => Done (f s) | None => Throw end).

Definition write (f : UCSymbol → UCSymbol) (h : handle) : M unit :=
  modify (fun st => set_symbols (assign f h (symbols st)) st).

Definition log (q : Lookup) : M unit :=
  modify (fun st => set_lookups (lookups st ++ [q]) st).

(** [new C (...)]: a symbol object nothing refers to yet. *)
Definition new (s : UCSymbol) : M handle :=
  fun st =>
    let h := fresh (dom (symbols st)) in
    (Done h, set_symbols (<[h := s]> (symbols st)) st).

(** [symbol instanceof UCSymbol]: packages are [ISymbol]s only. *)
Definition isUCSymbol (c : SymbolClass) : bool :=
  match c with UCPackage => false | _ => true end.

Definition diverge {A} : M A := fun st => (OutOfFuel, st).

(** ** Indexing: the resolution of references *)

Section Indexing.

(** What the methods below call and the sources at hand do not define:
    the key a symbol is filed under in the reference index, the lookups of
    the two global tables, [isType ()] of a field symbol, and the [index]
    method that [UCStructSymbol] inherits from [UCFieldSymbol] (which also
    indexes the symbols that are not structs). *)
Variable getHash : store → handle → string.
Variable PackagesTable_findSymbol : Name → bool → option handle.
Variable SymbolsTable_findSymbol : Name → bool → option handle.
Variable isType : UCSymbol → bool.
Variable UCFieldSymbol_index : handle → handle → M unit.

(** Modelled from the spec: [UCDocument.indexReference], which the type
    references and the states call and which is not among the sources.  "A
    resolved reference registers itself both under the target's hash in the
    global Reference Index and under the owning document's references made
    set": the record is a new object, filed under the key of the target in
    [indexReferencesMade] and, by [addIndexedReference], in the global
    index. *)
Definition UCDocument_indexReference (symbol : handle) (ref : ISymbolReference)
    : M unit :=
  modify (fun st =>
    let key := getHash (symbols st) symbol in
    let r := fresh (dom (referenceObjects st)) in
    let made := indexReferencesMade (document st) in
    let refs := default ∅ (made !! key) ∪ {[r]} in
    set_document (set_indexReferencesMade (<[key := refs]> made) (document st))
      (set_IndexedReferences (addIndexedReference key r (IndexedReferences st))
         (set_referenceObjects (<[r := ref]> (referenceObjects st)) st))).

(** [UCObjectTypeSymbol.setReference (symbol, document, context, noIndex,
    range = this.id.range)]; the result is the type reference with its
    [reference] assigned. *)
Definition UCObjectTypeSymbol_setReference (this : UCObjectTypeSymbol)
    (symbol : handle) (context : option handle) (noIndex : bool)
    (range_arg : option RangeRef) : M UCObjectTypeSymbol :=
  let 'ObjectType i k _ b := this in
  let this := ObjectType i k (Some symbol) b in
  if noIndex then ret this
  else
    let! c := lift (fun st => Done (class <$> symbols st !! symbol)) in
    if from_option isUCSymbol false c then
      let! doc := lift (fun st => Done (document st)) in
      let ref :=
        {| location := {| loc_uri := filePath doc;
                          loc_range := default (range i) range_arg |};
           ref_symbol := Some i;
           ref_context := context |} in
      run! UCDocument_indexReference symbol ref in
      ret this
    else ret this.

(** The [switch (this.validTypeKind)] of [UCObjectTypeSymbol.index]: where
    the symbol is looked for. *)
Definition UCObjectTypeSymbol_lookup (fuel : nat) (kind : option UCTypeKind.t)
    (i : Name) (context : handle) : M (option handle) :=
  let in_context :=
    run! log (InContext context i) in
    lift (fun st => findSuperSymbol fuel (symbols st) context i None) in
  match kind with
  | Some UCTypeKind.Package =>
    run! log (InPackagesTable i false) in
    ret (PackagesTable_findSymbol i false)
  | Some UCTypeKind.Class | Some UCTypeKind.Interface =>
    run! log (InSymbolsTable i true) in
    ret (SymbolsTable_findSymbol i true)
  | Some UCTypeKind.Enum | Some UCTypeKind.Struct | Some UCTypeKind.State =>
    in_context
  | _ =>
    run! log (InSymbolsTable i true) in
    match SymbolsTable_findSymbol i true with
    | Some symbol => ret (Some symbol)
    | None => in_context
    end
  end.

(** [symbol instanceof UCFieldSymbol && symbol.isType ()] *)
Definition usable_as_type (σ : store) (symbol : handle) : bool :=
  match σ !! symbol with
  | Some s => isFieldSymbol (class s) && isType s
  | None => false
  end.

(** [UCObjectTypeSymbol.index (document, context)]; the result is the type
    reference after the call. *)
Fixpoint UCObjectTypeSymbol_index (fuel : nat) (this : UCObjectTypeSymbol)
    (context : option handle) : M UCObjectTypeSymbol :=
  let 'ObjectType i k r b := this in
  match r, context with
  | Some _, _ | None, None => ret this
  | None, Some ctx =>
    let! symbol := UCObjectTypeSymbol_lookup fuel k (name i) ctx in
    let! symbol :=
      if decide (k = Some UCTypeKind.Type_) then
        lift (fun st =>
          Done (match symbol with
                | Some sy => if usable_as_type (symbols st) sy then Some sy else None
                | None => None
                end))
      else ret symbol in
    let! this :=
      match symbol with
      | Some sy => UCObjectTypeSymbol_setReference this sy None false None
      | None => ret this
      end in
    match b with
    | Some base =>
      let! base := UCObjectTypeSymbol_index fuel base context in
      ret (ObjectType i k (reference this) (Some base))
    | None => ret this
    end
  end.

(** Modelled from the spec: [setReference] of a [UCSymbolReference], whose
    class is not among the sources; like a type reference, "a resolved
    reference registers itself" with the document. *)
Definition UCSymbolReference_setReference (this : UCSymbolRef) (symbol : handle)
    : M UCSymbolRef :=
  let this := {| ref_id := ref_id this; ref_reference := Some symbol |} in
  let! doc := lift (fun st => Done (document st)) in
  let ref :=
    {| location := {| loc_uri := filePath doc; loc_range := range (ref_id this) |};
       ref_symbol := Some (ref_id this);
       ref_context := None |} in
  run! UCDocument_indexReference symbol ref in
  ret this.

(** The loop over the children of [UCStructSymbol.index]: an error of one
    child is caught and does not stop the loop. *)
Fixpoint index_children (fuel : nat) (index : handle → handle → M unit)
    (this : handle) (child : option handle) : M unit :=
  match child with
  | None => ret tt
  | Some c =>
    match fuel with
    | O => diverge
    | S fuel' =>
      run! try_catch (index c this) in
      let! n := read next c in
      index_children fuel' index this n
    end
  end.

(** The loop over [ignoreRefs] of [UCStateSymbol.index]; [k] is the position
    of the first of the references [refs] still to do. *)
Fixpoint index_ignoreRefs (fuel : nat) (this : handle) (k : nat)
    (refs : list UCSymbolRef) : M unit :=
  match refs with
  | [] => ret tt
  | ref :: refs' =>
    let! symbol :=
      lift (fun st => findSuperSymbol fuel (symbols st) this (name (ref_id ref)) None) in
    run! match symbol with
         | Some sy =>
           let! ref := UCSymbolReference_setReference ref sy in
           write (fun s => set_ignoreRefs (list_insert k ref <$> ignoreRefs s) s) this
         | None => ret tt
         end in
    index_ignoreRefs fuel this (S k) refs'
  end.

(** The [if (this.extendsType)] of [UCStructSymbol.index]: the extends
    type is indexed and its referent becomes [super], unless there is a
    [super] already. *)
Definition UCStructSymbol_index_extends (fuel : nat) (this context : handle)
    : M unit :=
  let! extends := read extendsType this in
  match extends with
  | Some type =>
    let! type := UCObjectTypeSymbol_index fuel type (Some context) in
    run! write (set_extendsType (Some type)) this in
    let! sup := read super this in
    match sup with
    | None => write (set_super (reference type)) this
    | Some _ => ret tt
    end
  | None => ret tt
  end.

(** The first statement of [UCStateSymbol.index]: a state without [super]
    in a context with a [super] looks its own name up there, and what it
    finds, if that is a state, becomes its [overriddenState] and its
    [super], with a reference record at the state's identifier. *)
Definition UCStateSymbol_index_override (fuel : nat) (this context : handle)
    : M unit :=
  let! sup := read super this in
  match sup with
  | Some _ => ret tt
  | None =>
    let! context_super := read super context in
    match context_super with
    | None => ret tt
    | Some cs =>
      let! i := read id this in
      let! overriddenState :=
        lift (fun st => findSuperSymbol fuel (symbols st) cs (name i) None) in
      match overriddenState with
      | Some o =>
        let! c := lift (fun st => Done (class <$> symbols st !! o)) in
        if decide (c = Some UCStateSymbol) then
          let! doc := lift (fun st => Done (document st)) in
          let ref :=
            {| location := {| loc_uri := uri doc; loc_range := range i |};
               ref_symbol := None; ref_context := None |} in
          run! UCDocument_indexReference o ref in
          run! write (set_overriddenState (Some o)) this in
          write (set_super (Some o)) this
        else ret tt
      | None => ret tt
      end
    end
  end.

(** [symbol.index (document, context)], dispatched on the class of the
    symbol: [UCStateSymbol.index], [UCStructSymbol.index] for the other
    structs (what their classes add to it is not among the sources), and
    the inherited [UCFieldSymbol.index] for the rest. *)
Fixpoint UCSymbol_index (fuel : nat) (this context : handle) : M unit :=
  match fuel with
  | O => diverge
  | S fuel' =>
    let UCStructSymbol_index : M unit :=
      run! UCFieldSymbol_index this context in
      run! UCStructSymbol_index_extends fuel' this context in
      let! first := read children this in
      index_children fuel' (UCSymbol_index fuel') this first in
    let UCStateSymbol_index : M unit :=
      run! UCStateSymbol_index_override fuel' this context in
      run! UCStructSymbol_index in
      let! refs := read ignoreRefs this in
      match refs with
      | Some refs => index_ignoreRefs fuel' this 0 refs
      | None => ret tt
      end in
    let! c := read class this in
    if decide (c = UCStateSymbol) then UCStateSymbol_index
    else if isStructSymbol c then UCStructSymbol_index
    else UCFieldSymbol_index this context
  end.

End Indexing.

Definition outcome_map {A B} (f : A → B) (m : outcome A) : outcome B :=
  match m with
  | Done a => Done (f a)
  | Throw => Throw
  | OutOfFuel => OutOfFuel
  end.

(** The hints for which [UCObjectTypeSymbol.index] has a [case] of its own. *)
Definition has_own_case (kind : option UCTypeKind.t) : bool :=
  match kind with
  | Some UCTypeKind.Package | Some UCTypeKind.Class | Some UCTypeKind.Interface
  | Some UCTypeKind.Enum | Some UCTypeKind.Struct | Some UCTypeKind.State => true
  | _ => false
  end.

(** ** What indexing does to the state *)

(** [grows st st']: from [st] to [st'] no symbol with a [super] link had
    the link or its [overriddenState] changed, and no reference record was
    taken out of the global index, out of the document's map or out of the
    record objects. *)
Definition grows (st st' : State) : Prop :=
  (∀ h s, field super (symbols st) h = Some s →
          field super (symbols st') h = Some s
          ∧ field overriddenState (symbols st') h
            = field overriddenState (symbols st) h)
  ∧ (∀ k, getIndexedReferences k (IndexedReferences st)
          ⊆ getIndexedReferences k (IndexedReferences st'))
  ∧ (∀ k, getIndexedReferences k (indexReferencesMade (document st))
          ⊆ getIndexedReferences k (indexReferencesMade (document st')))
  ∧ referenceObjects st ⊆ referenceObjects st'.

(** A method all of whose runs are related by [R]. *)
Definition preserves {A} (R : State → State → Prop) (m : M A) : Prop :=
  ∀ st, R st (m st).2.

(** The symbol objects are the same. *)
Definition same_symbols (st st' : State) : Prop := symbols st' = symbols st.

(** A method that leaves the children chains as they are: every symbol
    object is still there, with the [next] it had. *)
Definition keeps_links (st st' : State) : Prop :=
  ∀ h, (is_Some (symbols st !! h) → is_Some (symbols st' !! h))
       ∧ field next (symbols st') h = field next (symbols st) h.

(** [d] is [c] or above [c] in the [super] chain. *)
Inductive in_hierarchy (σ : store) : handle → handle → Prop :=
  | in_hierarchy_here c : in_hierarchy σ c c
  | in_hierarchy_super c sup d :
      field super σ c = Some sup → in_hierarchy σ sup d → in_hierarchy σ c d.

(** The struct [c] or one above it has a child [o] that is a state with
    the name [n]. *)
Definition hierarchy_has_state (σ : store) (c : handle) (n : Name) (o : handle)
    : Prop :=
  ∃ d l s,
    in_hierarchy σ c d ∧ chain σ (field children σ d) l ∧ o ∈ l
    ∧ σ !! o = Some s ∧ class s = UCStateSymbol ∧ name (id s) = n.

(** ** The structural builder: enum declarations *)

(** What the builder reads of the parse tree of an enum declaration: the
    identifier node (absent in a malformed declaration), the range of the
    declaration, and for every member its first token and its identifier
    node. *)
Record EnumMemberContext := {
  member_start : Range;
  member_identifier : option string
}.

Record EnumDeclContext := {
  decl_identifier : option (string * Range);
  decl_range : Range;
  enumMember : list EnumMemberContext
}.

Section Builder.

(** [getTypeFlags ()] of a new symbol, by class (the enumeration
    [UCTypeFlags] is not among the sources), and [addSymbol] of the
    document's package, for a declaration outside every struct. *)
Variable getTypeFlags : SymbolClass → Z.
Variable UCPackage_addSymbol : handle → handle → store → store.

(** [UCDocument.push] *)
Definition UCDocument_push (newContext : handle) : M unit :=
  fun st =>
    match context (document st) with
    | None => (Throw, st)
    | Some stack =>
      (Done tt, set_document (set_context (Some (stack ++ [newContext])) (document st)) st)
    end.

(** [UCDocument.pop] *)
Definition UCDocument_pop : M unit :=
  fun st =>
    match context (document st) with
    | None => (Throw, st)
    | Some stack =>
      (Done tt, set_document (set_context (Some (removelast stack)) (document st)) st)
    end.

(** [UCDocument.declare]: [addSymbol] of the top of the scope stack, or
    of the package when the stack is empty. *)
Definition UCDocument_declare (symbol : handle) : M unit :=
  fun st =>
    match context (document st) with
    | None => (Throw, st)
    | Some stack =>
      match last stack with
      | Some top => (Done tt, set_symbols (addSymbol top symbol (symbols st)) st)
      | None =>
        (Done tt,
         set_symbols
           (UCPackage_addSymbol (classPackage (document st)) symbol (symbols st)) st)
      end
    end.

(** [setEnumMember] *)
Definition setEnumMember (enumMember : handle) : M unit :=
  let! i := read id enumMember in
  modify (fun st => set_EnumMemberMap (<[name i := enumMember]> (EnumMemberMap st)) st).

(** The symbol objects after one turn of the loop over the members. *)
Definition member_declared (e : handle) (start : Range) (text : string) (count : Z)
    (σ : store) : store :=
  let h := fresh (dom σ) in
  let member :=
    UCSymbol_new UCEnumMemberSymbol {| name := text; range := TokenRange start |}
      (getTypeFlags UCEnumMemberSymbol) in
  assign (set_value (Some count)) h
    (assign (set_outer (Some e)) h (addSymbol e h (<[h := member]> σ))).

(** The loop over the member nodes of [enterEnumDecl]; [count] is the
    value of the next member. *)
Fixpoint enterEnumDecl_members (enumSymbol : handle)
    (memberNodes : list EnumMemberContext) (count : Z) : M unit :=
  match memberNodes with
  | [] => ret tt
  | memberNode :: memberNodes =>
    let range := TokenRange (member_start memberNode) in
    match member_identifier memberNode with
    | None => throw
    | Some text =>
      let! memberSymbol :=
        new (UCSymbol_new UCEnumMemberSymbol {| name := text; range := range |}
               (getTypeFlags UCEnumMemberSymbol)) in
      run! UCDocument_declare memberSymbol in
      run! write (set_outer (Some enumSymbol)) memberSymbol in
      run! write (set_value (Some count)) memberSymbol in
      run! setEnumMember memberSymbol in
      enterEnumDecl_members enumSymbol memberNodes (count + 1)
    end
  end.

(** [UCDocument.enterEnumDecl]; the result is the enum symbol, if one was
    declared. *)
Definition enterEnumDecl (ctx : EnumDeclContext) : M (option handle) :=
  match decl_identifier ctx with
  | None => ret None
  | Some (text, idRange) =>
    let! enumSymbol :=
      new (UCSymbol_new UCEnumSymbol {| name := text; range := TokenRange idRange |}
             (getTypeFlags UCEnumSymbol)) in
    run! UCDocument_declare enumSymbol in
    run! UCDocument_push enumSymbol in
    run! enterEnumDecl_members enumSymbol (enumMember ctx) 0 in
    ret (Some enumSymbol)
  end.

(** [UCDocument.exitEnumDecl] *)
Definition exitEnumDecl : M unit := UCDocument_pop.

End Builder.

(** The name the test suite looks the implicit count member up by. *)
Definition NAME_ENUMCOUNT : Name := "EnumCount".

(** ** The analyzer *)

Record Diagnostic := {
  diagnostic_range : RangeRef;
  message : string;
  source : string
}.

Section Analyzer.

(** What the diagnostic nodes answer to [getRange ()] and [toString ()]
    (their classes are not among the sources), and the type references
    that [analyze] of a class reaches in the symbol tree, each with the
    context it is analyzed in. *)
Variable node_getRange : IDiagnosticNode → RangeRef.
Variable node_toString : IDiagnosticNode → string.
Variable typesReached : store → handle → list (UCObjectTypeSymbol * option handle).

(** [document.nodes.push (node)] *)
Definition push_node (node : IDiagnosticNode) : M unit :=
  modify (fun st =>
    set_document (set_nodes (nodes (document st) ++ [node]) (document st)) st).

(** [symbol instanceof C], for a class [C] without subclasses here. *)
Definition instance_of (c : SymbolClass) (symbol : handle) (st : State) : bool :=
  bool_decide (class <$> symbols st !! symbol = Some c).

(** [UCObjectTypeSymbol.analyze (document, context)] *)
Fixpoint UCObjectTypeSymbol_analyze (this : UCObjectTypeSymbol)
    (context : option handle) : M unit :=
  let 'ObjectType i k r b := this in
  run! match b with
       | Some base => UCObjectTypeSymbol_analyze base context
       | None => ret tt
       end in
  match r with
  | None => push_node (UnrecognizedTypeNode this)
  | Some symbol =>
    let expect (c : SymbolClass) (msg : string) : M unit :=
      let! ok := lift (fun st => Done (instance_of c symbol st)) in
      if ok then ret tt else push_node (SemanticErrorNode this msg) in
    match k with
    | Some UCTypeKind.Class => expect UCClassSymbol "Expected a class!"
    | Some UCTypeKind.State => expect UCStateSymbol "Expected a state!"
    | Some UCTypeKind.Enum => expect UCEnumSymbol "Expected an enum!"
    | Some UCTypeKind.Struct => expect UCScriptStructSymbol "Expected a struct!"
    | _ => ret tt
    end
  end.

(** Modelled from the spec: [analyze] of the class symbol, which
    [UCDocument.analyze] calls and which is not among the sources.  The
    analyzer is a "pure post-pass visitor over a resolved symbol tree
    producing diagnostics: unresolved type reference ..., type-kind mismatch
    ...": it calls [analyze] of the type references it reaches,
    [typesReached], one after the other. *)
Fixpoint analyze_types (types : list (UCObjectTypeSymbol * option handle)) : M unit :=
  match types with
  | [] => ret tt
  | (type, context) :: types =>
    run! UCObjectTypeSymbol_analyze type context in
    analyze_types types
  end.

Definition UCClassSymbol_analyze (this context : handle) : M unit :=
  let! σ := lift (fun st => Done (symbols st)) in
  analyze_types (typesReached σ this).

(** [UCDocument.getNodes] *)
Definition UCDocument_getNodes (doc : UCDocument) : list Diagnostic :=
  (fun node =>
     {| diagnostic_range := node_getRange node;
        message := node_toString node;
        source := "unrealscript" |}) <$> nodes doc.

(** [UCDocument.analyze]; [None] is [undefined]. *)
Definition UCDocument_analyze : M (option (list Diagnostic)) :=
  let! doc := lift (fun st => Done (document st)) in
  match document_class doc with
  | None => ret None
  | Some c =>
    run! UCClassSymbol_analyze c c in
    let! doc := lift (fun st => Done (document st)) in
    ret (Some (UCDocument_getNodes doc))
  end.

End Analyzer.

(** What [UCObjectTypeSymbol.analyze] reports for a type reference, as a
    function of the symbol objects: the reports for the inner type, then
    its own. *)
Fixpoint type_reports (σ : store) (this : UCObjectTypeSymbol) : list IDiagnosticNode :=
  let 'ObjectType i k r b := this in
  match b with
  | Some base => type_reports σ base
  | None => []
  end ++
  match r with
  | None => [UnrecognizedTypeNode this]
  | Some symbol =>
    let expect (c : SymbolClass) (msg : string) :=
      if bool_decide (class <$> σ !! symbol = Some c) then []
      else [SemanticErrorNode this msg] in
    match k with
    | Some UCTypeKind.Class => expect UCClassSymbol "Expected a class!"
    | Some UCTypeKind.State => expect UCStateSymbol "Expected a state!"
    | Some UCTypeKind.Enum => expect UCEnumSymbol "Expected an enum!"
    | Some UCTypeKind.Struct => expect UCScriptStructSymbol "Expected a struct!"
    | _ => []
    end
  end.

(** What one run of the analyzer reports for a class. *)
Definition class_reports
    (typesReached : store → handle → list (UCObjectTypeSymbol * option handle))
    (σ : store) (c : handle) : list IDiagnosticNode :=
  concat ((fun tc => type_reports σ tc.1) <$> typesReached σ c).

(** The state with more diagnostic nodes in its document. *)
Definition with_reports (found : list IDiagnosticNode) (st : State) : State :=
  set_document (set_nodes (nodes (document st) ++ found) (document st)) st.

(** ** The server: preparing a rename *)

Inductive ErrorCodes := InvalidRequest | InvalidParams.

(** What the handler answers: the range of the identifier to rename, or a
    [ResponseError] with a code and a message. *)
Inductive PrepareRenameResult :=
  | RenameRange (r : RangeRef)
  | ResponseError (code : ErrorCodes) (msg : string).

Definition is_letter (c : Ascii.ascii) : bool :=
  let n := Ascii.nat_of_ascii c in
  ((97 <=? n) && (n <=? 122) || (65 <=? n) && (n <=? 90))%nat.

Definition is_digit (c : Ascii.ascii) : bool :=
  let n := Ascii.nat_of_ascii c in ((48 <=? n) && (n <=? 57))%nat.

Definition is_underscore (c : Ascii.ascii) : bool := (Ascii.nat_of_ascii c =? 95)%nat.

(** [VALID_ID_REGEXP.test (s)]: the whole of [s] is a letter or an
    underscore followed by any number of letters, underscores and digits. *)
Definition VALID_ID_REGEXP_test (s : string) : bool :=
  match s with
  | EmptyString => false
  | String c rest =>
    (is_letter c || is_underscore c)
    && forallb (fun c => is_letter c || is_underscore c || is_digit c)
               (String.list_ascii_of_string rest)
  end.

(** The handler of [connection.onPrepareRename], after
    [getSymbolDefinition] has answered with [symbol]; [UCTypeFlags_Error]
    is the constant [UCTypeFlags.Error]. *)
Definition onPrepareRename (UCTypeFlags_Error : Z) (symbol : option UCSymbol)
    : PrepareRenameResult :=
  match symbol with
  | None => ResponseError InvalidRequest "You cannot rename this element!"
  | Some symbol =>
    if decide (typeFlags symbol = UCTypeFlags_Error) then
      ResponseError InvalidRequest "You cannot rename this element!"
    else if negb (isFieldSymbol (class symbol)) then
      ResponseError InvalidRequest "You cannot rename this element!"
    else if decide (class symbol = UCClassSymbol) then
      ResponseError InvalidRequest "You cannot rename a class!"
    else if is_DEFAULT_RANGE (range (id symbol)) then
      ResponseError InvalidRequest "You cannot rename this element!"
    else if negb (VALID_ID_REGEXP_test (name (id symbol))) then
      ResponseError InvalidParams "You cannot rename this element!"
    else RenameRange (range (id symbol))
  end.

(** ** Statements and blocks *)

Section Statements.

(** The fields of [IContextInfo] besides [typeFlags] (the interface is not
    among the sources), and their value in the object [{}]. *)
Variable OtherFields : Type.
Variable no_fields : OtherFields.

Record IContextInfo := {
  info_typeFlags : option Z;
  otherFields : OtherFields
}.

Definition set_info_typeFlags (v : option Z) (info : IContextInfo) : IContextInfo :=
  {| info_typeFlags := v; otherFields := otherFields info |}.

(** [IStatement.index (document, context, info?)].  The [info] object is
    shared with the caller: a statement that is given one runs on the state
    and on that object, and a statement that is given none runs on the
    state. *)
Record IStatement := {
  index_with : handle → Method (State * IContextInfo) unit;
  index_without : handle → Method State unit
}.

(** [info.typeFlags = typeFlags] *)
Definition reset_typeFlags (typeFlags : option Z) : Method (State * IContextInfo) unit :=
  fun '(st, info) => (Done tt, (st, set_info_typeFlags typeFlags info)).

(** A call that does not see the [info] object. *)
Definition without_info (m : Method State unit) : Method (State * IContextInfo) unit :=
  fun '(st, info) => let '(r, st') := m st in (r, (st', info)).

(** The loop of [UCBlock.index]; [pass] says whether [arguments] holds an
    [info] object, which [statement.index.apply (statement, arguments)]
    then hands on. *)
Fixpoint UCBlock_index_loop (pass : bool) (typeFlags : option Z)
    (statements : list (option IStatement)) (context : handle)
    : Method (State * IContextInfo) unit :=
  match statements with
  | [] => ret tt
  | None :: statements => UCBlock_index_loop pass typeFlags statements context
  | Some statement :: statements =>
    run! (if pass then index_with statement context
          else without_info (index_without statement context)) in
    run! reset_typeFlags typeFlags in
    UCBlock_index_loop pass typeFlags statements context
  end.

(** [UCBlock.index (document, context, info)] with an [info] object. *)
Definition UCBlock_index_with (statements : list (option IStatement))
    (context : handle) : Method (State * IContextInfo) unit :=
  fun '(st, info) =>
    UCBlock_index_loop true (info_typeFlags info) statements context (st, info).

(** [UCBlock.index (document, context)]: [info] defaults to a new object
    [{}], which the statements are not given. *)
Definition UCBlock_index_without (statements : list (option IStatement))
    (context : handle) : Method State unit :=
  fun st =>
    let info := {| info_typeFlags := None; otherFields := no_fields |} in
    let '(r, (st', _)) :=
      UCBlock_index_loop false (info_typeFlags info) statements context (st, info) in
    (r, st').

(** A block is a statement. *)
Definition UCBlock (statements : list (option IStatement)) : IStatement :=
  {| index_with := UCBlock_index_with statements;
     index_without := UCBlock_index_without statements |}.

(** [UCExpressionStatement.index]: the call is handed on to the
    expression, if there is one; an expression is indexed like a
    statement. *)
Definition UCExpressionStatement (expression : option IStatement) : IStatement :=
  {| index_with := fun context =>
       match expression with
       | Some e => index_with e context
       | None => ret tt
       end;
     index_without := fun context =>
       match expression with
       | Some e => index_without e context
       | None => ret tt
       end |}.

(** [UCThenStatement.index]: the expression, then the [then] statement. *)
Definition UCThenStatement (expression then_ : option IStatement) : IStatement :=
  {| index_with := fun context =>
       run! index_with (UCExpressionStatement expression) context in
       match then_ with
       | Some s => index_with s context
       | None => ret tt
       end;
     index_without := fun context =>
       run! index_without (UCExpressionStatement expression) context in
       match then_ with
       | Some s => index_without s context
       | None => ret tt
       end |}.

(** [UCIfStatement.index]: as [UCThenStatement], then the [else]
    statement. *)
Definition UCIfStatement (expression then_ else_ : option IStatement) : IStatement :=
  {| index_with := fun context =>
       run! index_with (UCThenStatement expression then_) context in
       match else_ with
       | Some s => index_with s context
       | None => ret tt
       end;
     index_without := fun context =>
       run! index_without (UCThenStatement expression then_) context in
       match else_ with
       | Some s => index_without s context
       | None => ret tt
       end |}.

End Statements.

Arguments info_typeFlags {OtherFields} _.
Arguments otherFields {OtherFields} _.
Arguments index_with {OtherFields} _ _ _.
Arguments index_without {OtherFields} _ _ _.
Arguments reset_typeFlags {OtherFields} _ _.
Arguments UCBlock_index_loop {OtherFields} _ _ _ _ _.
Arguments UCBlock_index_with {OtherFields} _ _ _.
Arguments UCBlock_index_without {OtherFields} _ _ _ _.
Arguments set_info_typeFlags {OtherFields} _ _.

(** ** [UCStructSymbol]: lookups by predicate, in scopes, for completion *)

(** [findSymbolPredicate]: the first child the predicate accepts.  The
    symbol objects do not change during the loop, so a predicate (that
    returns) is a function of the handle of the child. *)
Fixpoint findSymbolPredicate_loop (fuel : nat) (σ : store) (child : option handle)
    (predicate : handle → bool) : outcome (option handle) :=
  match child with
  | None => Done None
  | Some c =>
    match fuel with
    | O => OutOfFuel
    | S fuel' =>
      match σ !! c with
      | None => Throw
      | Some s =>
        if predicate c then Done (Some c)
        else findSymbolPredicate_loop fuel' σ (next s) predicate
      end
    end
  end.

Definition findSymbolPredicate (fuel : nat) (σ : store) (this : handle)
    (predicate : handle → bool) : outcome (option handle) :=
  match σ !! this with
  | None => Throw
  | Some s => findSymbolPredicate_loop fuel σ (children s) predicate
  end.

(** The test that [getSymbol (id, kind)] makes on a child, as a
    predicate. *)
Definition named (σ : store) (i : Name) (kind : option Z) (c : handle) : bool :=
  match σ !! c with
  | Some s => bool_decide (name (id s) = i) && kind_accepts kind s
  | None => false
  end.

(** A list of objects linked by a field [link], as the loops of the
    source walk it: from a first object to [undefined].  With [next] it is
    a children chain, with [super] the structs above a struct. *)
Inductive linked (link : UCSymbol → option handle) (σ : store)
    : option handle → list handle → Prop :=
  | linked_nil : linked link σ None []
  | linked_cons c s l :
      σ !! c = Some s → linked link σ (link s) l → linked link σ (Some c) (c :: l).

(** The scopes that a loop over [link] visits from [scope] on, each with
    its children chain. *)
Inductive scopes (link : UCSymbol → option handle) (σ : store)
    : option handle → list (handle * list handle) → Prop :=
  | scopes_nil : scopes link σ None []
  | scopes_cons c s l ls :
      σ !! c = Some s → chain σ (children s) l → scopes link σ (link s) ls →
      scopes link σ (Some c) ((c, l) :: ls).

Section FindSymbol.

(** [isMethodSymbol] and [isStateSymbol], which the sources at hand do not
    define. *)
Variable isMethodSymbol : UCSymbol → bool.
Variable isStateSymbol : UCSymbol → bool.

(** Where [findSymbol] starts: at the [outer] of a method, and at the
    [outer] of that when it is a state. *)
Definition findSymbol_scope (σ : store) (context : handle) : outcome (option handle) :=
  match σ !! context with
  | None => Throw
  | Some s =>
    let scope := if isMethodSymbol s then outer s else Some context in
    match scope with
    | None => Done None
    | Some sc =>
      match σ !! sc with
      | None => Throw
      | Some s' => if isStateSymbol s' then Done (outer s') else Done (Some sc)
      end
    end
  end.

(** The inner loop of [findSymbol] over the children of one scope: [inl]
    is the child that the function returns, [inr] the [bestChild] the loop
    ends with. *)
Fixpoint findSymbol_children (fuel : nat) (σ : store) (i : Name)
    (predicate : handle → bool) (child bestChild : option handle)
    : outcome (handle + option handle) :=
  match child with
  | None => Done (inr bestChild)
  | Some c =>
    match fuel with
    | O => OutOfFuel
    | S fuel' =>
      match σ !! c with
      | None => Throw
      | Some s =>
        if bool_decide (name (id s) = i) then
          if predicate c then Done (inl c)
          else findSymbol_children fuel' σ i predicate (next s) (Some c)
        else findSymbol_children fuel' σ i predicate (next s) bestChild
      end
    end
  end.

(** The outer loop, over [scope] and its [super]s. *)
Fixpoint findSymbol_scopes (fuel : nat) (σ : store) (i : Name)
    (predicate : handle → bool) (scope bestChild : option handle)
    : outcome (option handle) :=
  match scope with
  | None => Done bestChild
  | Some sc =>
    match fuel with
    | O => OutOfFuel
    | S fuel' =>
      match σ !! sc with
      | None => Throw
      | Some s =>
        let? found := findSymbol_children fuel' σ i predicate (children s) bestChild in
        match found with
        | inl c => Done (Some c)
        | inr bestChild => findSymbol_scopes fuel' σ i predicate (super s) bestChild
        end
      end
    end
  end.

(** [findSymbol (context, id, predicate)] *)
Definition findSymbol (fuel : nat) (σ : store) (context : handle) (i : Name)
    (predicate : handle → bool) : outcome (option handle) :=
  let? scope := findSymbol_scope σ context in
  findSymbol_scopes fuel σ i predicate scope None.

End FindSymbol.

(** What [findSymbol] answers for the children [all] of the scopes, in the
    order the loops visit them: the first with the name that the predicate
    accepts, and without one the last with the name. *)
Definition findSymbol_answer (σ : store) (i : Name) (predicate : handle → bool)
    (all : list handle) : option handle :=
  match List.find (fun c => named σ i None c && predicate c) all with
  | Some c => Some c
  | None => last (List.filter (named σ i None) all)
  end.

Section Completion.

(** [child.acceptCompletion (document, this)], which the sources at hand
    do not define; the symbol objects do not change during the loops. *)
Variable acceptCompletion : handle → UCDocument → handle → bool.

(** Does the child pass the filter on the type flags and accept the
    completion? *)
Definition completes (σ : store) (document : UCDocument) (this : handle)
    (type : option Z) (c : handle) : bool :=
  match σ !! c with
  | Some s => kind_accepts type s && acceptCompletion c document this
  | None => false
  end.

(** The loop of [getCompletionSymbols] over the children of one struct;
    [symbols] is the array the children are pushed onto. *)
Fixpoint getCompletionSymbols_children (fuel : nat) (σ : store)
    (document : UCDocument) (this : handle) (type : option Z)
    (child : option handle) (symbols : list handle) : outcome (list handle) :=
  match child with
  | None => Done symbols
  | Some c =>
    match fuel with
    | O => OutOfFuel
    | S fuel' =>
      match σ !! c with
      | None => Throw
      | Some s =>
        let symbols :=
          if kind_accepts type s && acceptCompletion c document this
          then symbols ++ [c] else symbols in
        getCompletionSymbols_children fuel' σ document this type (next s) symbols
      end
    end
  end.

(** [a ?? b] *)
Definition nullish {A} (a b : option A) : option A :=
  match a with Some _ => a | None => b end.

(** The loop over the parents: [parent.super ?? parent.outer]. *)
Fixpoint getCompletionSymbols_parents (fuel : nat) (σ : store)
    (document : UCDocument) (this : handle) (type : option Z)
    (parent : option handle) (symbols : list handle) : outcome (list handle) :=
  match parent with
  | None => Done symbols
  | Some p =>
    match fuel with
    | O => OutOfFuel
    | S fuel' =>
      match σ !! p with
      | None => Throw
      | Some s =>
        let? symbols :=
          getCompletionSymbols_children fuel' σ document this type (children s)
            symbols in
        getCompletionSymbols_parents fuel' σ document this type
          (nullish (super s) (outer s)) symbols
      end
    end
  end.

(** [getCompletionSymbols (document, _context, type)] *)
Definition getCompletionSymbols (fuel : nat) (σ : store) (document : UCDocument)
    (this : handle) (type : option Z) : outcome (list handle) :=
  match σ !! this with
  | None => Throw
  | Some s =>
    let? symbols :=
      getCompletionSymbols_children fuel σ document this type (children s) [] in
    getCompletionSymbols_parents fuel σ document this type
      (nullish (super s) (outer s)) symbols
  end.

End Completion.

(** ** Type references: the kind of the referent, qualified types *)

(** The number behind a member of the enumeration [UCTypeKind]: its
    position in the declaration. *)
Definition UCTypeKind_value (k : UCTypeKind.t) : Z :=
  match k with
  | UCTypeKind.Float => 0
  | UCTypeKind.Int => 1
  | UCTypeKind.Byte => 2
  | UCTypeKind.String => 3
  | UCTypeKind.Name => 4
  | UCTypeKind.Bool => 5
  | UCTypeKind.Array => 6
  | UCTypeKind.Delegate => 7
  | UCTypeKind.Object => 8
  | UCTypeKind.Package => 9
  | UCTypeKind.Class => 10
  | UCTypeKind.Interface => 11
  | UCTypeKind.Enum => 12
  | UCTypeKind.State => 13
  | UCTypeKind.Struct => 14
  | UCTypeKind.Property => 15
  | UCTypeKind.Function => 16
  | UCTypeKind.Type_ => 17
  | UCTypeKind.None_ => 18
  | UCTypeKind.Error => 19
  end%Z.

(** Is the number truthy?  Every number but [0] (and [NaN]) is. *)
Definition truthy (k : UCTypeKind.t) : bool :=
  negb (bool_decide (UCTypeKind_value k = 0%Z)).

Section TypeKind.

(** The class symbol [NativeClass] and [getTypeKind ()] of a field symbol,
    which the sources at hand do not define. *)
Variable NativeClass : handle.
Variable UCFieldSymbol_getTypeKind : store → handle → UCTypeKind.t.

(** [this.reference instanceof C], for the classes [C] that [p] holds of. *)
Definition reference_instanceof (σ : store) (this : UCObjectTypeSymbol)
    (p : SymbolClass → bool) : bool :=
  match reference this ≫= (σ !!.) with
  | Some s => p (class s)
  | None => false
  end.

(** [UCObjectTypeSymbol.getTypeKind]; the last line is
    [reference instanceof UCFieldSymbol && reference.getTypeKind ()
    || UCTypeKind.Error]. *)
Definition UCObjectTypeSymbol_getTypeKind (σ : store) (this : UCObjectTypeSymbol)
    : UCTypeKind.t :=
  if bool_decide (reference this ≠ Some NativeClass)
     && reference_instanceof σ this (fun c => bool_decide (c = UCClassSymbol))
  then UCTypeKind.Object
  else
    match reference this with
    | Some r =>
      if reference_instanceof σ this isFieldSymbol then
        let kind := UCFieldSymbol_getTypeKind σ r in
        if truthy kind then kind else UCTypeKind.Error
      else UCTypeKind.Error
    | None => UCTypeKind.Error
    end.

End TypeKind.

(** A qualified type reference ([UCQualifiedTypeSymbol]), as in [extends
    Core.Object]: the type and what is written to the left of it. *)
#[warnings="-register-all"]
Inductive UCQualifiedTypeSymbol :=
  QualifiedType (qualified_type : UCObjectTypeSymbol)
                (qualified_left : option UCQualifiedTypeSymbol).

Definition qualified_type (q : UCQualifiedTypeSymbol) : UCObjectTypeSymbol :=
  let 'QualifiedType type _ := q in type.

(** [UCQualifiedTypeSymbol.getReference] *)
Definition UCQualifiedTypeSymbol_getReference (q : UCQualifiedTypeSymbol)
    : option handle :=
  reference (qualified_type q).

Section QualifiedTypes.

Variable getHash : store → handle → string.
Variable PackagesTable_findSymbol : Name → bool → option handle.
Variable SymbolsTable_findSymbol : Name → bool → option handle.
Variable isType : UCSymbol → bool.

(** [UCQualifiedTypeSymbol.index (document, context)]: what the left part
    resolves to is the context of the type, and [undefined] when the left
    part does not resolve.  The result is the qualified type after the
    call. *)
Fixpoint UCQualifiedTypeSymbol_index (fuel : nat) (this : UCQualifiedTypeSymbol)
    (context : option handle) : M UCQualifiedTypeSymbol :=
  let 'QualifiedType type qleft := this in
  match qleft with
  | Some qleft =>
    let! qleft := UCQualifiedTypeSymbol_index fuel qleft context in
    let leftContext := UCQualifiedTypeSymbol_getReference qleft in
    let! type :=
      UCObjectTypeSymbol_index getHash PackagesTable_findSymbol
        SymbolsTable_findSymbol isType fuel type leftContext in
    ret (QualifiedType type (Some qleft))
  | None =>
    let! type :=
      UCObjectTypeSymbol_index getHash PackagesTable_findSymbol
        SymbolsTable_findSymbol isType fuel type context in
    ret (QualifiedType type None)
  end.

End QualifiedTypes.

(** [UCQualifiedTypeSymbol.analyze (document, context)] *)
Fixpoint UCQualifiedTypeSymbol_analyze (this : UCQualifiedTypeSymbol)
    (context : option handle) : M unit :=
  let 'QualifiedType type qleft := this in
  match qleft with
  | Some qleft =>
    run! UCQualifiedTypeSymbol_analyze qleft context in
    let leftContext := UCQualifiedTypeSymbol_getReference qleft in
    UCObjectTypeSymbol_analyze type leftContext
  | None => UCObjectTypeSymbol_analyze type context
  end.

(** ** Statements that make an [info] object of their own *)

Section SwitchStatement.

Variable OtherFields : Type.
Variable no_fields : OtherFields.

(** An expression ([IExpression], which the sources at hand do not
    define): it is indexed like a statement, and [getType ()] answers by
    the symbols at the time of the call.  [expression_typeFlags] is
    [getTypeFlags ()] of that type, where there is one. *)
Record IExpression := {
  expression_index : IStatement OtherFields;
  expression_typeFlags : State → option Z
}.

(** A call that is given a new [info] object, which the caller does not
    see: the caller's own object stays as it is. *)
Definition with_new_info (info : IContextInfo OtherFields)
    (m : Method (State * IContextInfo OtherFields) unit)
    : Method (State * IContextInfo OtherFields) unit :=
  fun '(st, callers) => let '(r, (st', _)) := m (st, info) in (r, (st', callers)).

Definition on_new_info (info : IContextInfo OtherFields)
    (m : Method (State * IContextInfo OtherFields) unit) : Method State unit :=
  fun st => let '(r, (st', _)) := m (st, info) in (r, st').

(** [{ typeFlags: type.getTypeFlags () }] *)
Definition typeFlags_only (flags : Z) : IContextInfo OtherFields :=
  {| info_typeFlags := Some flags; otherFields := no_fields |}.

(** [UCSwitchStatement.index]: the expression is indexed with the info of
    the caller; when it has a type, the [then] statement is given a new
    info object with the flags of that type, and else the info of the
    caller. *)
Definition UCSwitchStatement (expression : option IExpression)
    (then_ : option (IStatement OtherFields)) : IStatement OtherFields :=
  {| index_with := fun context =>
       let index_then :=
         match then_ with
         | Some s => index_with s context
         | None => ret tt
         end in
       match expression with
       | Some e =>
         run! index_with (expression_index e) context in
         let! type := (fun '(st, info) => (Done (expression_typeFlags e st), (st, info))) in
         match type with
         | Some flags => with_new_info (typeFlags_only flags) index_then
         | None => index_then
         end
       | None => index_then
       end;
     index_without := fun context =>
       let index_then :=
         match then_ with
         | Some s => index_without s context
         | None => ret tt
         end in
       match expression with
       | Some e =>
         run! index_without (expression_index e) context in
         let! type := lift (fun st => Done (expression_typeFlags e st)) in
         match type with
         | Some flags =>
           match then_ with
           | Some s => on_new_info (typeFlags_only flags) (index_with s context)
           | None => ret tt
           end
         | None => index_then
         end
       | None => index_then
       end |}.

End SwitchStatement.

Arguments expression_index {OtherFields} _.
Arguments expression_typeFlags {OtherFields} _ _.
Arguments with_new_info {OtherFields} _ _ _.
Arguments on_new_info {OtherFields} _ _ _.

(** ** The global maps of the document module *)

(** [getEnumMember] *)
Definition getEnumMember (enumMember : string) (st : State) : option handle :=
  EnumMemberMap st !! enumMember.

(** An index none of whose keys holds an empty set: a key of the index is
    a symbol that has a reference. *)
Definition no_empty_entry (index : gmap string (gset positive)) : Prop :=
  ∀ k, index !! k ≠ Some ∅.

(** ** The structural builder: the modifiers of a class declaration *)

(** What the builder reads of a class modifier: the text of its
    identifier, and the values of its arguments (text and range of each),
    where it has arguments. *)
Record ClassModifierContext := {
  modifier_identifier : string;
  modifierArguments : option (list (string * Range))
}.

(** The two arrays of the class symbol that the modifiers fill;
    [None] is [undefined]. *)
Record ClassModifierTypes := {
  dependsOnTypes : option (list UCObjectTypeSymbol);
  implementsTypes : option (list UCObjectTypeSymbol)
}.

Section ClassModifiers.

(** [String.prototype.toLowerCase] *)
Variable toLowerCase : string → string.

(** [types = types || []], then a new type reference with the hint
    [Class] pushed for every value. *)
Definition push_class_types (values : list (string * Range))
    (types : option (list UCObjectTypeSymbol)) : option (list UCObjectTypeSymbol) :=
  Some (default [] types
        ++ ((fun value =>
               ObjectType {| name := value.1; range := TokenRange value.2 |}
                 (Some UCTypeKind.Class) None None) <$> values)).

(** The [case 'implements'] of the switch. *)
Definition enterClassDecl_implements (modifier : ClassModifierContext)
    (types : ClassModifierTypes) : ClassModifierTypes :=
  match modifierArguments modifier with
  | Some values =>
    {| dependsOnTypes := dependsOnTypes types;
       implementsTypes := push_class_types values (implementsTypes types) |}
  | None => types
  end.

(** The [case 'dependson'], which has no [break] and runs on into the
    [case 'implements']. *)
Definition enterClassDecl_dependson (modifier : ClassModifierContext)
    (types : ClassModifierTypes) : ClassModifierTypes :=
  let types :=
    match modifierArguments modifier with
    | Some values =>
      {| dependsOnTypes := push_class_types values (dependsOnTypes types);
         implementsTypes := implementsTypes types |}
    | None => types
    end in
  enterClassDecl_implements modifier types.

(** The loop of [enterClassDecl] over the class modifiers. *)
Fixpoint enterClassDecl_modifiers (modifierNodes : list ClassModifierContext)
    (types : ClassModifierTypes) : ClassModifierTypes :=
  match modifierNodes with
  | [] => types
  | modifierNode :: modifierNodes =>
    let text := toLowerCase (modifier_identifier modifierNode) in
    let types :=
      if decide (text = "dependson") then enterClassDecl_dependson modifierNode types
      else if decide (text = "implements") then
        enterClassDecl_implements modifierNode types
      else types in
    enterClassDecl_modifiers modifierNodes types
  end.

End ClassModifiers.

(** ** The server: the context of a completion *)

(** The text of a document is a string of UTF-16 code units; [text[i]] is
    the unit at [i], and [undefined] beyond the end. *)
Abbreviation code_unit := N.

Definition code_units (s : string) : list code_unit :=
  Ascii.N_of_ascii <$> String.list_ascii_of_string s.

(** The unit of a string literal of one character. *)
Definition unit_of (c : string) : code_unit :=
  match c with
  | String a _ => Ascii.N_of_ascii a
  | EmptyString => 0%N
  end.

(** The literals ['\t'] and ['\n']. *)
Definition TAB : string := String (Ascii.ascii_of_N 9) "".
Definition NEWLINE : string := String (Ascii.ascii_of_N 10) "".

(** [char === c], for a literal [c] of one character. *)
Definition is_char (char : option code_unit) (c : string) : bool :=
  bool_decide (char = Some (unit_of c)).

(** [char >= lo && char <= hi]: strings of one unit compare as their units
    do, and [undefined] compares false. *)
Definition char_between (char : option code_unit) (lo hi : string) : bool :=
  match char with
  | Some c => (unit_of lo <=? c)%N && (c <=? unit_of hi)%N
  | None => false
  end.

(** The loop of [connection.onCompletion], from [colOffset = n - 1] down
    to [0]: the context found (the empty string or a dot) and the offset
    the loop stopped at, if it did ([position] is then assigned
    [doc.positionAt (colOffset)], and else left as it was). *)
Fixpoint onCompletion_loop (text : list code_unit) (n : nat) (context : string)
    (parenthesisLevel bracketLevel : Z) (shouldSkipNextChars : bool)
    : string * option nat :=
  match n with
  | O => (context, None)
  | S colOffset =>
    let char := text !! colOffset in
    if is_char char " " || is_char char TAB || is_char char NEWLINE
       || is_char char ";"
    then onCompletion_loop text colOffset context parenthesisLevel bracketLevel false
    else
      let rest (shouldSkipNextChars : bool) :=
        if (0 <? parenthesisLevel)%Z || (0 <? bracketLevel)%Z then
          onCompletion_loop text colOffset context parenthesisLevel bracketLevel
            shouldSkipNextChars
        else if is_char char "." then
          onCompletion_loop text colOffset "." parenthesisLevel bracketLevel false
        else if shouldSkipNextChars then
          onCompletion_loop text colOffset context parenthesisLevel bracketLevel
            shouldSkipNextChars
        else (context, Some colOffset) in
      if char_between char "a" "z" || char_between char "A" "Z" then
        rest (negb (String.eqb context "."))
      else if is_char char "(" then
        onCompletion_loop text colOffset context (parenthesisLevel - 1) bracketLevel
          shouldSkipNextChars
      else if is_char char ")" then
        onCompletion_loop text colOffset context (parenthesisLevel + 1) bracketLevel
          shouldSkipNextChars
      else if is_char char "[" then
        onCompletion_loop text colOffset context parenthesisLevel (bracketLevel - 1)
          shouldSkipNextChars
      else if is_char char "]" then
        onCompletion_loop text colOffset context parenthesisLevel (bracketLevel + 1)
          shouldSkipNextChars
      else rest shouldSkipNextChars
  end.

(** [CompletionTriggerKind.TriggerCharacter] *)
Definition TriggerCharacter : Z := 2.

(** The handler of [connection.onCompletion] up to its last call: what it
    passes to [getCompletableSymbolItems] as context and as position (the
    offset the position is made from, or [None] for the position of the
    request), and [None] when it answers [undefined].  [triggerKind] is
    that of [e.context], if there is one, [doc] the text of the open
    document, if it is open, and [offset] is [doc.offsetAt (position)]. *)
Definition onCompletion (triggerKind : option Z) (doc : option (list code_unit))
    (offset : nat) : option (string * option nat) :=
  match triggerKind with
  | Some kind =>
    if (kind <=? TriggerCharacter)%Z then
      match doc with
      | None => None
      | Some text => Some (onCompletion_loop text (S offset) "" 0 0 false)
      end
    else Some ("", None)
  | None => Some ("", None)
  end.

(** The characters the loop passes over whatever its state. *)
Definition passed_over : list code_unit :=
  unit_of <$> [" "; TAB; NEWLINE; ";"; "("; ")"; "["; "]"; "."].

(** ** Example symbol graphs *)

Definition at_line (n : Name) (l : Z) : Identifier :=
  {| name := n;
     range := TokenRange {| range_start := {| line := l; character := 0 |};
                            range_end := {| line := l; character := 1 |} |} |}.

Module Example.

(** [class X; state Idle {}] and [class Y extends X; state Idle {}]: the
    symbols 1 ([X]), 2 ([X.Idle]), 3 ([Y]) and 4 ([Y.Idle]) as the
    structural builder leaves them, [Y] with its extends type. *)
Definition X : handle := 1%positive.
Definition X_Idle : handle := 2%positive.
Definition Y : handle := 3%positive.
Definition Y_Idle : handle := 4%positive.

Definition extends_X : UCObjectTypeSymbol :=
  ObjectType (at_line "X" 1) (Some UCTypeKind.Class) None None.

Definition built : store :=
  addSymbol Y Y_Idle
    (addSymbol X X_Idle
       (list_to_map
          [(X, UCSymbol_new UCClassSymbol (at_line "X" 1) 1);
           (X_Idle, UCSymbol_new UCStateSymbol (at_line "Idle" 2) 2);
           (Y, set_extendsType (Some extends_X)
                 (UCSymbol_new UCClassSymbol (at_line "Y" 1) 1));
           (Y_Idle, UCSymbol_new UCStateSymbol (at_line "Idle" 2) 2)])).

Definition document_Y : UCDocument :=
  {| uri := "file:///Y.uc"; filePath := "/Y.uc"; classPackage := 9%positive;
     nodes := []; document_class := Some Y; indexReferencesMade := ∅;
     context := None |}.

Definition state_of (σ : store) (doc : UCDocument) : State :=
  {| symbols := σ; referenceObjects := ∅; IndexedReferences := ∅;
     EnumMemberMap := ∅; document := doc; lookups := [] |}.

(** The parameters of indexing: symbols are filed under their name, the
    global table knows the class [X], and the inherited [index] does
    nothing. *)
Definition getHash (σ : store) (h : handle) : string :=
  default "" (field (Some ∘ name ∘ id) σ h).

Definition PackagesTable_findSymbol (i : Name) (deepSearch : bool) : option handle :=
  None.

Definition SymbolsTable_findSymbol (i : Name) (deepSearch : bool) : option handle :=
  if decide (i = "X") then Some X else None.

Definition isType (s : UCSymbol) : bool := isStructSymbol (class s).

Definition UCFieldSymbol_index (this context : handle) : M unit := ret tt.

Definition index (fuel : nat) (this context : handle) : M unit :=
  UCSymbol_index getHash PackagesTable_findSymbol SymbolsTable_findSymbol isType
    UCFieldSymbol_index fuel this context.

(** The same with a class [M] between the two, [class M extends X; var int
    Idle;] and [class Y extends M]: the symbols 5 ([M]) and 6 ([M.Idle], a
    property), with the [super] links of the classes resolved. *)
Definition Mid : handle := 5%positive.
Definition Mid_Idle : handle := 6%positive.

Definition shadowed : store :=
  addSymbol Y Y_Idle
    (addSymbol Mid Mid_Idle
       (addSymbol X X_Idle
          (list_to_map
             [(X, UCSymbol_new UCClassSymbol (at_line "X" 1) 1);
              (X_Idle, UCSymbol_new UCStateSymbol (at_line "Idle" 2) 2);
              (Mid, set_super (Some X)
                      (UCSymbol_new UCClassSymbol (at_line "M" 1) 1));
              (Mid_Idle, UCSymbol_new UCPropertySymbol (at_line "Idle" 2) 4);
              (Y, set_super (Some Mid)
                    (UCSymbol_new UCClassSymbol (at_line "Y" 1) 1));
              (Y_Idle, UCSymbol_new UCStateSymbol (at_line "Idle" 2) 2)]))).

(** The first graph once the extends type of [Y] is resolved. *)
Definition linked : store := assign (set_super (Some X)) Y built.

(** A property that is not declared anywhere yet. *)
Definition Health : handle := 7%positive.

Definition with_Health : store :=
  <[Health := UCSymbol_new UCPropertySymbol (at_line "Health" 3) 4]> built.

(** The operator [+], declared as a function. *)
Definition plus_operator : UCSymbol :=
  UCSymbol_new UCMethodSymbol (at_line "+" 5) 8.

(** The objects behind the handles, as the stores above hold them. *)
Definition Y_symbol : UCSymbol :=
  Eval vm_compute in default (UCSymbol_new UCClassSymbol (at_line "Y" 1) 1) (linked !! Y).

Definition Y_Idle_symbol : UCSymbol :=
  Eval vm_compute in
    default (UCSymbol_new UCStateSymbol (at_line "Idle" 2) 2) (linked !! Y_Idle).

Definition X_Idle_symbol : UCSymbol :=
  Eval vm_compute in
    default (UCSymbol_new UCStateSymbol (at_line "Idle" 2) 2) (linked !! X_Idle).

Definition Health_symbol : UCSymbol :=
  Eval vm_compute in
    default (UCSymbol_new UCPropertySymbol (at_line "Health" 3) 4)
      (with_Health !! Health).

Definition Y_shadowed_symbol : UCSymbol :=
  Eval vm_compute in
    default (UCSymbol_new UCClassSymbol (at_line "Y" 1) 1) (shadowed !! Y).

End Example.

Module ExtendsExample.

(** [class X; state Base {} state Idle {}] and [class Y extends X; state Idle
    extends Base {}]: the state [Idle] of [Y] has the name of a state of
    [X], and an extends type that names another state of [X].  The symbols
    are those of [Example], with 10 for [X.Base]. *)
Definition X_Base : handle := 10%positive.

Definition extends_Base : UCObjectTypeSymbol :=
  ObjectType (at_line "Base" 4) (Some UCTypeKind.State) None None.

(** The graph as the structural builder leaves it, with the [super] of the
    class [Y] resolved. *)
Definition unlinked : store :=
  addSymbol Example.Y Example.Y_Idle
    (addSymbol Example.X Example.X_Idle
       (addSymbol Example.X X_Base
          (list_to_map
             [(Example.X, UCSymbol_new UCClassSymbol (at_line "X" 1) 1);
              (X_Base, UCSymbol_new UCStateSymbol (at_line "Base" 2) 2);
              (Example.X_Idle, UCSymbol_new UCStateSymbol (at_line "Idle" 3) 2);
              (Example.Y, set_super (Some Example.X)
                            (UCSymbol_new UCClassSymbol (at_line "Y" 1) 1));
              (Example.Y_Idle,
               set_extendsType (Some extends_Base)
                 (UCSymbol_new UCStateSymbol (at_line "Idle" 4) 2))]))).

(** The same once [Y.Idle] is linked to the state it overrides. *)
Definition linked : store :=
  assign (set_super (Some Example.X_Idle)) Example.Y_Idle unlinked.

(** The extends type once it is indexed. *)
Definition indexed_Base : UCObjectTypeSymbol :=
  ObjectType (at_line "Base" 4) (Some UCTypeKind.State) (Some X_Base) None.

(** The objects behind the handles. *)
Definition Y_symbol : UCSymbol :=
  Eval vm_compute in
    default (UCSymbol_new UCClassSymbol (at_line "Y" 1) 1) (unlinked !! Example.Y).

Definition X_Idle_symbol : UCSymbol :=
  Eval vm_compute in
    default (UCSymbol_new UCStateSymbol (at_line "Idle" 3) 2)
      (unlinked !! Example.X_Idle).

Definition Y_Idle_unlinked : UCSymbol :=
  Eval vm_compute in
    default (UCSymbol_new UCStateSymbol (at_line "Idle" 4) 2)
      (unlinked !! Example.Y_Idle).

Definition Y_Idle_linked : UCSymbol :=
  Eval vm_compute in
    default (UCSymbol_new UCStateSymbol (at_line "Idle" 4) 2)
      (linked !! Example.Y_Idle).

End ExtendsExample.

Module AnalyzerExample.

(** The analyzer reaches the extends type of the class; a diagnostic is
    located at the identifier of its type reference and says what is
    wrong. *)
Definition typesReached (σ : store) (c : handle)
    : list (UCObjectTypeSymbol * option handle) :=
  match field extendsType σ c with
  | Some type => [(type, Some c)]
  | None => []
  end.

Definition node_getRange (node : IDiagnosticNode) : RangeRef :=
  match node with
  | SyntaxErrorNode r _ => r
  | UnrecognizedTypeNode t | SemanticErrorNode t _ => range (type_id t)
  end.

Definition node_toString (node : IDiagnosticNode) : string :=
  match node with
  | SyntaxErrorNode _ msg | SemanticErrorNode _ msg => msg
  | UnrecognizedTypeNode t => "Type '" +:+ name (type_id t) +:+ "' not found!"
  end.

Definition analyze : M (option (list Diagnostic)) :=
  UCDocument_analyze node_getRange node_toString typesReached.

(** The document of the class [Y extends X], built and not resolved: the
    extends type has no reference. *)
Definition unresolved : State := Example.state_of Example.built Example.document_Y.

End AnalyzerExample.

Module EnumExample.

(** [enum E { A, B, C }] in the class [Y]. *)
Definition token (l c : Z) : Range :=
  {| range_start := {| line := l; character := c |};
     range_end := {| line := l; character := c + 1 |} |}.

Definition E_decl : EnumDeclContext :=
  {| decl_identifier := Some ("E", token 3 5);
     decl_range := token 3 0;
     enumMember :=
       [ {| member_start := token 3 9; member_identifier := Some "A" |};
         {| member_start := token 3 12; member_identifier := Some "B" |};
         {| member_start := token 3 15; member_identifier := Some "C" |} ] |}.

Definition getTypeFlags (c : SymbolClass) : Z :=
  match c with
  | UCEnumMemberSymbol => 4
  | UCStateSymbol => 2
  | _ => 1
  end.

Definition UCPackage_addSymbol (package symbol : handle) (σ : store) : store :=
  assign (set_outer (Some package)) symbol σ.

(** A declaration without an identifier, as the parser leaves a malformed
    one. *)
Definition no_identifier : EnumDeclContext :=
  {| decl_identifier := None; decl_range := token 3 0; enumMember := [] |}.

(** The builder is inside the class [Y]. *)
Definition in_class_Y : State :=
  Example.state_of Example.built
    (set_context (Some [Example.Y]) Example.document_Y).

Definition declared : outcome (option handle) * State :=
  enterEnumDecl getTypeFlags UCPackage_addSymbol E_decl in_class_Y.

(** The value of the member with the name [n] of the enum [e]. *)
Definition member_value (st : State) (e : handle) (n : Name) : outcome (option Z) :=
  let? member := getSymbol 10 (symbols st) e n None in
  Done (member ≫= fun h => field value (symbols st) h).

End EnumExample.

Module BlockExample.

(** A statement that leaves a type hint in the [info] object it is given,
    and a statement that notes in the record of lookups whether it was
    given a hint. *)
Definition hints : IStatement unit :=
  {| index_with := fun _ '(st, info) =>
       (Done tt, (st, set_info_typeFlags (Some 5%Z) info));
     index_without := fun _ => ret tt |}.

Definition notes : IStatement unit :=
  {| index_with := fun context '(st, info) =>
       let seen := if info_typeFlags info is Some _ then "hint" else "no hint" in
       (Done tt, (set_lookups (lookups st ++ [InContext context seen]) st, info));
     index_without := fun context st =>
       (Done tt, set_lookups (lookups st ++ [InContext context "no info"]) st) |}.

Definition no_hint : IContextInfo unit :=
  {| info_typeFlags := None; otherFields := tt |}.

End BlockExample.

Module ScopeExample.

(** A predicate for [findSymbol]: the symbol is a property. *)
Definition is_property (σ : store) (c : handle) : bool :=
  bool_decide (class <$> σ !! c = Some UCPropertySymbol).

Definition isMethodSymbol (s : UCSymbol) : bool :=
  bool_decide (class s = UCMethodSymbol).

Definition isStateSymbol (s : UCSymbol) : bool :=
  bool_decide (class s = UCStateSymbol).

Definition acceptCompletion (child : handle) (document : UCDocument) (this : handle)
    : bool := true.

(** The class [Y] with the property [Health] declared after its state. *)
Definition declared_Health : store :=
  addSymbol Example.Y Example.Health Example.with_Health.

End ScopeExample.

Module SwitchExample.

(** A switch on an expression of a type with the flags [3], which leaves
    the hint [5] behind, over a block of one clause. *)
Definition expression : IExpression unit :=
  {| expression_index := BlockExample.hints;
     expression_typeFlags := fun _ => Some 3%Z |}.

Definition clauses : list (option (IStatement unit)) := [Some BlockExample.notes].

Definition before : State :=
  Example.state_of Example.built Example.document_Y.

Definition hinted : IContextInfo unit :=
  {| info_typeFlags := Some 5%Z; otherFields := tt |}.

End SwitchExample.

Module IndexExample.

(** An index with one record under the key of [X]. *)
Definition one_record : gmap string (gset positive) := {["X" := {[2%positive]}]}.

(** The document of [Y] after it made that record, a reference to [X], and
    another document made a record under the key of [Y]. *)
Definition indexed : State :=
  {| symbols := Example.linked;
     referenceObjects :=
       {[ 2%positive :=
            {| location := {| loc_uri := "file:///Y.uc";
                              loc_range := range (at_line "X" 1) |};
               ref_symbol := Some (at_line "X" 1); ref_context := None |};
          3%positive :=
            {| location := {| loc_uri := "file:///Z.uc";
                              loc_range := range (at_line "Y" 1) |};
               ref_symbol := Some (at_line "Y" 1); ref_context := None |} ]};
     IndexedReferences := {[ "X" := {[2%positive]}; "Y" := {[3%positive]} ]};
     EnumMemberMap := ∅;
     document := set_indexReferencesMade one_record Example.document_Y;
     lookups := [] |}.

End IndexExample.

Module OverrideExample.

(** [class X; var int Health; state Idle {}] and [class Y extends X; var
    int Health; state Idle {}], indexed: the state of [Y] overrides that of
    [X].  The symbols 1 to 4 are those of [Example]; 7 is [X.Health] and 8
    is [Y.Health]. *)
Definition X_Health : handle := 7%positive.
Definition Y_Health : handle := 8%positive.

Definition overriding : store :=
  addSymbol Example.Y Y_Health
    (addSymbol Example.Y Example.Y_Idle
       (addSymbol Example.X X_Health
          (addSymbol Example.X Example.X_Idle
             (list_to_map
                [(Example.X, UCSymbol_new UCClassSymbol (at_line "X" 1) 1);
                 (Example.X_Idle, UCSymbol_new UCStateSymbol (at_line "Idle" 2) 2);
                 (X_Health, UCSymbol_new UCPropertySymbol (at_line "Health" 3) 4);
                 (Example.Y, set_super (Some Example.X)
                               (UCSymbol_new UCClassSymbol (at_line "Y" 1) 1));
                 (Example.Y_Idle,
                  set_overriddenState (Some Example.X_Idle)
                    (set_super (Some Example.X_Idle)
                       (UCSymbol_new UCStateSymbol (at_line "Idle" 2) 2)));
                 (Y_Health, UCSymbol_new UCPropertySymbol (at_line "Health" 3) 4)])))).

Definition Y_Idle_symbol : UCSymbol :=
  Eval vm_compute in
    default (UCSymbol_new UCStateSymbol (at_line "Idle" 2) 2)
      (overriding !! Example.Y_Idle).

Definition X_Idle_symbol : UCSymbol :=
  Eval vm_compute in
    default (UCSymbol_new UCStateSymbol (at_line "Idle" 2) 2)
      (overriding !! Example.X_Idle).

Definition X_symbol : UCSymbol :=
  Eval vm_compute in
    default (UCSymbol_new UCClassSymbol (at_line "X" 1) 1) (overriding !! Example.X).

End OverrideExample.

Module ChildrenExample.

(** An [index] that throws on the property [Health] and notes every other
    child it is called on. *)
Definition index (child this : handle) : M unit :=
  if decide (child = Example.Health) then throw
  else log (InContext child "indexed").

End ChildrenExample.

Module MalformedEnumExample.

(** [enum E { A, , C }] in the class [Y]: the member node in the middle has
    no identifier. *)
Definition E_decl : EnumDeclContext :=
  {| decl_identifier := Some ("E", EnumExample.token 3 5);
     decl_range := EnumExample.token 3 0;
     enumMember :=
       [ {| member_start := EnumExample.token 3 9; member_identifier := Some "A" |};
         {| member_start := EnumExample.token 3 12; member_identifier := None |};
         {| member_start := EnumExample.token 3 14; member_identifier := Some "C" |} ] |}.

Definition declared : outcome (option handle) * State :=
  enterEnumDecl EnumExample.getTypeFlags EnumExample.UCPackage_addSymbol E_decl
    EnumExample.in_class_Y.

End MalformedEnumExample.

(** * Properties *)

(** ** Stores, fields and chains *)

Lemma field_Some {A} (f : UCSymbol → option A) (σ : store) h s :
  σ !! h = Some s → field f σ h = f s.
Proof. unfold field. by intros ->. Qed.

Lemma lookup_assign f h c (σ : store) :
  assign f h σ !! c = if decide (h = c) then f <$> σ !! c else σ !! c.
Proof.
  unfold assign. rewrite lookup_alter. by destruct (decide (h = c)) as [->|].
Qed.

Lemma lookup_assign_ne f h c (σ : store) : h ≠ c → assign f h σ !! c = σ !! c.
Proof. intros. rewrite lookup_assign. by destruct (decide (h = c)). Qed.

Lemma lookup_assign_eq f h (σ : store) : assign f h σ !! h = f <$> σ !! h.
Proof. rewrite lookup_assign. by destruct (decide (h = h)). Qed.

Lemma is_Some_assign f h c (σ : store) :
  is_Some (assign f h σ !! c) ↔ is_Some (σ !! c).
Proof.
  rewrite lookup_assign. destruct (decide (h = c)); [|done].
  by rewrite fmap_is_Some.
Qed.

(** An assignment that keeps the field [g] of the object it changes keeps
    [g] everywhere. *)
Lemma field_assign_frame {A} (g : UCSymbol → option A) f h c (σ : store) :
  (∀ s, g (f s) = g s) → field g (assign f h σ) c = field g σ c.
Proof.
  intros Hg. unfold field. rewrite lookup_assign.
  destruct (decide (h = c)); [|done].
  destruct (σ !! c); simpl; [apply Hg|done].
Qed.

Lemma chain_det (σ : store) p l1 l2 : chain σ p l1 → chain σ p l2 → l1 = l2.
Proof.
  intros H1. revert l2. induction H1; intros l2 H2; inversion H2; subst; [done|].
  f_equal. by apply IHchain.
Qed.

Lemma chain_suffix (σ : store) p l c l1 l2 :
  chain σ p l → l = l1 ++ c :: l2 → chain σ (Some c) (c :: l2).
Proof.
  intros H. revert l1. induction H as [|c' l His Hch IH]; intros l1 Heq.
  - by destruct l1.
  - destruct l1 as [|a l1]; simplify_eq/=.
    + by constructor.
    + by eapply IH.
Qed.

(** A chain never visits a symbol twice: it would not end. *)
Lemma chain_head_fresh (σ : store) c l : chain σ (Some c) (c :: l) → c ∉ l.
Proof.
  intros H Hin. apply list_elem_of_split in Hin as (l1 & l2 & ->).
  pose proof (chain_suffix _ _ _ c (c :: l1) l2 H eq_refl) as H'.
  pose proof (chain_det _ _ _ _ H H') as Heq.
  apply (f_equal length) in Heq. simpl in Heq. rewrite length_app in Heq.
  simpl in Heq. lia.
Qed.

Lemma chain_NoDup (σ : store) p l : chain σ p l → NoDup l.
Proof.
  induction 1 as [|c l His Hch IH]; constructor; [|done].
  apply (chain_head_fresh σ). by constructor.
Qed.

(** A chain only depends on the [next] links of the symbols on it. *)
Lemma chain_frame (σ σ' : store) p l :
  (∀ c, c ∈ l → is_Some (σ !! c) →
        is_Some (σ' !! c) ∧ field next σ' c = field next σ c) →
  chain σ p l → chain σ' p l.
Proof.
  intros Hfr H. induction H as [|c l His Hch IH]; [constructor|].
  destruct (Hfr c) as [His' Hn]; [by left|done|].
  constructor; [done|]. rewrite Hn. apply IH.
  intros c' Hin. apply Hfr. by right.
Qed.

Lemma chain_all_Some (σ : store) p l c : chain σ p l → c ∈ l → is_Some (σ !! c).
Proof.
  induction 1 as [|c' l His Hch IH]; intros Hin; [by apply not_elem_of_nil in Hin|].
  apply elem_of_cons in Hin as [->|Hin]; auto.
Qed.

(** With one unit of fuel per child, [getSymbol]'s loop returns the first
    child of the chain that has the name and passes the filter. *)
Lemma getSymbol_loop_chain (σ : store) p l i kind fuel :
  chain σ p l → (length l ≤ fuel)%nat →
  getSymbol_loop fuel σ p i kind = Done (first_named σ l i kind).
Proof.
  intros H. revert fuel. induction H as [|c l [s Hs] Hch IH]; intros fuel Hf.
  - by destruct fuel.
  - destruct fuel as [|fuel]; simpl in *; [lia|].
    rewrite Hs. rewrite (field_Some _ _ _ _ Hs) in IH.
    destruct (bool_decide (name (id s) = i) && kind_accepts kind s); [done|].
    apply IH. lia.
Qed.

Lemma first_named_elem_of (σ : store) l i kind c :
  first_named σ l i kind = Some c →
  c ∈ l ∧ ∃ s, σ !! c = Some s ∧ name (id s) = i ∧ kind_accepts kind s = true.
Proof.
  induction l as [|a l IH]; simpl; [done|].
  destruct (σ !! a) as [s|] eqn:Hs.
  - destruct (bool_decide (name (id s) = i) && kind_accepts kind s) eqn:Hb.
    + intros [= <-]. apply andb_true_iff in Hb as [Hn Hk].
      apply bool_decide_eq_true in Hn. split; [by left|]. eauto.
    + intros H. destruct (IH H) as [Hin Hex]. split; [by right|done].
  - intros H. destruct (IH H) as [Hin Hex]. split; [by right|done].
Qed.

Lemma first_named_is_Some (σ : store) l i kind c s :
  c ∈ l → σ !! c = Some s → name (id s) = i → kind_accepts kind s = true →
  is_Some (first_named σ l i kind).
Proof.
  induction l as [|a l IH]; intros Hin Hs Hn Hk; [by apply not_elem_of_nil in Hin|].
  simpl. apply elem_of_cons in Hin as [<-|Hin].
  - rewrite Hs. rewrite bool_decide_eq_true_2 by done. rewrite Hk. by eexists.
  - destruct (σ !! a) as [sa|]; [|by eapply IH].
    destruct (bool_decide (name (id sa) = i) && kind_accepts kind sa);
      [by eexists|by eapply IH].
Qed.

(** ** [addSymbol] and [removeSymbol] *)

Lemma is_Some_addSymbol this x c (σ : store) :
  is_Some (addSymbol this x σ !! c) ↔ is_Some (σ !! c).
Proof. unfold addSymbol. by rewrite !is_Some_assign. Qed.

Lemma lookup_addSymbol_ne this x c (σ : store) :
  c ≠ x → c ≠ this → addSymbol this x σ !! c = σ !! c.
Proof. intros. unfold addSymbol. by rewrite !lookup_assign_ne. Qed.

Lemma addSymbol_children this x (σ : store) :
  is_Some (σ !! this) → field children (addSymbol this x σ) this = Some x.
Proof.
  intros His. unfold addSymbol, field at 1. rewrite lookup_assign_eq.
  match goal with |- (_ <$> ?m) ≫= _ = _ => assert (is_Some m) as [s ->] end;
    [by rewrite !is_Some_assign|done].
Qed.

Lemma addSymbol_next_new this x (σ : store) :
  is_Some (σ !! x) → field next (addSymbol this x σ) x = field children σ this.
Proof.
  intros His. unfold addSymbol.
  rewrite (field_assign_frame next) by done.
  rewrite (field_assign_frame next) by done.
  unfold field at 1. rewrite lookup_assign_eq.
  match goal with |- (_ <$> ?m) ≫= _ = _ => assert (is_Some m) as [s ->] end;
    [by rewrite !is_Some_assign|simpl].
  by apply field_assign_frame.
Qed.

Lemma addSymbol_next_ne this x c (σ : store) :
  c ≠ x → field next (addSymbol this x σ) c = field next σ c.
Proof.
  intros Hne. unfold addSymbol.
  rewrite (field_assign_frame next) by done.
  unfold field. by rewrite !lookup_assign_ne.
Qed.

Lemma addSymbol_id this x c (σ : store) :
  id <$> addSymbol this x σ !! c = id <$> σ !! c.
Proof.
  unfold addSymbol. rewrite !lookup_assign.
  repeat case_decide; destruct (σ !! c); done.
Qed.

(** [addSymbol] puts the symbol in front of the chain. *)
Lemma addSymbol_chain this x l (σ : store) :
  is_Some (σ !! this) → is_Some (σ !! x) →
  chain σ (field children σ this) l → x ∉ l →
  chain (addSymbol this x σ) (field children (addSymbol this x σ) this) (x :: l).
Proof.
  intros Hthis Hx Hch Hnin. rewrite addSymbol_children by done.
  constructor; [by apply is_Some_addSymbol|].
  rewrite addSymbol_next_new by done.
  eapply chain_frame; [|done]. intros c Hin Hc. split.
  - by apply is_Some_addSymbol.
  - apply addSymbol_next_ne. by intros ->.
Qed.

Lemma addSymbols_is_Some this xs c (σ : store) :
  is_Some (addSymbols this xs σ !! c) ↔ is_Some (σ !! c).
Proof.
  revert σ. induction xs as [|x xs IH]; intros σ; [done|].
  change (addSymbols this (x :: xs) σ)
    with (addSymbols this xs (addSymbol this x σ)).
  by rewrite IH, is_Some_addSymbol.
Qed.




(** ** Name lookup *)

(** More fuel does not change a result. *)
Lemma getSymbol_loop_own (σ : store) p l i kind fuel :
  chain σ p l → (length l ≤ fuel)%nat →
  ∀ c, first_named σ l i kind = Some c →
  getSymbol_loop fuel σ p i kind = Done (Some c).
Proof. intros Hch Hf c Hc. by rewrite (getSymbol_loop_chain _ _ l), Hc. Qed.

(** C6: the own children shadow the inherited ones.  When the children
    chain of a struct has a child with the name (that passes the kind
    filter, if one is given), [findSuperSymbol] returns a child of that
    chain, the first one with the name, for a struct and for a state alike
    and whatever the [super] chain holds: the [super] and [outer] links are
    not followed at all. *)
Theorem findSuperSymbol_own_child_first
    (σ : store) (this : handle) (l : list handle) (i : Name) (kind : option Z)
    (c : handle) (s : UCSymbol) :
  is_Some (σ !! this) → chain σ (field children σ this) l →
  c ∈ l → σ !! c = Some s → name (id s) = i → kind_accepts kind s = true →
  ∃ c', first_named σ l i kind = Some c'
        ∧ c' ∈ l
        ∧ field (Some ∘ name ∘ id) σ c' = Some i
        ∧ ∀ fuel, (length l < fuel)%nat →
            findSuperSymbol fuel σ this i kind = Done (Some c').
Proof.
  intros [st Hst] Hch Hin Hs Hn Hk.
  destruct (first_named_is_Some σ l i kind c s Hin Hs Hn Hk) as [c' Hc'].
  exists c'. split; [done|].
  destruct (first_named_elem_of _ _ _ _ _ Hc') as (Hin' & s' & Hs' & Hn' & _).
  split; [done|]. split; [by unfold field; rewrite Hs'; simpl; rewrite Hn'|].
  intros [|fuel] Hf; [lia|]. simpl. rewrite Hst.
  rewrite (field_Some _ _ _ _ Hst) in Hch.
  unfold getSymbol. rewrite Hst.
  rewrite (getSymbol_loop_own σ _ l i kind fuel Hch ltac:(lia) c' Hc'). simpl.
  by destruct (decide (class st = UCStateSymbol)).
Qed.

(** A lookup that returned or threw does the same with more fuel. *)
Lemma getSymbol_loop_mono fuel fuel' (σ : store) p i kind :
  getSymbol_loop fuel σ p i kind ≠ OutOfFuel → (fuel ≤ fuel')%nat →
  getSymbol_loop fuel' σ p i kind = getSymbol_loop fuel σ p i kind.
Proof.
  revert fuel' p. induction fuel as [|fuel IH]; intros fuel' [c|] Hrun Hle;
    try done; try (by destruct fuel').
  destruct fuel' as [|fuel']; [lia|]. cbn in *.
  destruct (σ !! c) as [s|]; [|done].
  destruct (bool_decide (name (id s) = i) && kind_accepts kind s); [done|].
  apply IH; [done|lia].
Qed.

Lemma findSuperSymbol_mono fuel fuel' (σ : store) this i kind :
  findSuperSymbol fuel σ this i kind ≠ OutOfFuel → (fuel ≤ fuel')%nat →
  findSuperSymbol fuel' σ this i kind = findSuperSymbol fuel σ this i kind.
Proof.
  revert fuel' this. induction fuel as [|fuel IH]; intros fuel' this Hrun Hle;
    [done|].
  destruct fuel' as [|fuel']; [lia|]. cbn [findSuperSymbol] in *.
  destruct (σ !! this) as [s|] eqn:Hs; [|done].
  unfold getSymbol in *. rewrite Hs in *.
  assert (Hown : getSymbol_loop fuel σ (children s) i kind ≠ OutOfFuel).
  { intros Hout. rewrite Hout in Hrun. by destruct (decide (class s = UCStateSymbol)). }
  rewrite (getSymbol_loop_mono fuel fuel') by (done || lia).
  destruct (getSymbol_loop fuel σ (children s) i kind) as [[c|]| |]; try done.
  cbn [outcome_bind] in *.
  destruct (super s) as [sup|].
  - assert (Hsup : findSuperSymbol fuel σ sup i kind ≠ OutOfFuel).
    { intros Hout. rewrite Hout in Hrun.
      by destruct (decide (class s = UCStateSymbol)). }
    rewrite (IH fuel' sup) by (done || lia).
    destruct (decide (class s = UCStateSymbol)); [|done].
    destruct (findSuperSymbol fuel σ sup i kind) as [[c|]| |]; try done.
    cbn [outcome_bind] in *. destruct (outer s) as [o|]; [|done].
    apply IH; [done|lia].
  - destruct (decide (class s = UCStateSymbol)); [|done].
    cbn [outcome_bind] in *. destruct (outer s) as [o|]; [|done].
    apply IH; [done|lia].
Qed.

(** ** The reference index and invalidation *)

Lemma unsetIndexedReferences_lookup_ne k i refs (index : gmap string (gset positive)) :
  i ≠ k → unsetIndexedReferences i refs index !! k = index !! k.
Proof.
  intros Hne. unfold unsetIndexedReferences.
  destruct (index !! i) as [s|]; [|done].
  case_decide; [by rewrite lookup_delete_ne|by rewrite lookup_insert_ne].
Qed.

Lemma unsetIndexedReferences_lookup_eq i refs (index : gmap string (gset positive)) :
  unsetIndexedReferences i refs index !! i =
  match index !! i with
  | Some s => if decide (size (s ∖ refs) = 0%nat) then None else Some (s ∖ refs)
  | None => None
  end.
Proof.
  unfold unsetIndexedReferences. destruct (index !! i) as [s|] eqn:Hi; [|done].
  case_decide; [by rewrite lookup_delete_eq|by rewrite lookup_insert_eq].
Qed.

(** Retracting the entries of a map one after the other, in any order. *)
Lemma map_fold_unsetIndexedReferences (index made : gmap string (gset positive)) k :
  map_fold unsetIndexedReferences index made !! k = retracted index made k.
Proof.
  revert k.
  apply (map_fold_weak_ind
           (fun r (m : gmap string (gset positive)) =>
              ∀ k, r !! k = retracted index m k)).
  - intros k. unfold retracted. by rewrite lookup_empty.
  - intros i x m r Hi IH k. unfold retracted.
    destruct (decide (i = k)) as [<-|Hne].
    + rewrite unsetIndexedReferences_lookup_eq, lookup_insert_eq, IH.
      unfold retracted. rewrite Hi. by destruct (index !! i).
    + rewrite unsetIndexedReferences_lookup_ne, lookup_insert_ne, IH by done.
      done.
Qed.

Lemma getIndexedReferences_retracted (index made : gmap string (gset positive)) k :
  default ∅ (retracted index made k)
  = getIndexedReferences k index ∖ getIndexedReferences k made.
Proof.
  unfold retracted, getIndexedReferences.
  destruct (made !! k) as [refs|], (index !! k) as [s|]; simpl.
  - case_decide as Hsz; [|done]. apply size_empty_inv in Hsz.
    apply leibniz_equiv in Hsz. by rewrite Hsz.
  - set_solver.
  - set_solver.
  - set_solver.
Qed.

(** C1: [invalidate] retracts the document's records from the global
    index.  For every key, the entry of the index afterwards is the entry
    before without the records that the document's [indexReferencesMade]
    holds under that key, deleted when none is left and untouched when the
    document holds nothing under the key; the document's map is empty and
    its class (and its diagnostic nodes) gone, the symbol objects are not
    touched; none of the document's records is left under the key it was
    recorded under; and when the records were filed under their own key
    only, as [indexReference] files them, none is left under any key. *)
Theorem invalidate_retracts_references (st : State) :
  let made := indexReferencesMade (document st) in
  let st' := UCDocument_invalidate st in
  (∀ k, IndexedReferences st' !! k = retracted (IndexedReferences st) made k)
  ∧ (∀ k, getIndexedReferences k (IndexedReferences st')
          = getIndexedReferences k (IndexedReferences st)
            ∖ getIndexedReferences k made)
  ∧ (∀ k, made !! k = None →
          IndexedReferences st' !! k = IndexedReferences st !! k)
  ∧ indexReferencesMade (document st') = ∅
  ∧ document_class (document st') = None
  ∧ nodes (document st') = []
  ∧ symbols st' = symbols st
  ∧ (∀ k r, r ∈ getIndexedReferences k made →
            r ∉ getIndexedReferences k (IndexedReferences st'))
  ∧ (filed_under_own_key st →
     ∀ k r, r ∈ getIndexedReferences k made →
            ∀ k', r ∉ getIndexedReferences k' (IndexedReferences st')).
Proof.
  intros made st'.
  assert (Hk : ∀ k, IndexedReferences st' !! k
                    = retracted (IndexedReferences st) made k).
  { intros k. apply map_fold_unsetIndexedReferences. }
  assert (Hg : ∀ k, getIndexedReferences k (IndexedReferences st')
                    = getIndexedReferences k (IndexedReferences st)
                      ∖ getIndexedReferences k made).
  { intros k. rewrite <- getIndexedReferences_retracted.
    unfold getIndexedReferences at 1. by rewrite Hk. }
  split; [done|]. split; [done|]. split.
  { intros k Hnone. rewrite Hk. unfold retracted. by rewrite Hnone. }
  do 4 (split; [done|]). split.
  - intros k r Hr. rewrite Hg. set_solver.
  - intros Hown k r Hr k'. rewrite Hg. intros [Hin Hnin]%elem_of_difference.
    pose proof (Hown k k' r Hr Hin) as ->. done.
Qed.

Lemma getIndexedReferences_insert k k' v (m : gmap string (gset positive)) :
  getIndexedReferences k' (<[k := v]> m)
  = if decide (k = k') then v else getIndexedReferences k' m.
Proof.
  unfold getIndexedReferences. rewrite lookup_insert.
  by destruct (decide (k = k')).
Qed.

(** The state kept by the two operations on the index: it holds to begin
    with, [indexReference] keeps it, and so does [invalidate]. *)
Lemma index_consistent_empty (st : State) :
  IndexedReferences st = ∅ → indexReferencesMade (document st) = ∅ →
  index_consistent st.
Proof.
  intros Hi Hm. unfold index_consistent, filed_under_own_key, getIndexedReferences.
  rewrite Hi, Hm. repeat split; intros *; rewrite lookup_empty; set_solver.
Qed.

Lemma indexReference_consistent getHash symbol ref (st : State) :
  index_consistent st →
  index_consistent (UCDocument_indexReference getHash symbol ref st).2.
Proof.
  intros (Hidx & Hmade & Hown). unfold UCDocument_indexReference, modify. simpl.
  set (key := getHash (symbols st) symbol).
  set (r := fresh (dom (referenceObjects st))).
  assert (Hfresh : r ∉ dom (referenceObjects st)) by apply is_fresh.
  unfold index_consistent, filed_under_own_key, addIndexedReference. simpl.
  split; [|split].
  - intros k r'. rewrite getIndexedReferences_insert, dom_insert_L.
    case_decide; [|specialize (Hidx k r'); set_solver].
    specialize (Hidx key r'). set_solver.
  - intros k r'. rewrite getIndexedReferences_insert, dom_insert_L.
    case_decide; [|specialize (Hmade k r'); set_solver].
    specialize (Hmade key r'). unfold getIndexedReferences in Hmade. set_solver.
  - intros k k' r'. rewrite !getIndexedReferences_insert.
    intros H1 H2.
    destruct (decide (r' = r)) as [->|Hne].
    + destruct (decide (key = k)) as [<-|]; [|by apply Hmade in H1].
      destruct (decide (key = k')) as [<-|]; [done|by apply Hidx in H2].
    + apply (Hown k k' r').
      * destruct (decide (key = k)) as [<-|]; [|done].
        unfold getIndexedReferences. set_solver.
      * destruct (decide (key = k')) as [<-|]; [|done]. set_solver.
Qed.

Lemma invalidate_consistent (st : State) :
  index_consistent st → index_consistent (UCDocument_invalidate st).
Proof.
  intros (Hidx & Hmade & Hown).
  assert (Hg : ∀ k, getIndexedReferences k (IndexedReferences (UCDocument_invalidate st))
                    = getIndexedReferences k (IndexedReferences st)
                      ∖ getIndexedReferences k (indexReferencesMade (document st))).
  { intros k. rewrite <- getIndexedReferences_retracted.
    unfold getIndexedReferences at 1. f_equal. apply map_fold_unsetIndexedReferences. }
  assert (Hm : indexReferencesMade (document (UCDocument_invalidate st)) = ∅) by done.
  unfold index_consistent, filed_under_own_key. rewrite Hm.
  split; [|split].
  - intros k r. rewrite Hg. intros [Hin _]%elem_of_difference. by eapply Hidx.
  - intros k r. unfold getIndexedReferences. rewrite lookup_empty. set_solver.
  - intros k k' r. unfold getIndexedReferences at 1. rewrite lookup_empty.
    set_solver.
Qed.

(** ** The resolution of type references *)

Section TypeResolution.

Variable getHash : store → handle → string.
Variable PackagesTable_findSymbol : Name → bool → option handle.
Variable SymbolsTable_findSymbol : Name → bool → option handle.
Variable isType : UCSymbol → bool.

Local Abbreviation setReference := (UCObjectTypeSymbol_setReference getHash).
Local Abbreviation lookup_type :=
  (UCObjectTypeSymbol_lookup PackagesTable_findSymbol SymbolsTable_findSymbol).
Local Abbreviation index_type :=
  (UCObjectTypeSymbol_index getHash PackagesTable_findSymbol
     SymbolsTable_findSymbol isType).

(** [setReference] assigns the reference; it leaves the symbol objects and
    the record of lookups alone. *)
Lemma setReference_spec this symbol context noIndex range_arg (st : State) :
  (setReference this symbol context noIndex range_arg st).1
  = Done (ObjectType (type_id this) (validTypeKind this) (Some symbol) (baseType this))
  ∧ lookups (setReference this symbol context noIndex range_arg st).2 = lookups st
  ∧ symbols (setReference this symbol context noIndex range_arg st).2 = symbols st.
Proof.
  destruct this as [i k r b]. unfold UCObjectTypeSymbol_setReference.
  destruct noIndex; [done|]. unfold bind, lift, ret. simpl.
  by destruct (from_option isUCSymbol false (class <$> symbols st !! symbol)).
Qed.

Lemma bind_ret_r {A} (m : M A) (st : State) : (let! a := m in ret a) st = m st.
Proof. unfold bind, ret. by destruct (m st) as [[]]. Qed.

Lemma lookup_type_symbols fuel k i ctx (st : State) :
  symbols (lookup_type fuel k i ctx st).2 = symbols st.
Proof.
  unfold UCObjectTypeSymbol_lookup, bind, log, modify, ret, lift.
  destruct k as [[]|]; simpl; try done.
  all: by destruct (SymbolsTable_findSymbol i true).
Qed.

(** A type reference without an inner type: the lookups of the [switch],
    then the filter of the [Type] hint, then the assignment. *)
Lemma index_type_no_base_eq fuel i k ctx (st : State) :
  index_type fuel (ObjectType i k None None) (Some ctx) st
  = match lookup_type fuel k (name i) ctx st with
    | (Done c, st1) =>
      let kept :=
        if decide (k = Some UCTypeKind.Type_)
        then c ≫= fun sy =>
               if usable_as_type isType (symbols st) sy then Some sy else None
        else c in
      match kept with
      | Some sy => setReference (ObjectType i k None None) sy None false None st1
      | None => (Done (ObjectType i k None None), st1)
      end
    | (Throw, st1) => (Throw, st1)
    | (OutOfFuel, st1) => (OutOfFuel, st1)
    end.
Proof.
  pose proof (lookup_type_symbols fuel k (name i) ctx st) as Hsym.
  cbn [UCObjectTypeSymbol_index]. unfold bind at 1.
  destruct (lookup_type fuel k (name i) ctx st) as [[c| |] st1]; [|done|done].
  cbn [snd] in Hsym. rewrite <- Hsym.
  destruct (decide (k = Some UCTypeKind.Type_)) as [->|Hk].
  - unfold bind at 1. unfold lift at 1.
    destruct c as [sy|]; cbn -[UCObjectTypeSymbol_setReference]; [|done].
    destruct (usable_as_type isType (symbols st1) sy); [|done].
    apply (bind_ret_r (setReference _ sy None false None)).
  - unfold bind at 1. unfold ret at 1.
    destruct c as [sy|]; [|done].
    apply (bind_ret_r (setReference _ sy None false None)).
Qed.

Lemma index_type_no_base fuel i k ctx (st : State) :
  let found := lookup_type fuel k (name i) ctx st in
  let keep (c : option handle) : option handle :=
    if decide (k = Some UCTypeKind.Type_)
    then c ≫= fun sy => if usable_as_type isType (symbols st) sy then Some sy else None
    else c in
  (index_type fuel (ObjectType i k None None) (Some ctx) st).1
  = outcome_map (fun c => ObjectType i k (keep c) None) found.1
  ∧ lookups (index_type fuel (ObjectType i k None None) (Some ctx) st).2
    = lookups found.2
  ∧ symbols (index_type fuel (ObjectType i k None None) (Some ctx) st).2
    = symbols st
  ∧ (∀ c, found.1 = Done c → keep c = None →
          (index_type fuel (ObjectType i k None None) (Some ctx) st).2 = found.2).
Proof.
  intros found keep.
  pose proof (lookup_type_symbols fuel k (name i) ctx st) as Hsym. fold found in Hsym.
  rewrite index_type_no_base_eq. fold found.
  destruct found as [[c| |] st1]; cbn [fst snd outcome_map] in *; [|done|done].
  fold (keep c).
  destruct (keep c) as [sy|] eqn:Hkeep; [|by repeat split; intros; simplify_eq].
  destruct (setReference_spec (ObjectType i k None None) sy None false None st1)
    as (H1 & H2 & H3).
  rewrite H1, H2, H3. repeat split; [done|]. intros ? [= <-]. congruence.
Qed.

(** The [switch], case by case: what is returned and what is searched. *)
Lemma lookup_type_eq fuel k n ctx (st : State) :
  let searched l := set_lookups (lookups st ++ l) st in
  let in_context := findSuperSymbol fuel (symbols st) ctx n None in
  lookup_type fuel k n ctx st
  = match k with
    | Some UCTypeKind.Package =>
      (Done (PackagesTable_findSymbol n false), searched [InPackagesTable n false])
    | Some UCTypeKind.Class | Some UCTypeKind.Interface =>
      (Done (SymbolsTable_findSymbol n true), searched [InSymbolsTable n true])
    | Some UCTypeKind.Enum | Some UCTypeKind.Struct | Some UCTypeKind.State =>
      (in_context, searched [InContext ctx n])
    | _ =>
      match SymbolsTable_findSymbol n true with
      | Some symbol => (Done (Some symbol), searched [InSymbolsTable n true])
      | None => (in_context, searched [InSymbolsTable n true; InContext ctx n])
      end
    end.
Proof.
  intros searched in_context.
  unfold UCObjectTypeSymbol_lookup, bind, log, modify, ret, lift, searched.
  destruct k as [[]|]; cbn; try done.
  all: destruct (SymbolsTable_findSymbol n true); [done|].
  all: cbn; by rewrite <- app_assoc.
Qed.

Lemma outcome_map_compose {A B C} (f : A → B) (g : B → C) (m : outcome A) :
  outcome_map g (outcome_map f m) = outcome_map (g ∘ f) m.
Proof. by destruct m. Qed.

Lemma outcome_map_id {A} (m : outcome A) : outcome_map (fun a => a) m = m.
Proof. by destruct m. Qed.

(** C4: the resolution of a type reference dispatches on the hint.  For
    an unresolved type reference indexed in a context: with the [Package]
    hint the one lookup is in the packages table, without deep search;
    with [Class] or [Interface] it is in the global symbols table, with
    deep search; with [Enum], [Struct] or [State] it is [findSuperSymbol]
    of the context and no table; with any other hint or none the global
    table is searched first, with deep search, and the context only if the
    table has no such symbol; the reference is what the lookup found,
    except with the [Type] hint, where a candidate that is not a field
    symbol usable as a type is dropped: the reference stays unresolved and
    nothing but the record of lookups changes.  A reference that is
    resolved already, or indexed without context, searches nothing. *)
Theorem index_dispatches_on_hint fuel i k ctx (st : State) :
  let r := index_type fuel (ObjectType i k None None) (Some ctx) st in
  let n := name i in
  let in_context := findSuperSymbol fuel (symbols st) ctx n None in
  let global_first :=
    match SymbolsTable_findSymbol n true with
    | Some symbol => Done (Some symbol)
    | None => in_context
    end in
  let resolved := outcome_map reference r.1 in
  (k = Some UCTypeKind.Package →
     lookups r.2 = lookups st ++ [InPackagesTable n false]
     ∧ resolved = Done (PackagesTable_findSymbol n false))
  ∧ (k = Some UCTypeKind.Class ∨ k = Some UCTypeKind.Interface →
     lookups r.2 = lookups st ++ [InSymbolsTable n true]
     ∧ resolved = Done (SymbolsTable_findSymbol n true))
  ∧ (k = Some UCTypeKind.Enum ∨ k = Some UCTypeKind.Struct
     ∨ k = Some UCTypeKind.State →
     lookups r.2 = lookups st ++ [InContext ctx n]
     ∧ resolved = in_context)
  ∧ (has_own_case k = false →
     lookups r.2
     = lookups st ++ InSymbolsTable n true ::
         match SymbolsTable_findSymbol n true with
         | Some _ => []
         | None => [InContext ctx n]
         end
     ∧ (k ≠ Some UCTypeKind.Type_ → resolved = global_first))
  ∧ (k = Some UCTypeKind.Type_ →
     ∀ c, global_first = Done c →
       resolved
       = Done (c ≫= fun sy =>
                 if usable_as_type isType (symbols st) sy then Some sy else None)
       ∧ ((∀ sy, c = Some sy → usable_as_type isType (symbols st) sy = false) →
          resolved = Done None
          ∧ r.2 = set_lookups (lookups r.2) st))
  ∧ (∀ t context, is_Some (reference t) →
       index_type fuel t context st = (Done t, st))
  ∧ (∀ t, index_type fuel t None st = (Done t, st)).
Proof.
  intros r n in_context global_first resolved.
  destruct (index_type_no_base fuel i k ctx st) as (Hres & Hlook & Hsym & Hnone).
  fold r in Hres, Hlook, Hsym, Hnone.
  assert (Hresolved : resolved = outcome_map
            (fun c => if decide (k = Some UCTypeKind.Type_)
                      then c ≫= fun sy =>
                             if usable_as_type isType (symbols st) sy
                             then Some sy else None
                      else c)
            (lookup_type fuel k (name i) ctx st).1).
  { unfold resolved. rewrite Hres. by rewrite outcome_map_compose. }
  clear Hres. rewrite Hlook. clear Hlook.
  assert (Hplain : k ≠ Some UCTypeKind.Type_ →
                   resolved = (lookup_type fuel k (name i) ctx st).1).
  { intros Hne. rewrite Hresolved.
    destruct ((lookup_type fuel k (name i) ctx st).1); cbn; [|done|done].
    by rewrite decide_False. }
  pose proof (lookup_type_eq fuel k (name i) ctx st) as Heq.
  cbn zeta in Heq. fold n in Heq, Hplain, Hresolved, Hnone. fold in_context in Heq.
  fold n. repeat apply conj.
  - intros ->. rewrite Hplain by done. by rewrite Heq.
  - intros [-> | ->]; rewrite Hplain by done; by rewrite Heq.
  - intros [-> | [-> | ->]]; rewrite Hplain by done; by rewrite Heq.
  - intros Hk. split.
    + rewrite Heq. destruct k as [[]|]; try done;
        by destruct (SymbolsTable_findSymbol n true).
    + intros Hne. rewrite Hplain by done. rewrite Heq. unfold global_first.
      destruct k as [[]|]; try done;
        by destruct (SymbolsTable_findSymbol n true).
  - intros -> c Hc.
    assert (Hfound : (lookup_type fuel (Some UCTypeKind.Type_) n ctx st).1 = Done c).
    { rewrite <- Hc, Heq. unfold global_first.
      by destruct (SymbolsTable_findSymbol n true). }
    rewrite Hresolved, Hfound. cbn [outcome_map]. rewrite decide_True by done.
    split; [done|]. intros Hreject.
    assert (Hkept : c ≫= (fun sy =>
              if usable_as_type isType (symbols st) sy then Some sy else None)
            = None).
    { destruct c as [sy|]; [|done]. cbn. by rewrite (Hreject sy). }
    rewrite Hkept. split; [done|].
    rewrite (Hnone c Hfound) by (by rewrite decide_True).
    rewrite Heq. by destruct (SymbolsTable_findSymbol n true).
  - intros [ti tk tr tb] context [sy Hsy]. simpl in Hsy. subst tr. done.
  - intros [ti tk [sy|] tb]; done.
Qed.

End TypeResolution.

(** ** Indexing structs and states *)

Lemma UCObjectTypeSymbol_induction (P : UCObjectTypeSymbol → Prop) :
  (∀ i k r, P (ObjectType i k r None)) →
  (∀ i k r base, P base → P (ObjectType i k r (Some base))) →
  ∀ t, P t.
Proof.
  intros Hnone Hsome. fix IH 1. intros [i k r [base|]].
  - apply Hsome, IH.
  - apply Hnone.
Qed.

Global Instance grows_refl : Reflexive grows.
Proof. intros st. unfold grows. by repeat split. Qed.

Global Instance grows_trans : Transitive grows.
Proof.
  intros st1 st2 st3 (Hs1 & Hi1 & Hm1 & Hr1) (Hs2 & Hi2 & Hm2 & Hr2).
  repeat split.
  - destruct (Hs1 h s H) as [Ha Hb]. by destruct (Hs2 h s Ha).
  - destruct (Hs1 h s H) as [Ha Hb]. destruct (Hs2 h s Ha) as [_ Hc]. congruence.
  - intros k. etrans; [apply Hi1|apply Hi2].
  - intros k. etrans; [apply Hm1|apply Hm2].
  - by etrans.
Qed.

Section Preserves.

Context (R : State → State → Prop) `{!Reflexive R, !Transitive R}.

Lemma preserves_ret {A} (a : A) : preserves R (ret a).
Proof. by intros st. Qed.

Lemma preserves_lift {A} (f : State → outcome A) : preserves R (lift f).
Proof. by intros st. Qed.

Lemma preserves_diverge {A} : preserves R (@diverge A).
Proof. by intros st. Qed.

Lemma preserves_read {A} (f : UCSymbol → A) h : preserves R (read f h).
Proof. by intros st. Qed.

Lemma preserves_bind {A B} (m : M A) (k : A → M B) :
  preserves R m → (∀ a, preserves R (k a)) → preserves R (bind m k).
Proof.
  intros Hm Hk st. unfold bind. specialize (Hm st).
  destruct (m st) as [[a| |] st1]; simpl in *; [|done|done].
  etrans; [done|apply Hk].
Qed.

Lemma preserves_try_catch (m : M unit) : preserves R m → preserves R (try_catch m).
Proof.
  intros Hm st. unfold try_catch. specialize (Hm st).
  by destruct (m st) as [[a| |] st1].
Qed.

Lemma preserves_index_children fuel index this child :
  (∀ c t, preserves R (index c t)) →
  preserves R (index_children fuel index this child).
Proof.
  intros Hidx. revert child. induction fuel as [|fuel IH]; intros [c|]; simpl;
    try apply preserves_ret; try apply preserves_diverge.
  apply preserves_bind; [by apply preserves_try_catch|]. intros _.
  apply preserves_bind; [apply preserves_read|]. intros n. apply IH.
Qed.

End Preserves.

(** An assignment that touches neither [super] nor [overriddenState]. *)
Lemma preserves_write_other f h :
  (∀ s, super (f s) = super s) → (∀ s, overriddenState (f s) = overriddenState s) →
  preserves grows (write f h).
Proof.
  intros Hsup Hov st. unfold write, modify. simpl. unfold grows. simpl.
  split; [|done]. intros h' s Hs.
  rewrite (field_assign_frame super) by done.
  by rewrite (field_assign_frame overriddenState).
Qed.

(** Assigning [super] (and [overriddenState]) where there is no [super]
    link yet. *)
Lemma grows_write_unlinked f h (st : State) :
  field super (symbols st) h = None →
  grows st (set_symbols (assign f h (symbols st)) st).
Proof.
  intros Hnone. unfold grows. simpl. split; [|done]. intros h' s Hs.
  assert (h ≠ h') as Hne by (intros ->; congruence).
  unfold field. by rewrite lookup_assign_ne.
Qed.

Lemma indexReference_grows getHash symbol ref :
  preserves grows (UCDocument_indexReference getHash symbol ref).
Proof.
  intros st. unfold UCDocument_indexReference, modify, grows. simpl.
  split; [done|]. split; [|split].
  - intros k. unfold addIndexedReference.
    rewrite getIndexedReferences_insert. case_decide; [subst|done]. set_solver.
  - intros k. rewrite getIndexedReferences_insert. case_decide; [subst|done].
    unfold getIndexedReferences. set_solver.
  - apply insert_subseteq, not_elem_of_dom, is_fresh.
Qed.

Global Instance same_symbols_refl : Reflexive same_symbols.
Proof. by intros st. Qed.

Global Instance same_symbols_trans : Transitive same_symbols.
Proof. intros st1 st2 st3 H1 H2. unfold same_symbols in *. congruence. Qed.

Lemma grows_set_lookups l (st : State) : grows st (set_lookups l st).
Proof. unfold grows. by repeat split. Qed.

Lemma preserves_log R `{!Reflexive R} q :
  (∀ l st, R st (set_lookups l st)) → preserves R (log q).
Proof. intros HR st. apply HR. Qed.

(** One step of a proof that a sequence of calls keeps a relation. *)
Ltac step_bind := apply preserves_bind; try (solve [apply _]).

Section StructIndexing.

Variable getHash : store → handle → string.
Variable PackagesTable_findSymbol : Name → bool → option handle.
Variable SymbolsTable_findSymbol : Name → bool → option handle.
Variable isType : UCSymbol → bool.
Variable UCFieldSymbol_index : handle → handle → M unit.

Local Abbreviation indexReference := (UCDocument_indexReference getHash).
Local Abbreviation setReference := (UCObjectTypeSymbol_setReference getHash).
Local Abbreviation lookup_type :=
  (UCObjectTypeSymbol_lookup PackagesTable_findSymbol SymbolsTable_findSymbol).
Local Abbreviation index_type :=
  (UCObjectTypeSymbol_index getHash PackagesTable_findSymbol
     SymbolsTable_findSymbol isType).
Local Abbreviation index_extends :=
  (UCStructSymbol_index_extends getHash PackagesTable_findSymbol
     SymbolsTable_findSymbol isType).
Local Abbreviation index_override := (UCStateSymbol_index_override getHash).
Local Abbreviation index_symbol :=
  (UCSymbol_index getHash PackagesTable_findSymbol SymbolsTable_findSymbol
     isType UCFieldSymbol_index).

Lemma indexReference_same_symbols symbol ref :
  preserves same_symbols (indexReference symbol ref).
Proof. by intros st. Qed.

Lemma setReference_preserves R `{!Reflexive R, !Transitive R}
    this symbol context noIndex range_arg :
  (∀ sy ref, preserves R (indexReference sy ref)) →
  preserves R (setReference this symbol context noIndex range_arg).
Proof.
  intros HR. destruct this as [i k r b]. unfold UCObjectTypeSymbol_setReference.
  destruct noIndex; [by apply preserves_ret|].
  step_bind; [apply preserves_lift; done|]. intros c.
  destruct (from_option isUCSymbol false c); [|by apply preserves_ret].
  step_bind; [by apply preserves_lift|]. intros doc.
  step_bind; [apply HR|]. intros _. by apply preserves_ret.
Qed.

Lemma lookup_type_preserves R `{!Reflexive R} fuel k n ctx :
  (∀ l st, R st (set_lookups l st)) →
  preserves R (lookup_type fuel k n ctx).
Proof.
  intros HR st. rewrite lookup_type_eq.
  destruct k as [[]|]; try apply HR.
  all: destruct (SymbolsTable_findSymbol n true); apply HR.
Qed.

Lemma index_type_preserves R `{!Reflexive R, !Transitive R} fuel t context :
  (∀ l st, R st (set_lookups l st)) →
  (∀ sy ref, preserves R (indexReference sy ref)) →
  preserves R (index_type fuel t context).
Proof.
  intros Hlog Href. revert t.
  assert (Hown : ∀ i k r b ctx (rest : UCObjectTypeSymbol → M UCObjectTypeSymbol),
    (∀ this, preserves R (rest this)) →
    preserves R
      (let! symbol := lookup_type fuel k (name i) ctx in
       let! symbol :=
         if decide (k = Some UCTypeKind.Type_) then
           lift (fun st =>
             Done (match symbol with
                   | Some sy =>
                     if usable_as_type isType (symbols st) sy then Some sy else None
                   | None => None
                   end))
         else ret symbol in
       let! this :=
         match symbol with
         | Some sy => setReference (ObjectType i k r b) sy None false None
         | None => ret (ObjectType i k r b)
         end in
       rest this)).
  { intros i k r b ctx rest Hrest.
    step_bind; [by apply lookup_type_preserves|]. intros c.
    step_bind; [ |].
    { case_decide; [by apply preserves_lift|by apply preserves_ret]. }
    intros c'. step_bind; [ |done].
    destruct c'; [by apply setReference_preserves|by apply preserves_ret]. }
  apply UCObjectTypeSymbol_induction.
  - intros i k [sy|] ; cbn [UCObjectTypeSymbol_index].
    + by apply preserves_ret.
    + destruct context as [ctx|]; [|by apply preserves_ret].
      apply Hown. intros this. by apply preserves_ret.
  - intros i k [sy|] base IH; cbn [UCObjectTypeSymbol_index].
    + by apply preserves_ret.
    + destruct context as [ctx|]; [|by apply preserves_ret].
      apply Hown. intros this.
      step_bind; [apply IH|]. intros b'. by apply preserves_ret.
Qed.

Lemma index_type_grows fuel t context : preserves grows (index_type fuel t context).
Proof.
  apply index_type_preserves; try apply _.
  - apply grows_set_lookups.
  - apply indexReference_grows.
Qed.

Lemma index_type_same_symbols fuel t context :
  preserves same_symbols (index_type fuel t context).
Proof.
  apply index_type_preserves; try apply _; [done|].
  apply indexReference_same_symbols.
Qed.

(** [if (!this.super) this.super = v]: a link that is there stays. *)
Lemma assign_super_if_unset_grows this v :
  preserves grows
    (let! sup := read super this in
     match sup with
     | None => write (set_super v) this
     | Some _ => ret tt
     end).
Proof.
  intros st. unfold bind, read, lift. simpl.
  destruct (symbols st !! this) as [s|] eqn:Hs; simpl; [|done].
  destruct (super s) eqn:Hsup; simpl; [done|].
  apply grows_write_unlinked. by rewrite (field_Some _ _ _ _ Hs).
Qed.

Lemma index_extends_grows fuel this context :
  preserves grows (index_extends fuel this context).
Proof.
  unfold UCStructSymbol_index_extends.
  step_bind; [by apply preserves_read|].
  intros [t|]; [|by apply preserves_ret].
  step_bind; [apply index_type_grows|]. intros t'.
  step_bind; [by apply preserves_write_other|].
  intros _. apply assign_super_if_unset_grows.
Qed.

(** The override block when the lookup in the super class of the context
    finds a state: the record is filed, and the state is linked. *)
Lemma index_override_linked fuel this context (st : State) s sc cs o so :
  symbols st !! this = Some s → super s = None →
  symbols st !! context = Some sc → super sc = Some cs →
  findSuperSymbol fuel (symbols st) cs (name (id s)) None = Done (Some o) →
  symbols st !! o = Some so → class so = UCStateSymbol →
  let ref :=
    {| location := {| loc_uri := uri (document st); loc_range := range (id s) |};
       ref_symbol := None; ref_context := None |} in
  let st1 := (indexReference o ref st).2 in
  index_override fuel this context st
  = (Done tt,
     set_symbols
       (assign (set_super (Some o)) this
          (assign (set_overriddenState (Some o)) this (symbols st))) st1).
Proof.
  intros Hs Hsup Hsc Hcs Hfind Hso Hclass ref st1.
  unfold UCStateSymbol_index_override, bind, read, lift.
  repeat (progress (rewrite ?Hs, ?Hsup, ?Hsc, ?Hcs, ?Hfind, ?Hso; cbn beta iota)).
  cbn [fmap option_fmap option_map]. rewrite Hclass. by rewrite decide_True.
Qed.

(** When the lookup finds nothing, or something that is not a state,
    the override block changes nothing. *)
Lemma index_override_not_linked fuel this context (st : State) s sc cs found :
  symbols st !! this = Some s → super s = None →
  symbols st !! context = Some sc → super sc = Some cs →
  findSuperSymbol fuel (symbols st) cs (name (id s)) None = Done found →
  (∀ o, found = Some o → class <$> symbols st !! o ≠ Some UCStateSymbol) →
  index_override fuel this context st = (Done tt, st).
Proof.
  intros Hs Hsup Hsc Hcs Hfind Hnot.
  unfold UCStateSymbol_index_override, bind, read, lift.
  repeat (progress (rewrite ?Hs, ?Hsup, ?Hsc, ?Hcs, ?Hfind; cbn beta iota)).
  destruct found as [o|]; [|done].
  by rewrite decide_False by by apply Hnot.
Qed.

Lemma index_override_grows fuel this context :
  preserves grows (index_override fuel this context).
Proof.
  intros st. unfold UCStateSymbol_index_override, bind, read, lift.
  destruct (symbols st !! this) as [s|] eqn:Hs; cbn beta iota; [|done].
  destruct (super s) eqn:Hsup; cbn beta iota; [done|].
  destruct (symbols st !! context) as [sc|]; cbn beta iota; [|done].
  destruct (super sc) as [cs|]; cbn beta iota; [|done].
  rewrite Hs. cbn beta iota.
  destruct (findSuperSymbol fuel (symbols st) cs (name (id s)) None)
    as [[o|]| |]; cbn beta iota; try done.
  case_decide; [|done]. cbn [fst snd].
  etrans; [apply (indexReference_grows getHash o)|].
  etrans; apply grows_write_unlinked.
  - cbn. by rewrite (field_Some _ _ _ _ Hs).
  - cbn. rewrite (field_assign_frame super) by done.
    by rewrite (field_Some _ _ _ _ Hs).
Qed.

Lemma index_ignoreRefs_grows fuel this k refs :
  preserves grows (index_ignoreRefs getHash fuel this k refs).
Proof.
  revert k. induction refs as [|ref refs IH]; intros k; simpl;
    [by apply preserves_ret|].
  step_bind; [by apply preserves_lift|]. intros symbol.
  step_bind; [|intros _; apply IH].
  destruct symbol as [sy|]; [|by apply preserves_ret].
  step_bind; [|intros ref'; by apply preserves_write_other].
  unfold UCSymbolReference_setReference.
  step_bind; [by apply preserves_lift|]. intros doc.
  step_bind; [apply indexReference_grows|]. intros _. by apply preserves_ret.
Qed.

Hypothesis UCFieldSymbol_index_grows :
  ∀ this context, preserves grows (UCFieldSymbol_index this context).

(** Indexing a symbol, with all below it, only adds: links that are there
    stay, and no record is taken out. *)
Lemma index_symbol_grows fuel this context :
  preserves grows (index_symbol fuel this context).
Proof.
  revert this context. induction fuel as [|fuel IH]; intros this context;
    [by apply preserves_diverge|].
  cbn [UCSymbol_index].
  assert (Hstruct : preserves grows
    (run! UCFieldSymbol_index this context in
     run! index_extends fuel this context in
     let! first := read children this in
     index_children fuel (index_symbol fuel) this first)).
  { step_bind; [apply UCFieldSymbol_index_grows|]. intros _.
    step_bind; [apply index_extends_grows|]. intros _.
    step_bind; [by apply preserves_read|]. intros first.
    apply preserves_index_children; [apply _|apply _|done]. }
  step_bind; [by apply preserves_read|]. intros c.
  destruct (decide (c = UCStateSymbol)).
  - step_bind; [apply index_override_grows|]. intros _.
    step_bind; [done|]. intros _.
    step_bind; [by apply preserves_read|]. intros [refs|];
      [apply index_ignoreRefs_grows|by apply preserves_ret].
  - destruct (isStructSymbol c); [done|apply UCFieldSymbol_index_grows].
Qed.

(** A state that finds the state it overrides is linked to it when
    [index] is done with it, whatever its extends type resolves to, and the
    reference record of the link is in the index. *)
Lemma state_index_links fuel this context (st : State) s sc cs o so :
  symbols st !! this = Some s → class s = UCStateSymbol → super s = None →
  symbols st !! context = Some sc → super sc = Some cs →
  findSuperSymbol fuel (symbols st) cs (name (id s)) None = Done (Some o) →
  symbols st !! o = Some so → class so = UCStateSymbol →
  let st' := (index_symbol (S fuel) this context st).2 in
  let r := fresh (dom (referenceObjects st)) in
  let key := getHash (symbols st) o in
  field super (symbols st') this = Some o
  ∧ field overriddenState (symbols st') this = Some o
  ∧ r ∈ getIndexedReferences key (IndexedReferences st')
  ∧ r ∈ getIndexedReferences key (indexReferencesMade (document st'))
  ∧ referenceObjects st' !! r
    = Some {| location := {| loc_uri := uri (document st);
                             loc_range := range (id s) |};
              ref_symbol := None; ref_context := None |}.
Proof.
  intros Hs Hclass Hsup Hsc Hcs Hfind Hso Hoclass st' r key.
  pose proof (index_override_linked fuel this context st s sc cs o so
                Hs Hsup Hsc Hcs Hfind Hso Hoclass) as Hlink.
  cbn zeta in Hlink.
  set (ref := {| location := {| loc_uri := uri (document st);
                                loc_range := range (id s) |};
                 ref_symbol := None; ref_context := None |}) in *.
  set (st2 := set_symbols _ _) in Hlink.
  assert (Hgrows : grows st2 st').
  { unfold st'. cbn [UCSymbol_index]. unfold bind at 1, read at 1, lift at 1.
    rewrite Hs. cbn beta iota. rewrite Hclass, decide_True by done.
    unfold bind at 1. rewrite Hlink.
    match goal with |- grows _ (?m st2).2 => assert (preserves grows m) as Hm end;
      [|apply Hm].
    step_bind.
    { step_bind; [apply UCFieldSymbol_index_grows|]. intros _.
      step_bind; [apply index_extends_grows|]. intros _.
      step_bind; [by apply preserves_read|]. intros first.
      apply preserves_index_children; [apply _|apply _|].
      apply index_symbol_grows. }
    intros _. step_bind; [by apply preserves_read|].
    intros [refs|]; [apply index_ignoreRefs_grows|by apply preserves_ret]. }
  destruct Hgrows as (Hlinks & Hidx & Hmade & Hobj).
  assert (Hsup2 : field super (symbols st2) this = Some o).
  { unfold st2, field. cbn. by rewrite !lookup_assign_eq, Hs. }
  assert (Hov2 : field overriddenState (symbols st2) this = Some o).
  { unfold st2, field. cbn. by rewrite !lookup_assign_eq, Hs. }
  destruct (Hlinks this o Hsup2) as [Hsup' Hov'].
  split; [done|]. split; [by rewrite Hov'|]. split; [|split].
  - apply Hidx. unfold st2. cbn. unfold addIndexedReference.
    rewrite getIndexedReferences_insert, decide_True by done. set_solver.
  - apply Hmade. unfold st2. cbn.
    rewrite getIndexedReferences_insert, decide_True by done. set_solver.
  - eapply lookup_weaken; [|apply Hobj]. unfold st2. cbn.
    by rewrite lookup_insert_eq.
Qed.

(** C3, as the code has it: a state with no extends clause and no [super]
    yet, in a context whose [super] is resolved, and what [findSuperSymbol]
    of that super class returns when asked for the name of the state with
    no kind filter.  If it is a state, then when [index] is done the
    state's [super] and [overriddenState] are that state, and a reference
    record for it, located at the identifier of the overriding state in
    this document, is in the global index and in the document's own map
    under the key of the overridden state.  If it is nothing, or a symbol
    that is not a state, the override step of [UCStateSymbol.index] returns
    with everything as it was: it makes no link and no reference record. *)
Theorem state_index_links_override fuel this context (st : State) s sc cs found :
  symbols st !! this = Some s → class s = UCStateSymbol →
  extendsType s = None → super s = None →
  symbols st !! context = Some sc → super sc = Some cs →
  findSuperSymbol fuel (symbols st) cs (name (id s)) None = Done found →
  let st' := (index_symbol (S fuel) this context st).2 in
  (∀ o so,
     found = Some o → symbols st !! o = Some so → class so = UCStateSymbol →
     field super (symbols st') this = Some o
     ∧ field overriddenState (symbols st') this = Some o
     ∧ ∃ r, r ∈ getIndexedReferences (getHash (symbols st) o) (IndexedReferences st')
          ∧ r ∈ getIndexedReferences (getHash (symbols st) o)
                  (indexReferencesMade (document st'))
          ∧ (r ∉ dom (referenceObjects st))
          ∧ (location <$> (referenceObjects st' !! r))
            = Some {| loc_uri := uri (document st); loc_range := range (id s) |})
  ∧ ((∀ o, found = Some o → class <$> symbols st !! o ≠ Some UCStateSymbol) →
     index_override fuel this context st = (Done tt, st)).
Proof.
  intros Hs Hclass _ Hsup Hsc Hcs Hfind st'. split.
  - intros o so -> Hso Hoclass.
    destruct (state_index_links fuel this context st s sc cs o so
                Hs Hclass Hsup Hsc Hcs Hfind Hso Hoclass)
      as (H1 & H2 & H3 & H4 & H5).
    split; [done|]. split; [done|].
    exists (fresh (dom (referenceObjects st))).
    split; [done|]. split; [done|]. split; [apply is_fresh|].
    unfold st'. by rewrite H5.
  - intros Hnot.
    by apply (index_override_not_linked fuel this context st s sc cs found).
Qed.

(** C8: the extends type never overwrites a [super] link.  Indexing a
    symbol, with all below it, leaves every [super] link that is set as it
    is; the [if (this.extendsType)] block of [UCStructSymbol.index] leaves
    the struct with the [super] it had, and with the referent of the
    indexed extends type only if it had none; and a state that was linked
    to the state it overrides is still linked to it when [index] is done,
    also when it has an extends type. *)
Theorem extends_never_overwrites_super fuel this context (st : State) :
  (∀ h sup, field super (symbols st) h = Some sup →
     field super (symbols (index_symbol fuel this context st).2) h = Some sup)
  ∧ (∀ s type type',
       symbols st !! this = Some s → extendsType s = Some type →
       (index_type fuel type (Some context) st).1 = Done type' →
       field super (symbols (index_extends fuel this context st).2) this
       = match super s with
         | Some sup => Some sup
         | None => reference type'
         end)
  ∧ (∀ s sc cs o so type,
       symbols st !! this = Some s → class s = UCStateSymbol →
       extendsType s = Some type → super s = None →
       symbols st !! context = Some sc → super sc = Some cs →
       findSuperSymbol fuel (symbols st) cs (name (id s)) None = Done (Some o) →
       symbols st !! o = Some so → class so = UCStateSymbol →
       field super (symbols (index_symbol (S fuel) this context st).2) this
       = Some o
       ∧ field overriddenState
           (symbols (index_symbol (S fuel) this context st).2) this
         = Some o).
Proof.
  split; [|split].
  - intros h sup Hh.
    by destruct (index_symbol_grows fuel this context st) as [Hl _];
      destruct (Hl h sup Hh).
  - intros s type type' Hs Hext Htype.
    pose proof (index_type_same_symbols fuel type (Some context) st) as Hsame.
    unfold same_symbols in Hsame.
    unfold UCStructSymbol_index_extends, bind at 1, read at 1, lift at 1.
    rewrite Hs. cbn beta iota. rewrite Hext. unfold bind at 1.
    destruct (index_type fuel type (Some context) st) as [res st1].
    cbn in Htype, Hsame. subst res.
    unfold bind, write, modify, read, lift. cbn.
    rewrite lookup_assign_eq, Hsame, Hs. cbn.
    destruct (super s) as [sup|] eqn:Hsup; cbn.
    + unfold field. by rewrite lookup_assign_eq, Hs; cbn.
    + unfold field. by rewrite !lookup_assign_eq, Hs; cbn.
  - intros s sc cs o so type Hs Hclass _ Hsup Hsc Hcs Hfind Hso Hoclass.
    destruct (state_index_links fuel this context st s sc cs o so
                Hs Hclass Hsup Hsc Hcs Hfind Hso Hoclass)
      as (H1 & H2 & _).
    done.
Qed.

End StructIndexing.

(** ** The graphs of the examples *)

Lemma Example_UCFieldSymbol_index_grows this context :
  preserves grows (Example.UCFieldSymbol_index this context).
Proof. apply preserves_ret, _. Qed.

(** The scenario of the specification: indexing the class [Y], which
    extends [X] and declares the state [Idle] again, resolves the extends
    type in the global table and links [Y.Idle] to [X.Idle]. *)
Example index_Y_links_Idle :
  (Example.index 10 Example.Y Example.Y
     (Example.state_of Example.built Example.document_Y)).1 = Done tt
  ∧ field super
      (symbols (Example.index 10 Example.Y Example.Y
                  (Example.state_of Example.built Example.document_Y)).2)
      Example.Y = Some Example.X
  ∧ field super
      (symbols (Example.index 10 Example.Y Example.Y
                  (Example.state_of Example.built Example.document_Y)).2)
      Example.Y_Idle = Some Example.X_Idle.
Proof. vm_compute. done. Qed.

Lemma state_index_links_override_witness :
  (let st := Example.state_of Example.linked Example.document_Y in
   let st' := (UCSymbol_index Example.getHash Example.PackagesTable_findSymbol
                 Example.SymbolsTable_findSymbol Example.isType
                 Example.UCFieldSymbol_index 6 Example.Y_Idle Example.Y st).2 in
   field super (symbols st') Example.Y_Idle = Some Example.X_Idle
   ∧ field overriddenState (symbols st') Example.Y_Idle = Some Example.X_Idle
   ∧ ∃ r, r ∈ getIndexedReferences (Example.getHash (symbols st) Example.X_Idle)
                (IndexedReferences st')
        ∧ r ∈ getIndexedReferences (Example.getHash (symbols st) Example.X_Idle)
                (indexReferencesMade (document st'))
        ∧ (r ∉ dom (referenceObjects st))
        ∧ (location <$> (referenceObjects st' !! r))
          = Some {| loc_uri := uri (document st);
                    loc_range := range (id Example.Y_Idle_symbol) |})
  ∧ UCStateSymbol_index_override Example.getHash 5 Example.Y_Idle Example.Y
      (Example.state_of Example.shadowed Example.document_Y)
    = (Done tt, Example.state_of Example.shadowed Example.document_Y).
Proof.
  split.
  - intros st.
    refine (proj1 (state_index_links_override Example.getHash
              Example.PackagesTable_findSymbol Example.SymbolsTable_findSymbol
              Example.isType Example.UCFieldSymbol_index
              Example_UCFieldSymbol_index_grows
              5 Example.Y_Idle Example.Y st
              Example.Y_Idle_symbol Example.Y_symbol Example.X
              (Some Example.X_Idle) _ _ _ _ _ _ _)
              Example.X_Idle Example.X_Idle_symbol _ _ _).
    all: vm_compute; reflexivity.
  - refine (proj2 (state_index_links_override Example.getHash
              Example.PackagesTable_findSymbol Example.SymbolsTable_findSymbol
              Example.isType Example.UCFieldSymbol_index
              Example_UCFieldSymbol_index_grows
              5 Example.Y_Idle Example.Y
              (Example.state_of Example.shadowed Example.document_Y)
              Example.Y_Idle_symbol Example.Y_shadowed_symbol Example.Mid
              (Some Example.Mid_Idle) _ _ _ _ _ _ _) _).
    1-7: vm_compute; reflexivity.
    intros o [= <-]. vm_compute. discriminate.
Defined.

(** C3, as the claim has it, fails: the class [M] between [Y] and [X]
    declares a property [Idle].  The hierarchy above [Y] has the state
    [X.Idle], yet the lookup from [M] returns the property, which is no
    state, and [Y.Idle] is left without [super], without
    [overriddenState], and without a reference record. *)
Lemma state_override_shadowed_by_property :
  field (Some ∘ class) Example.shadowed Example.Y_Idle = Some UCStateSymbol
  ∧ field extendsType Example.shadowed Example.Y_Idle = None
  ∧ field super Example.shadowed Example.Y = Some Example.Mid
  ∧ hierarchy_has_state Example.shadowed Example.Mid "Idle" Example.X_Idle
  ∧ (Example.index 10 Example.Y_Idle Example.Y
       (Example.state_of Example.shadowed Example.document_Y)).1 = Done tt
  ∧ field super
      (symbols (Example.index 10 Example.Y_Idle Example.Y
                  (Example.state_of Example.shadowed Example.document_Y)).2)
      Example.Y_Idle = None
  ∧ field overriddenState
      (symbols (Example.index 10 Example.Y_Idle Example.Y
                  (Example.state_of Example.shadowed Example.document_Y)).2)
      Example.Y_Idle = None
  ∧ IndexedReferences
      (Example.index 10 Example.Y_Idle Example.Y
         (Example.state_of Example.shadowed Example.document_Y)).2 = ∅.
Proof.
  split; [by vm_compute|]. split; [by vm_compute|]. split; [by vm_compute|].
  split; [|by vm_compute].
  exists Example.X, [Example.X_Idle], Example.X_Idle_symbol.
  split; [|split; [|split; [|split; [|split]]]].
  - eapply in_hierarchy_super; [by vm_compute|]. constructor.
  - replace (field children Example.shadowed Example.X) with (Some Example.X_Idle)
      by by vm_compute.
    constructor; [by vm_compute; eexists|].
    replace (field next Example.shadowed Example.X_Idle) with (@None handle)
      by by vm_compute.
    constructor.
  - by left.
  - by vm_compute.
  - done.
  - done.
Qed.

(** The state [Idle] of [Y], which overrides the state [Idle] of [X] and
    has the extends type [Base].  Linked to [X.Idle], it keeps that [super]
    when it is indexed and when its extends type is, although the type
    resolves to [X.Base]; not linked, and without the override step, the
    extends type gives it [X.Base] as [super]; and not linked, [index]
    links it to [X.Idle] and leaves it with that. *)
Lemma extends_never_overwrites_super_witness :
  field super
    (symbols (Example.index 5 Example.Y_Idle Example.Y
                (Example.state_of ExtendsExample.linked Example.document_Y)).2)
    Example.Y_Idle
  = Some Example.X_Idle
  ∧ field super
      (symbols (UCStructSymbol_index_extends Example.getHash
                  Example.PackagesTable_findSymbol Example.SymbolsTable_findSymbol
                  Example.isType 5 Example.Y_Idle Example.Y
                  (Example.state_of ExtendsExample.linked Example.document_Y)).2)
      Example.Y_Idle
    = Some Example.X_Idle
  ∧ field super
      (symbols (UCStructSymbol_index_extends Example.getHash
                  Example.PackagesTable_findSymbol Example.SymbolsTable_findSymbol
                  Example.isType 5 Example.Y_Idle Example.Y
                  (Example.state_of ExtendsExample.unlinked Example.document_Y)).2)
      Example.Y_Idle
    = Some ExtendsExample.X_Base
  ∧ field super
      (symbols (Example.index 6 Example.Y_Idle Example.Y
                  (Example.state_of ExtendsExample.unlinked Example.document_Y)).2)
      Example.Y_Idle
    = Some Example.X_Idle
  ∧ field overriddenState
      (symbols (Example.index 6 Example.Y_Idle Example.Y
                  (Example.state_of ExtendsExample.unlinked Example.document_Y)).2)
      Example.Y_Idle
    = Some Example.X_Idle.
Proof.
  pose proof (extends_never_overwrites_super Example.getHash
                Example.PackagesTable_findSymbol Example.SymbolsTable_findSymbol
                Example.isType Example.UCFieldSymbol_index
                Example_UCFieldSymbol_index_grows
                5 Example.Y_Idle Example.Y
                (Example.state_of ExtendsExample.linked Example.document_Y))
    as (Hkept & Hextends & _).
  pose proof (extends_never_overwrites_super Example.getHash
                Example.PackagesTable_findSymbol Example.SymbolsTable_findSymbol
                Example.isType Example.UCFieldSymbol_index
                Example_UCFieldSymbol_index_grows
                5 Example.Y_Idle Example.Y
                (Example.state_of ExtendsExample.unlinked Example.document_Y))
    as (_ & Hextends' & Hstate).
  split; [|split; [|split]].
  - refine (Hkept Example.Y_Idle Example.X_Idle _). vm_compute. reflexivity.
  - refine (Hextends ExtendsExample.Y_Idle_linked ExtendsExample.extends_Base
              ExtendsExample.indexed_Base _ _ _); vm_compute; reflexivity.
  - refine (Hextends' ExtendsExample.Y_Idle_unlinked ExtendsExample.extends_Base
              ExtendsExample.indexed_Base _ _ _); vm_compute; reflexivity.
  - refine (Hstate ExtendsExample.Y_Idle_unlinked ExtendsExample.Y_symbol Example.X
              Example.X_Idle ExtendsExample.X_Idle_symbol
              ExtendsExample.extends_Base _ _ _ _ _ _ _ _ _); vm_compute; reflexivity.
Defined.

(** In that example the extends type of the linked state is resolved, to
    [X.Base], and a reference to it recorded, while [super] stays
    [X.Idle]. *)
Example extends_type_resolved_beside_the_override :
  (Example.index 6 Example.Y_Idle Example.Y
     (Example.state_of ExtendsExample.unlinked Example.document_Y)).1 = Done tt
  ∧ field extendsType
      (symbols (Example.index 6 Example.Y_Idle Example.Y
                  (Example.state_of ExtendsExample.unlinked Example.document_Y)).2)
      Example.Y_Idle
    = Some ExtendsExample.indexed_Base.
Proof. split; vm_compute; reflexivity. Qed.

(** ** Blocks *)

Lemma bind_assoc {S A B C} (m : Method S A) (k : A → Method S B)
    (k' : B → Method S C) (s : S) :
  (let! b := (let! a := m in k a) in k' b) s
  = (let! a := m in let! b := k a in k' b) s.
Proof. unfold bind. by destruct (m s) as [[a| |] s1]. Qed.

Lemma bind_ext {S A B} (m : Method S A) (k k' : A → Method S B) (s : S) :
  (∀ a s1, k a s1 = k' a s1) → (let! a := m in k a) s = (let! a := m in k' a) s.
Proof. intros Hk. unfold bind. destruct (m s) as [[a| |] s1]; [apply Hk|done|done]. Qed.

Section Blocks.

Context {OtherFields : Type}.

Implicit Types (statements : list (option (IStatement OtherFields))).
Implicit Types (info : IContextInfo OtherFields).

(** The loop over two lists of statements in a row. *)
Lemma UCBlock_index_loop_app pass typeFlags statements1 statements2 context s :
  UCBlock_index_loop pass typeFlags (statements1 ++ statements2) context s
  = (run! UCBlock_index_loop pass typeFlags statements1 context in
     UCBlock_index_loop pass typeFlags statements2 context) s.
Proof.
  revert s. induction statements1 as [|[statement|] statements1 IH]; intros s.
  - done.
  - cbn [app UCBlock_index_loop]. rewrite bind_assoc.
    apply bind_ext. intros _ s1. rewrite bind_assoc.
    apply bind_ext. intros _ s2. apply IH.
  - apply IH.
Qed.

(** Whenever the loop returns, [info.typeFlags] is what the loop resets
    it to. *)
Lemma UCBlock_index_loop_typeFlags pass typeFlags statements context st info st' info' :
  info_typeFlags info = typeFlags →
  UCBlock_index_loop pass typeFlags statements context (st, info)
  = (Done tt, (st', info')) →
  info_typeFlags info' = typeFlags.
Proof.
  revert st info. induction statements as [|[statement|] statements IH];
    intros st info Hinfo Hrun.
  - cbn in Hrun. unfold ret in Hrun. by simplify_eq.
  - cbn [UCBlock_index_loop] in Hrun. unfold bind at 1 in Hrun.
    destruct (if pass then _ else _) as [[[]| |] [st1 info1]]; [|done|done].
    unfold bind at 1 in Hrun. cbn in Hrun.
    apply (IH st1 (set_info_typeFlags typeFlags info1)); [done|exact Hrun].
  - by eapply IH.
Qed.

(** Without an [info] object the statements are given none, and the
    block runs them one after the other. *)
Lemma UCBlock_index_without_cons (no_fields : OtherFields) statement statements
    context (st : State) :
  UCBlock_index_without no_fields (Some statement :: statements) context st
  = (run! index_without statement context in
     UCBlock_index_without no_fields statements context) st.
Proof.
  unfold UCBlock_index_without. cbn [UCBlock_index_loop info_typeFlags].
  unfold bind, without_info.
  destruct (index_without statement context st) as [[[]| |] st1]; done.
Qed.

(** C9: every statement of a block is indexed against the incoming
    [typeFlags].  Indexing a block with an [info] object is, for each of
    its statements: indexing the statements before it, which leaves
    [info.typeFlags] as the block received it; then indexing the statement
    on that object; then the reset to the incoming value; then the
    statements after it.  When the block returns, [info.typeFlags] is the
    incoming value.  A block that is given no [info] object gives its
    statements none: there is nothing they share. *)
Theorem UCBlock_index_resets_typeFlags statements context (st : State) info :
  (∀ before statement after,
     statements = before ++ Some statement :: after →
     UCBlock_index_with statements context (st, info)
     = (run! UCBlock_index_with before context in
        run! index_with statement context in
        run! reset_typeFlags (info_typeFlags info) in
        UCBlock_index_loop true (info_typeFlags info) after context) (st, info)
     ∧ ∀ st1 info1,
         UCBlock_index_with before context (st, info) = (Done tt, (st1, info1)) →
         info_typeFlags info1 = info_typeFlags info)
  ∧ (∀ st' info',
       UCBlock_index_with statements context (st, info) = (Done tt, (st', info')) →
       info_typeFlags info' = info_typeFlags info)
  ∧ (∀ (no_fields : OtherFields) statement after,
       UCBlock_index_without no_fields (Some statement :: after) context st
       = (run! index_without statement context in
          UCBlock_index_without no_fields after context) st).
Proof.
  split; [|split].
  - intros before statement after ->. split.
    + unfold UCBlock_index_with at 1. rewrite UCBlock_index_loop_app. done.
    + intros st1 info1 Hrun. by eapply UCBlock_index_loop_typeFlags.
  - intros st' info' Hrun. by eapply UCBlock_index_loop_typeFlags.
  - intros. apply UCBlock_index_without_cons.
Qed.

End Blocks.

(** ** Preparing a rename *)

(** X23: When the handler answers with a range, it is the range of the
    identifier of a field symbol that passed every check. *)
Lemma onPrepareRename_range UCTypeFlags_Error symbol r :
  onPrepareRename UCTypeFlags_Error symbol = RenameRange r →
  ∃ s, symbol = Some s
       ∧ typeFlags s ≠ UCTypeFlags_Error
       ∧ isFieldSymbol (class s) = true
       ∧ class s ≠ UCClassSymbol
       ∧ range (id s) ≠ DEFAULT_RANGE
       ∧ VALID_ID_REGEXP_test (name (id s)) = true
       ∧ r = range (id s).
Proof.
  unfold onPrepareRename. destruct symbol as [s|]; [|done].
  case_decide; [done|].
  destruct (isFieldSymbol (class s)) eqn:Hfield; [|done]. cbn [negb].
  case_decide; [done|].
  destruct (range (id s)) as [|rg] eqn:Hrange; [done|]. cbn [is_DEFAULT_RANGE].
  destruct (VALID_ID_REGEXP_test (name (id s))) eqn:Hvalid; [|done]. cbn [negb].
  intros [= <-]. exists s. repeat split; try done; by rewrite ?Hrange.
Qed.

(** C7: a rename is not prepared for a class, for an intrinsic symbol or
    for a name that is no identifier.  For a symbol that is a class
    symbol, or whose identifier has the default range, or whose name does
    not match the identifier pattern, the handler answers with a
    [ResponseError] that says so, and with no range. *)
Theorem onPrepareRename_rejects UCTypeFlags_Error (symbol : UCSymbol) :
  class symbol = UCClassSymbol
  ∨ range (id symbol) = DEFAULT_RANGE
  ∨ VALID_ID_REGEXP_test (name (id symbol)) = false →
  (∃ code msg,
     onPrepareRename UCTypeFlags_Error (Some symbol) = ResponseError code msg
     ∧ (msg = "You cannot rename a class!"
        ∨ msg = "You cannot rename this element!"))
  ∧ ∀ r, onPrepareRename UCTypeFlags_Error (Some symbol) ≠ RenameRange r.
Proof.
  intros Hcase.
  assert (Hno : ∀ r, onPrepareRename UCTypeFlags_Error (Some symbol) ≠ RenameRange r).
  { intros r Hr.
    apply onPrepareRename_range in Hr as (s & [= <-] & _ & _ & Hc & Hd & Hv & _).
    destruct Hcase as [?|[?|?]]; congruence. }
  split; [|done].
  destruct (onPrepareRename UCTypeFlags_Error (Some symbol)) as [r|code msg] eqn:Hres;
    [by destruct (Hno r)|].
  exists code, msg. split; [done|].
  unfold onPrepareRename in Hres.
  repeat (case_decide || case_match); simplify_eq; auto.
Qed.

(** ** The analyzer *)

Lemma with_reports_app found1 found2 (st : State) :
  with_reports found2 (with_reports found1 st) = with_reports (found1 ++ found2) st.
Proof. unfold with_reports. cbn. by rewrite app_assoc. Qed.

Lemma with_reports_nil (st : State) : with_reports [] st = st.
Proof.
  unfold with_reports. rewrite app_nil_r. by destruct st as [? ? ? ? [] ?].
Qed.

Section AnalyzerProperties.

Variable node_getRange : IDiagnosticNode → RangeRef.
Variable node_toString : IDiagnosticNode → string.
Variable typesReached : store → handle → list (UCObjectTypeSymbol * option handle).

Local Abbreviation analyze_document :=
  (UCDocument_analyze node_getRange node_toString typesReached).
Local Abbreviation getNodes := (UCDocument_getNodes node_getRange node_toString).

(** Analyzing a type reference returns, and only appends its reports to
    the nodes of the document. *)
Lemma UCObjectTypeSymbol_analyze_reports this context (st : State) :
  UCObjectTypeSymbol_analyze this context st
  = (Done tt, with_reports (type_reports (symbols st) this) st).
Proof.
  revert st. induction this as [i k r|i k r base IH] using UCObjectTypeSymbol_induction;
    intros st; cbn [UCObjectTypeSymbol_analyze type_reports]; unfold bind at 1.
  - cbn [ret app].
    destruct r as [symbol|]; [|done].
    destruct k as [[]|]; try (by rewrite with_reports_nil);
      unfold bind, lift, instance_of; cbn;
      case_bool_decide; by rewrite ?with_reports_nil.
  - rewrite IH.
    set (found := type_reports (symbols st) base).
    assert (Hsym : symbols (with_reports found st) = symbols st) by done.
    destruct r as [symbol|].
    + destruct k as [[]|]; try (by rewrite app_nil_r);
        unfold bind, lift, instance_of; cbn; rewrite ?Hsym;
        case_bool_decide;
        first [by rewrite app_nil_r | by rewrite <- with_reports_app].
    + by rewrite <- with_reports_app.
Qed.

Lemma analyze_types_reports types (st : State) :
  analyze_types types st
  = (Done tt,
     with_reports (concat ((fun tc => type_reports (symbols st) tc.1) <$> types)) st).
Proof.
  revert st. induction types as [|[type context] types IH]; intros st.
  - cbn. by rewrite with_reports_nil.
  - cbn [analyze_types]. unfold bind.
    rewrite UCObjectTypeSymbol_analyze_reports, IH. cbn.
    by rewrite with_reports_app.
Qed.

(** One run of the analyzer: it returns the diagnostics of the nodes the
    document had and of the reports of this run, which it has appended to
    the nodes; nothing else changes. *)
Lemma analyze_document_reports c (st : State) :
  document_class (document st) = Some c →
  let found := class_reports typesReached (symbols st) c in
  analyze_document st
  = (Done (Some (getNodes (document (with_reports found st)))),
     with_reports found st).
Proof.
  intros Hc found. unfold UCDocument_analyze, bind at 1, lift at 1.
  rewrite Hc. unfold bind at 1, UCClassSymbol_analyze, bind at 1, lift at 1.
  by rewrite analyze_types_reports.
Qed.

(** C5, as the code has it.  A run of the analyzer on a document with a
    class changes nothing but the diagnostic nodes of the document (the
    symbol objects, the record objects and the global index are as
    before), and what it reports depends on the symbol objects only; but
    it appends its reports to the nodes that are there, and returns the
    diagnostics of all of them: the second of two runs returns the
    diagnostics of the first run followed by the reports once more.  The
    two outputs are the same exactly when the analyzer has nothing to
    report.  Without a class the analyzer returns [undefined] and changes
    nothing. *)
Theorem analyze_twice (st : State) :
  (document_class (document st) = None → analyze_document st = (Done None, st))
  ∧ ∀ c, document_class (document st) = Some c →
      let found := class_reports typesReached (symbols st) c in
      let first := analyze_document st in
      let second := analyze_document first.2 in
      first.1 = Done (Some (getNodes (document (with_reports found st))))
      ∧ second.1
        = Done (Some (getNodes (document (with_reports (found ++ found) st))))
      ∧ first.2 = with_reports found st
      ∧ second.2 = with_reports (found ++ found) st
      ∧ symbols second.2 = symbols st
      ∧ referenceObjects second.2 = referenceObjects st
      ∧ IndexedReferences second.2 = IndexedReferences st
      ∧ indexReferencesMade (document second.2) = indexReferencesMade (document st)
      ∧ (second.1 = first.1 ↔ found = []).
Proof.
  split.
  { intros Hnone. unfold UCDocument_analyze, bind, lift. by rewrite Hnone. }
  intros c Hc found first second.
  assert (Hfirst : first = (Done (Some (getNodes (document (with_reports found st)))),
                            with_reports found st))
    by by apply analyze_document_reports.
  assert (Hsecond : second
    = (Done (Some (getNodes (document (with_reports (found ++ found) st)))),
       with_reports (found ++ found) st)).
  { unfold second. rewrite Hfirst. cbn [snd].
    rewrite (analyze_document_reports c) by done.
    cbn zeta. change (symbols (with_reports found st)) with (symbols st).
    fold found. by rewrite with_reports_app. }
  rewrite Hfirst, Hsecond. cbn [fst snd]. do 8 (split; [done|]).
  split.
  - intros [= Heq]. unfold UCDocument_getNodes in Heq.
    apply (f_equal length) in Heq. cbn in Heq.
    rewrite !length_fmap, !length_app in Heq.
    destruct found; [done|]. cbn in Heq. lia.
  - intros ->. by rewrite app_nil_r.
Qed.

End AnalyzerProperties.

(** C5, as the claim has it, fails: the class [Y extends X] with [X]
    unresolved.  The first run returns one diagnostic, the second run on
    the unchanged document returns it twice. *)
Lemma analyze_twice_differs :
  (∃ d, (AnalyzerExample.analyze AnalyzerExample.unresolved).1 = Done (Some [d])
        ∧ (AnalyzerExample.analyze
             (AnalyzerExample.analyze AnalyzerExample.unresolved).2).1
          = Done (Some [d; d]))
  ∧ (AnalyzerExample.analyze
       (AnalyzerExample.analyze AnalyzerExample.unresolved).2).1
    ≠ (AnalyzerExample.analyze AnalyzerExample.unresolved).1.
Proof.
  split.
  - eexists. split; vm_compute; reflexivity.
  - vm_compute. discriminate.
Qed.

(** ** The structural builder: enum declarations *)

Lemma fresh_handle_ne (σ : store) x : is_Some (σ !! x) → fresh (dom σ) ≠ x.
Proof.
  intros Hx Heq. apply elem_of_dom in Hx. rewrite <- Heq in Hx.
  by apply (is_fresh (dom σ)).
Qed.

Section BuilderProperties.

Variable getTypeFlags : SymbolClass → Z.
Variable UCPackage_addSymbol : handle → handle → store → store.

Local Abbreviation members_loop :=
  (enterEnumDecl_members getTypeFlags UCPackage_addSymbol).

Lemma member_declared_lookup_new e start text count (σ : store) :
  is_Some (σ !! e) →
  ∃ s, member_declared getTypeFlags e start text count σ !! fresh (dom σ) = Some s
       ∧ class s = UCEnumMemberSymbol ∧ name (id s) = text
       ∧ value s = Some count ∧ outer s = Some e.
Proof.
  intros He. set (h := fresh (dom σ)).
  assert (h ≠ e) as Hne by by apply fresh_handle_ne.
  unfold member_declared. fold h. unfold addSymbol.
  rewrite !lookup_assign_eq, lookup_assign_ne, !lookup_assign_eq, lookup_insert_eq
    by done.
  eexists. split; [done|]. by cbn.
Qed.

Lemma member_declared_lookup_old e start text count (σ : store) x :
  is_Some (σ !! x) → x ≠ e →
  member_declared getTypeFlags e start text count σ !! x = σ !! x.
Proof.
  intros Hx Hne. set (h := fresh (dom σ)).
  assert (h ≠ x) as Hne' by by apply fresh_handle_ne.
  unfold member_declared. fold h. rewrite !lookup_assign_ne by done.
  rewrite lookup_addSymbol_ne by done. by rewrite lookup_insert_ne.
Qed.

Lemma member_declared_is_Some e start text count (σ : store) x :
  is_Some (σ !! x) → is_Some (member_declared getTypeFlags e start text count σ !! x).
Proof.
  intros Hx. unfold member_declared. rewrite !is_Some_assign, is_Some_addSymbol.
  rewrite lookup_insert. by case_decide.
Qed.

(** The new member is the head of the enum's children chain. *)
Lemma member_declared_chain e start text count (σ : store) l :
  is_Some (σ !! e) → chain σ (field children σ e) l →
  chain (member_declared getTypeFlags e start text count σ)
        (field children (member_declared getTypeFlags e start text count σ) e)
        (fresh (dom σ) :: l).
Proof.
  intros He Hch. set (h := fresh (dom σ)).
  assert (h ≠ e) as Hne by by apply fresh_handle_ne.
  assert (Hnin : h ∉ l).
  { intros Hin. apply (chain_all_Some _ _ _ _ Hch) in Hin.
    by apply (fresh_handle_ne _ _ Hin). }
  set (σ1 := <[h := UCSymbol_new UCEnumMemberSymbol
                      {| name := text; range := TokenRange start |}
                      (getTypeFlags UCEnumMemberSymbol)]> σ).
  assert (Hch1 : chain (addSymbol e h σ1) (field children (addSymbol e h σ1) e) (h :: l)).
  { apply addSymbol_chain; [| |  |done].
    - unfold σ1. by rewrite lookup_insert_ne.
    - unfold σ1. by rewrite lookup_insert_eq.
    - assert (field children σ1 e = field children σ e) as ->.
      { unfold field, σ1. by rewrite lookup_insert_ne. }
      eapply chain_frame; [|done]. intros c Hin Hc.
      assert (h ≠ c) by by apply fresh_handle_ne.
      unfold field, σ1. by rewrite lookup_insert_ne. }
  unfold member_declared. fold h σ1.
  rewrite !(field_assign_frame children) by done.
  eapply chain_frame; [|done]. intros c Hin Hc.
  rewrite !is_Some_assign. split; [done|].
  by rewrite !(field_assign_frame next).
Qed.

(** One turn of the loop. *)
Lemma members_loop_cons e start text members count (st : State) stack :
  context (document st) = Some (stack ++ [e]) → is_Some (symbols st !! e) →
  members_loop e ({| member_start := start; member_identifier := Some text |} :: members)
    count st
  = members_loop e members (count + 1)
      (set_EnumMemberMap (<[text := fresh (dom (symbols st))]> (EnumMemberMap st))
         (set_symbols (member_declared getTypeFlags e start text count (symbols st)) st)).
Proof.
  intros Hctx He.
  destruct (member_declared_lookup_new e start text count (symbols st) He)
    as (s & Hs & _ & Hname & _).
  cbn [enterEnumDecl_members member_identifier member_start].
  unfold bind at 1, new at 1. unfold bind at 1, UCDocument_declare at 1.
  cbn [document set_symbols]. rewrite Hctx, last_snoc.
  unfold bind at 1, write at 1, modify at 1.
  unfold bind at 1, write at 1, modify at 1.
  unfold bind at 1, setEnumMember at 1, bind at 1, read at 1, lift at 1.
  cbn [symbols set_symbols]. fold (member_declared getTypeFlags e start text count (symbols st)).
  rewrite Hs. unfold modify at 1. cbn [EnumMemberMap set_symbols]. by rewrite Hname.
Qed.

(** The loop numbers the members in the order of their declaration: it
    returns; the enum's children chain is the chain it had with the new
    members in front, last declared first; every member has the name of its
    node, the enum as [outer], and as value the count the loop started with
    plus its position; and no other symbol but the enum is touched. *)
Lemma members_loop_numbers e members :
  Forall (fun m => is_Some (member_identifier m)) members →
  ∀ count (st : State) stack l,
    context (document st) = Some (stack ++ [e]) → is_Some (symbols st !! e) →
    chain (symbols st) (field children (symbols st) e) l →
    ∃ st' hs,
      members_loop e members count st = (Done tt, st')
      ∧ length hs = length members
      ∧ chain (symbols st') (field children (symbols st') e) (rev hs ++ l)
      ∧ (∀ x, is_Some (symbols st !! x) → x ≠ e →
              symbols st' !! x = symbols st !! x)
      ∧ (∀ (k : nat) m h,
           members !! k = Some m → hs !! k = Some h →
           ∃ s, symbols st' !! h = Some s
                ∧ class s = UCEnumMemberSymbol
                ∧ Some (name (id s)) = member_identifier m
                ∧ value s = Some (count + Z.of_nat k)%Z
                ∧ outer s = Some e).
Proof.
  induction 1 as [|m members Hid Hall IH]; intros count st stack l Hctx He Hch.
  { exists st, []. repeat split; try done. }
  destruct m as [start [text|]]; [|by destruct Hid].
  rewrite (members_loop_cons e start text members count st stack) by done.
  destruct (member_declared_lookup_new e start text count (symbols st) He)
    as (s0 & Hs0 & Hclass0 & Hname0 & Hvalue0 & Houter0).
  pose proof (member_declared_chain e start text count (symbols st) l He Hch) as Hch1.
  pose proof (fresh_handle_ne (symbols st) e He) as Hne.
  pose proof (member_declared_lookup_old e start text count (symbols st)) as Hold1.
  pose proof (member_declared_is_Some e start text count (symbols st)) as Hsome1.
  set (h := fresh (dom (symbols st))) in *.
  set (σ1 := member_declared getTypeFlags e start text count (symbols st)) in *.
  set (st1 := set_EnumMemberMap _ _).
  destruct (IH (count + 1)%Z st1 stack (h :: l))
    as (st' & hs & Hrun & Hlen & Hch' & Hold & Hnum); [done|by apply Hsome1|done|].
  exists st', (h :: hs). split; [done|]. split; [by cbn; rewrite Hlen|].
  split; [by cbn; rewrite <- app_assoc|]. split.
  { intros x Hx Hxe. rewrite Hold; [|by apply Hsome1|done]. by apply Hold1. }
  intros [|k] m h' Hm Hh; simplify_eq/=.
  - exists s0. rewrite Hold; [|by cbn; rewrite Hs0|done].
    split; [done|]. split; [done|]. split; [done|].
    split; [by rewrite Z.add_0_r|done].
  - destruct (Hnum k m h' Hm Hh) as (s & Hs & Hclass & Hname & Hvalue & Houter).
    exists s. repeat split; try done. rewrite Hvalue. f_equal. lia.
Qed.

(** X16: [enterEnumDecl] inside a struct, for a declaration all of whose
    members have an identifier: it returns the new enum symbol, whose
    children are the declared members and nothing else, last declared
    first, the member at position [k] of the declaration with the value
    [k]. *)
Lemma enterEnumDecl_numbers_members ctx text idRange (st : State) stack top :
  decl_identifier ctx = Some (text, idRange) →
  context (document st) = Some (stack ++ [top]) → is_Some (symbols st !! top) →
  Forall (fun m => is_Some (member_identifier m)) (enumMember ctx) →
  ∃ st' hs,
    enterEnumDecl getTypeFlags UCPackage_addSymbol ctx st
    = (Done (Some (fresh (dom (symbols st)))), st')
    ∧ length hs = length (enumMember ctx)
    ∧ chain (symbols st')
            (field children (symbols st') (fresh (dom (symbols st)))) (rev hs)
    ∧ (∀ (k : nat) m h,
         enumMember ctx !! k = Some m → hs !! k = Some h →
         ∃ s, symbols st' !! h = Some s
              ∧ class s = UCEnumMemberSymbol
              ∧ Some (name (id s)) = member_identifier m
              ∧ value s = Some (Z.of_nat k)
              ∧ outer s = Some (fresh (dom (symbols st)))).
Proof.
  intros Hid Hctx Htop Hall.
  pose proof (fresh_handle_ne (symbols st) top Htop) as Hne.
  set (e := fresh (dom (symbols st))) in *.
  set (enum := UCSymbol_new UCEnumSymbol {| name := text; range := TokenRange idRange |}
                 (getTypeFlags UCEnumSymbol)).
  set (σ2 := addSymbol top e (<[e := enum]> (symbols st))).
  set (st2 := set_document (set_context (Some ((stack ++ [top]) ++ [e])) (document st))
                (set_symbols σ2 st)).
  assert (He2 : ∃ s, σ2 !! e = Some s ∧ children s = None).
  { unfold σ2, addSymbol. rewrite lookup_assign_ne by done.
    rewrite !lookup_assign_eq, lookup_insert_eq. by eexists. }
  destruct He2 as (s2 & Hs2 & Hchildren).
  destruct (members_loop_numbers e (enumMember ctx) Hall 0%Z st2 (stack ++ [top]) [])
    as (st' & hs & Hrun & Hlen & Hch & _ & Hnum).
  { done. }
  { cbn. by rewrite Hs2. }
  { cbn. rewrite (field_Some _ _ _ _ Hs2), Hchildren. constructor. }
  exists st', hs.
  split; [|split; [done|split; [by rewrite app_nil_r in Hch|]]].
  - unfold enterEnumDecl. rewrite Hid.
    unfold bind at 1, new at 1. fold e enum.
    unfold bind at 1, UCDocument_declare at 1. cbn [document set_symbols].
    rewrite Hctx, last_snoc. cbn [symbols set_symbols]. fold σ2.
    unfold bind at 1, UCDocument_push at 1. cbn [document set_symbols]. rewrite Hctx.
    unfold bind at 1.
    match goal with
    | |- context [members_loop e (enumMember ctx) 0 ?s] => change s with st2
    end.
    by rewrite Hrun.
  - intros k m h Hm Hh. destruct (Hnum k m h Hm Hh) as (s & Hs & ? & ? & Hv & ?).
    exists s. by rewrite Z.add_0_l in Hv.
Qed.

End BuilderProperties.

(** C2 on the declaration [enum E { A, B, C }] in a class: the builder
    returns the enum symbol, its members have the values [A = 0], [B = 1]
    and [C = 2], the enum has three children, and no child with the name
    [EnumCount], which the test suite looks up and expects to have the
    number of members as its value. *)
Theorem enum_E_has_no_EnumCount :
  EnumExample.declared.1 = Done (Some 5%positive)
  ∧ EnumExample.member_value EnumExample.declared.2 5%positive "A" = Done (Some 0%Z)
  ∧ EnumExample.member_value EnumExample.declared.2 5%positive "B" = Done (Some 1%Z)
  ∧ EnumExample.member_value EnumExample.declared.2 5%positive "C" = Done (Some 2%Z)
  ∧ childrenCount 10 (symbols EnumExample.declared.2) 5%positive = Done 3%Z
  ∧ getSymbol 10 (symbols EnumExample.declared.2) 5%positive NAME_ENUMCOUNT None
    = Done None.
Proof. vm_compute. done. Qed.

(** ** More examples *)

Lemma Example_shadowed_chain_Y :
  chain Example.shadowed (field children Example.shadowed Example.Y) [Example.Y_Idle].
Proof.
  replace (field children Example.shadowed Example.Y) with (Some Example.Y_Idle)
    by by vm_compute.
  constructor; [by vm_compute; eexists|].
  replace (field next Example.shadowed Example.Y_Idle) with (@None handle)
    by by vm_compute.
  constructor.
Qed.

Lemma findSuperSymbol_own_child_first_witness :
  ∃ c', first_named Example.shadowed [Example.Y_Idle] "Idle" None = Some c'
        ∧ c' ∈ [Example.Y_Idle]
        ∧ field (Some ∘ name ∘ id) Example.shadowed c' = Some "Idle"
        ∧ ∀ fuel, (length [Example.Y_Idle] < fuel)%nat →
            findSuperSymbol fuel Example.shadowed Example.Y "Idle" None
            = Done (Some c').
Proof.
  refine (findSuperSymbol_own_child_first Example.shadowed Example.Y
            [Example.Y_Idle] "Idle" None Example.Y_Idle Example.Y_Idle_symbol
            _ Example_shadowed_chain_Y _ _ _ _).
  - vm_compute. by eexists.
  - by left.
  - vm_compute. reflexivity.
  - reflexivity.
  - reflexivity.
Defined.

(** C6, as the claim has it, fails: a child that the kind filter of the call
    rejects shadows nothing.  The class [Y] has the child [Idle], a state,
    and inherits the property [Idle] of the class [M] through its [super];
    asked for the name with the flags of a property as filter,
    [findSuperSymbol] on [Y] passes over the child of [Y] and returns the
    inherited property. *)
Lemma own_child_passed_over_by_kind_filter :
  chain Example.shadowed (field children Example.shadowed Example.Y) [Example.Y_Idle]
  ∧ field (Some ∘ name ∘ id) Example.shadowed Example.Y_Idle = Some "Idle"
  ∧ field super Example.shadowed Example.Y = Some Example.Mid
  ∧ chain Example.shadowed (field children Example.shadowed Example.Mid)
          [Example.Mid_Idle]
  ∧ field (Some ∘ name ∘ id) Example.shadowed Example.Mid_Idle = Some "Idle"
  ∧ findSuperSymbol 6 Example.shadowed Example.Y "Idle" (Some 4%Z)
    = Done (Some Example.Mid_Idle)
  ∧ Example.Mid_Idle ∉ [Example.Y_Idle].
Proof.
  split; [apply Example_shadowed_chain_Y|].
  split; [by vm_compute|]. split; [by vm_compute|]. split.
  { replace (field children Example.shadowed Example.Mid) with (Some Example.Mid_Idle)
      by by vm_compute.
    constructor; [by vm_compute; eexists|].
    replace (field next Example.shadowed Example.Mid_Idle) with (@None handle)
      by by vm_compute.
    constructor. }
  split; [by vm_compute|]. split; [by vm_compute|].
  by intros [=]%list_elem_of_singleton.
Qed.

Lemma Example_with_Health_chain_Y :
  chain Example.with_Health (field children Example.with_Health Example.Y)
        [Example.Y_Idle].
Proof.
  replace (field children Example.with_Health Example.Y) with (Some Example.Y_Idle)
    by by vm_compute.
  constructor; [by vm_compute; eexists|].
  replace (field next Example.with_Health Example.Y_Idle) with (@None handle)
    by by vm_compute.
  constructor.
Qed.

Lemma Example_Health_not_declared : Example.Health ∉ [Example.Y_Idle].
Proof. by intros [=]%list_elem_of_singleton. Qed.


Lemma onPrepareRename_rejects_witness :
  (∃ code msg,
     onPrepareRename 0 (Some Example.plus_operator) = ResponseError code msg
     ∧ (msg = "You cannot rename a class!"
        ∨ msg = "You cannot rename this element!"))
  ∧ ∀ r, onPrepareRename 0 (Some Example.plus_operator) ≠ RenameRange r.
Proof.
  refine (onPrepareRename_rejects 0 Example.plus_operator _).
  right. right. reflexivity.
Defined.

(** A property is renamed at its identifier. *)
Example onPrepareRename_property :
  onPrepareRename 0 (Some (UCSymbol_new UCPropertySymbol (at_line "Health" 3) 4))
  = RenameRange (range (at_line "Health" 3)).
Proof. reflexivity. Qed.

(** In a block, the statement after one that leaves a hint is given
    none. *)
Example UCBlock_second_statement_sees_no_hint :
  lookups
    (UCBlock_index_with [Some BlockExample.hints; Some BlockExample.notes]
       Example.Y
       (Example.state_of Example.built Example.document_Y, BlockExample.no_hint)).2.1
  = [InContext Example.Y "no hint"].
Proof. reflexivity. Qed.

(** * Further properties *)

(** ** More of the children chain *)

Lemma chain_linked (σ : store) p l : chain σ p l ↔ linked next σ p l.
Proof.
  split.
  - induction 1 as [|c l [s Hs] Hch IH]; [constructor|].
    econstructor; [done|]. by rewrite (field_Some _ _ _ _ Hs) in IH.
  - induction 1 as [|c s l Hs Hch IH]; [constructor|].
    constructor; [done|]. by rewrite (field_Some _ _ _ _ Hs).
Qed.

Lemma linked_det link (σ : store) p l1 l2 :
  linked link σ p l1 → linked link σ p l2 → l1 = l2.
Proof.
  intros H1. revert l2. induction H1; intros l2 H2; inversion H2; simplify_eq; [done|].
  f_equal. by apply IHlinked.
Qed.

Lemma linked_suffix link (σ : store) p l c l1 l2 :
  linked link σ p l → l = l1 ++ c :: l2 → linked link σ (Some c) (c :: l2).
Proof.
  intros H. revert l1. induction H as [|c' s l Hs Hl IH]; intros l1 Heq.
  - by destruct l1.
  - destruct l1 as [|a l1]; simplify_eq/=.
    + by econstructor.
    + by eapply IH.
Qed.

(** A walk that ends never visits an object twice. *)
Lemma linked_head_fresh link (σ : store) c l :
  linked link σ (Some c) (c :: l) → c ∉ l.
Proof.
  intros H Hin. apply list_elem_of_split in Hin as (l1 & l2 & ->).
  pose proof (linked_suffix _ _ _ _ c (c :: l1) l2 H eq_refl) as H'.
  pose proof (linked_det _ _ _ _ _ H H') as Heq.
  apply (f_equal length) in Heq. simpl in Heq. rewrite length_app in Heq.
  simpl in Heq. lia.
Qed.

Lemma chain_head (σ : store) p c l : chain σ p (c :: l) → p = Some c.
Proof. by inversion 1. Qed.

Lemma chain_tail (σ : store) p c l :
  chain σ p (c :: l) → chain σ (field next σ c) l.
Proof. by inversion 1. Qed.

(** A chain spliced behind a prefix that is left alone. *)
Lemma chain_splice (σ σ' : store) p l1 x l2 l2' :
  chain σ p (l1 ++ x :: l2) →
  (∀ a, a ∈ l1 → is_Some (σ' !! a) ∧ field next σ' a = field next σ a) →
  chain σ' (Some x) (x :: l2') →
  chain σ' p (l1 ++ x :: l2').
Proof.
  revert p. induction l1 as [|a l1 IH]; intros p Hch Hfr Hx.
  - by rewrite (chain_head _ _ _ _ Hch).
  - cbn in Hch. rewrite (chain_head _ _ _ _ Hch). apply chain_tail in Hch.
    destruct (Hfr a) as [Ha Hn]; [by left|].
    cbn. constructor; [done|]. rewrite Hn. apply IH; [done| |done].
    intros b Hb. apply Hfr. by right.
Qed.

(** X1: [getSymbol] is [findSymbolPredicate] with the test on the name and the
    kind as the predicate, whatever the call does. *)
Theorem getSymbol_is_findSymbolPredicate
    (fuel : nat) (σ : store) (this : handle) (i : Name) (kind : option Z) :
  getSymbol fuel σ this i kind = findSymbolPredicate fuel σ this (named σ i kind).
Proof.
  unfold getSymbol, findSymbolPredicate. destruct (σ !! this) as [s|]; [|done].
  generalize (children s) as child.
  induction fuel as [|fuel IH]; intros [c|]; try done.
  cbn. unfold named at 1. destruct (σ !! c) as [sc|]; [|done].
  destruct (bool_decide (name (id sc) = i) && kind_accepts kind sc); [done|].
  apply IH.
Qed.

Lemma findSuperStruct_loop_linked (σ : store) p l i fuel :
  linked super σ p l → (length l ≤ fuel)%nat →
  findSuperStruct_loop fuel σ p i = Done (first_named σ l i None).
Proof.
  intros H. revert fuel. induction H as [|c s l Hs Hl IH]; intros fuel Hf.
  - by destruct fuel.
  - destruct fuel as [|fuel]; simpl in *; [lia|].
    rewrite Hs. cbn. rewrite andb_true_r.
    destruct (bool_decide (name (id s) = i)); [done|]. apply IH. lia.
Qed.

(** X2: [findSuperStruct] looks above the context only: with the structs [l]
    above [context] in the [super] chain, it returns the nearest of them
    that has the name, and never [context] itself, whatever its name. *)
Theorem findSuperStruct_strictly_above
    (σ : store) (context : handle) (l : list handle) (i : Name) (fuel : nat) :
  linked super σ (Some context) (context :: l) → (length l ≤ fuel)%nat →
  findSuperStruct fuel σ context i = Done (first_named σ l i None)
  ∧ first_named σ l i None ≠ Some context.
Proof.
  intros Hl Hf. pose proof (linked_head_fresh _ _ _ _ Hl) as Hnin.
  inversion Hl as [|c s l' Hs Hl']; subst. split.
  - unfold findSuperStruct. rewrite (field_Some _ _ _ _ Hs).
    by apply findSuperStruct_loop_linked.
  - intros Hfound. by apply first_named_elem_of in Hfound as [Hin _].
Qed.

Lemma childrenCount_loop_chain (σ : store) p l acc fuel :
  chain σ p l → (length l ≤ fuel)%nat →
  childrenCount_loop fuel σ p acc = Done (acc + Z.of_nat (length l))%Z.
Proof.
  intros H. revert fuel acc. induction H as [|c l [s Hs] Hch IH]; intros fuel acc Hf.
  - destruct fuel; cbn; f_equal; lia.
  - destruct fuel as [|fuel]; simpl in *; [lia|].
    rewrite Hs. rewrite (field_Some _ _ _ _ Hs) in IH.
    rewrite IH by lia. f_equal. lia.
Qed.

(** X3: [childrenCount] counts the children chain, and [addSymbol] of a symbol
    that is not on the chain makes it one more. *)
Theorem childrenCount_addSymbol
    (σ : store) (this symbol : handle) (l : list handle) (fuel : nat) :
  is_Some (σ !! this) → is_Some (σ !! symbol) →
  chain σ (field children σ this) l → symbol ∉ l → (length l ≤ fuel)%nat →
  childrenCount fuel σ this = Done (Z.of_nat (length l))
  ∧ childrenCount (S fuel) (addSymbol this symbol σ) this
    = Done (Z.of_nat (length l) + 1)%Z.
Proof.
  intros Hthis Hsym Hch Hnin Hf. split.
  - unfold childrenCount. by rewrite (childrenCount_loop_chain _ _ l).
  - unfold childrenCount.
    rewrite (childrenCount_loop_chain _ _ (symbol :: l));
      [f_equal; cbn; lia|by apply addSymbol_chain|cbn; lia].
Qed.

Lemma removeSymbol_loop_absent (σ : store) p l symbol fuel :
  chain σ p l → symbol ∉ l → (length l ≤ fuel)%nat →
  removeSymbol_loop fuel symbol p σ = Done σ.
Proof.
  intros H. revert fuel. induction H as [|c l [s Hs] Hch IH]; intros fuel Hnin Hf.
  - by destruct fuel.
  - destruct fuel as [|fuel]; simpl in *; [lia|].
    rewrite Hs. rewrite (field_Some _ _ _ _ Hs) in Hch, IH.
    apply not_elem_of_cons in Hnin as [Hne Hnin].
    destruct (decide (next s = Some symbol)) as [Heq|_].
    + rewrite Heq in Hch. inversion Hch; subst. by destruct Hnin; left.
    + apply IH; [done|lia].
Qed.

(** X4: [removeSymbol] of a symbol that is not a child: the loop runs to the
    end of the chain and nothing is assigned. *)
Theorem removeSymbol_not_a_child
    (σ : store) (this symbol : handle) (l : list handle) (fuel : nat) :
  chain σ (field children σ this) l → symbol ∉ l → (length l ≤ fuel)%nat →
  removeSymbol fuel this symbol σ = Done σ.
Proof.
  intros Hch Hnin Hf. unfold removeSymbol.
  destruct (decide (field children σ this = Some symbol)) as [Heq|_].
  - rewrite Heq in Hch. inversion Hch; subst. by destruct Hnin; left.
  - by apply (removeSymbol_loop_absent _ _ l).
Qed.

Lemma removeSymbol_loop_inner (σ : store) p l1 c symbol l2 fuel :
  chain σ p (l1 ++ c :: symbol :: l2) → (length l1 < fuel)%nat →
  removeSymbol_loop fuel symbol p σ
  = Done (assign (set_next (field next σ symbol)) c σ).
Proof.
  revert p fuel. induction l1 as [|a l1 IH]; intros p fuel Hch Hf.
  - destruct fuel as [|fuel]; [lia|]. cbn in Hch.
    rewrite (chain_head _ _ _ _ Hch). pose proof (chain_all_Some _ _ _ c Hch) as [s Hs];
      [by left|].
    apply chain_tail in Hch. apply chain_head in Hch.
    rewrite (field_Some _ _ _ _ Hs) in Hch. cbn. rewrite Hs.
    by rewrite decide_True.
  - destruct fuel as [|fuel]; [lia|].
    pose proof (chain_NoDup _ _ _ Hch) as Hnd.
    cbn in Hch. rewrite (chain_head _ _ _ _ Hch).
    pose proof (chain_all_Some _ _ _ a Hch) as [s Hs]; [by left|].
    apply chain_tail in Hch. rewrite (field_Some _ _ _ _ Hs) in Hch.
    cbn. rewrite Hs. rewrite decide_False.
    + apply IH; [done|cbn in Hf; lia].
    + intros Heq. rewrite Heq in Hch.
      cbn in Hnd. apply NoDup_cons in Hnd as [_ Hnd].
      destruct l1 as [|b l1]; cbn in *.
      * apply chain_head in Hch. simplify_eq.
        apply NoDup_cons in Hnd as [Hc _]. apply Hc. by left.
      * apply chain_head in Hch. simplify_eq.
        apply NoDup_cons in Hnd as [Hb _]. apply Hb.
        apply elem_of_app. right. right. by left.
Qed.

(** X5: [removeSymbol] of a child that is not the first: the child before it
    is linked to the child after it, and that is the only assignment.  The
    [next] of the removed symbol is not cleared (it is when the symbol is
    the first child), so the symbol still leads into the chain. *)
Theorem removeSymbol_inner_child_keeps_next
    (σ : store) (this c symbol : handle) (l1 l2 : list handle) (fuel : nat) :
  chain σ (field children σ this) (l1 ++ c :: symbol :: l2) →
  (length l1 < fuel)%nat →
  let σ' := assign (set_next (field next σ symbol)) c σ in
  removeSymbol fuel this symbol σ = Done σ'
  ∧ chain σ' (field children σ' this) (l1 ++ c :: l2)
  ∧ field next σ' symbol = field next σ symbol
  ∧ chain σ' (Some symbol) (symbol :: l2).
Proof.
  intros Hch Hf σ'.
  pose proof (chain_NoDup _ _ _ Hch) as Hnd.
  assert (Hc_sym : c ≠ symbol).
  { intros ->. apply NoDup_app in Hnd as (_ & _ & Hnd).
    apply NoDup_cons in Hnd as [Hc _]. apply Hc. by left. }
  assert (Hl1 : ∀ a, a ∈ l1 → a ≠ c ∧ a ≠ symbol).
  { intros a Ha. apply NoDup_app in Hnd as (_ & Hdis & _).
    split; intros ->; apply (Hdis _ Ha); [by left|by right; left]. }
  assert (Hl2 : ∀ a, a ∈ l2 → a ≠ c ∧ a ≠ symbol).
  { intros a Ha. apply NoDup_app in Hnd as (_ & _ & Hnd).
    apply NoDup_cons in Hnd as [Hc Hnd]. apply NoDup_cons in Hnd as [Hs _].
    split; intros ->; [apply Hc; by right|by apply Hs]. }
  pose proof (chain_suffix _ _ _ c l1 (symbol :: l2) Hch eq_refl) as Hc.
  pose proof (chain_suffix _ _ _ symbol (l1 ++ [c]) l2 Hch) as Hsym.
  rewrite <- app_assoc in Hsym. specialize (Hsym eq_refl).
  assert (Hkeep : ∀ a, a ≠ c → σ' !! a = σ !! a).
  { intros a Ha. unfold σ'. by rewrite lookup_assign_ne. }
  assert (Hchildren : field children σ' this = field children σ this).
  { unfold σ'. by rewrite (field_assign_frame children). }
  assert (Hsym' : chain σ' (Some symbol) (symbol :: l2)).
  { eapply chain_frame; [|exact Hsym]. intros a Ha Hsome.
    assert (a ≠ c) as Hne.
    { apply elem_of_cons in Ha as [->|Ha]; [done|by apply Hl2]. }
    unfold field. rewrite (Hkeep a Hne). done. }
  split; [|split; [|split]].
  - unfold removeSymbol. rewrite decide_False.
    + by apply (removeSymbol_loop_inner _ _ l1 c symbol l2).
    + intros Heq. rewrite Heq in Hch.
      destruct l1 as [|b l1]; cbn in Hch; apply chain_head in Hch;
        injection Hch as Hb; [by symmetry in Hb|].
      destruct (Hl1 b) as [_ Hne]; [by left|]. by symmetry in Hb.
  - rewrite Hchildren. eapply chain_splice; [exact Hch| |].
    + intros a Ha. destruct (Hl1 a Ha) as [Hne _].
      unfold field. rewrite (Hkeep a Hne). split; [|done].
      eapply chain_all_Some; [exact Hch|]. apply elem_of_app. by left.
    + constructor.
      * unfold σ'. rewrite is_Some_assign. eapply chain_all_Some; [exact Hc|by left].
      * assert (field next σ' c = field next σ symbol) as ->.
        { unfold σ', field at 1. rewrite lookup_assign_eq.
          destruct (chain_all_Some _ _ _ c Hc) as [s ->]; [by left|done]. }
        apply chain_tail in Hsym.
        eapply chain_frame; [|exact Hsym]. intros a Ha Hsome.
        destruct (Hl2 a Ha) as [Hne _].
        unfold field. by rewrite (Hkeep a Hne).
  - unfold field. by rewrite Hkeep.
  - done.
Qed.

Lemma getSymbol_loop_self (σ : store) x sx i kind fuel :
  σ !! x = Some sx → next sx = Some x → name (id sx) ≠ i →
  getSymbol_loop fuel σ (Some x) i kind = OutOfFuel.
Proof.
  intros Hx Hn Hi. induction fuel as [|fuel IH]; [done|].
  cbn. rewrite Hx, bool_decide_eq_false_2 by done. cbn. by rewrite Hn.
Qed.

Lemma childrenCount_loop_self (σ : store) x sx acc fuel :
  σ !! x = Some sx → next sx = Some x →
  childrenCount_loop fuel σ (Some x) acc = OutOfFuel.
Proof.
  intros Hx Hn. revert acc. induction fuel as [|fuel IH]; intros acc; [done|].
  cbn. rewrite Hx, Hn. apply IH.
Qed.

(** X6: Adding the same symbol twice in a row makes the chain a cycle: the
    symbol is its own [next], and neither a lookup of a name that the
    symbol does not have nor a count of the children returns. *)
Theorem addSymbol_twice_is_a_cycle
    (σ : store) (this symbol : handle) (s : UCSymbol) (i : Name) (kind : option Z)
    (fuel : nat) :
  is_Some (σ !! this) → σ !! symbol = Some s → name (id s) ≠ i →
  let σ2 := addSymbol this symbol (addSymbol this symbol σ) in
  field next σ2 symbol = Some symbol
  ∧ getSymbol fuel σ2 this i kind = OutOfFuel
  ∧ childrenCount fuel σ2 this = OutOfFuel.
Proof.
  intros Hthis Hs Hi σ2.
  set (σ1 := addSymbol this symbol σ).
  assert (Hthis1 : is_Some (σ1 !! this)) by by apply is_Some_addSymbol.
  assert (Hs1 : is_Some (σ1 !! symbol)) by by apply is_Some_addSymbol.
  assert (Hnext : field next σ2 symbol = Some symbol).
  { unfold σ2. fold σ1. rewrite addSymbol_next_new by done.
    by apply addSymbol_children. }
  assert (Hchildren : field children σ2 this = Some symbol)
    by by apply addSymbol_children.
  destruct (proj2 (is_Some_addSymbol this symbol symbol σ1) Hs1) as [s2 Hs2].
  change (σ2 !! symbol = Some s2) in Hs2.
  assert (Hid : name (id s2) ≠ i).
  { pose proof (addSymbol_id this symbol symbol σ1) as H2.
    pose proof (addSymbol_id this symbol symbol σ) as H1.
    change (id <$> σ1 !! symbol = id <$> σ !! symbol) in H1.
    change (id <$> σ2 !! symbol = id <$> σ1 !! symbol) in H2.
    rewrite H1, Hs, Hs2 in H2. cbn in H2.
    injection H2 as H2. by rewrite H2. }
  rewrite (field_Some _ _ _ _ Hs2) in Hnext.
  split; [by rewrite (field_Some _ _ _ _ Hs2)|]. split.
  - unfold getSymbol.
    destruct (proj2 (is_Some_addSymbol this symbol this σ1) Hthis1) as [t2 Ht2].
    change (σ2 !! this = Some t2) in Ht2. rewrite Ht2.
    rewrite (field_Some _ _ _ _ Ht2) in Hchildren.
    rewrite Hchildren. by eapply getSymbol_loop_self.
  - unfold childrenCount. rewrite Hchildren. by eapply childrenCount_loop_self.
Qed.

(** ** Lookups in the scopes above a struct *)

Lemma nullish_last_cons {A} (c : A) (l : list A) :
  last (c :: l) = nullish (last l) (Some c).
Proof. rewrite last_cons. by destruct (last l). Qed.

Lemma nullish_last_app {A} (l1 l2 : list A) (best : option A) :
  nullish (last (l1 ++ l2)) best = nullish (last l2) (nullish (last l1) best).
Proof. rewrite last_app. by destruct (last l2). Qed.

Lemma nullish_assoc {A} (a b c : option A) :
  nullish a (nullish b c) = nullish (nullish a b) c.
Proof. by destruct a. Qed.

Lemma find_app_first {A} (f : A → bool) (l1 l2 : list A) :
  List.find f (l1 ++ l2)
  = match List.find f l1 with Some x => Some x | None => List.find f l2 end.
Proof. induction l1 as [|a l1 IH]; [done|]. cbn. by destruct (f a). Qed.

Section FindSymbolProperties.

Variable isMethodSymbol : UCSymbol → bool.
Variable isStateSymbol : UCSymbol → bool.

(** The inner loop on a chain [l]: the first child with the name that the
    predicate accepts is returned, and else the last child with the name
    becomes [bestChild]. *)
Lemma findSymbol_children_chain (σ : store) i predicate p l best fuel :
  chain σ p l → (length l ≤ fuel)%nat →
  findSymbol_children fuel σ i predicate p best
  = Done (match List.find (fun c => named σ i None c && predicate c) l with
          | Some c => inl c
          | None => inr (nullish (last (List.filter (named σ i None) l)) best)
          end).
Proof.
  intros H. revert fuel best. induction H as [|c l [s Hs] Hch IH]; intros fuel best Hf.
  - by destruct fuel.
  - destruct fuel as [|fuel]; simpl in *; [lia|].
    rewrite Hs. rewrite (field_Some _ _ _ _ Hs) in IH.
    unfold named at 1 3. rewrite Hs. cbn [kind_accepts]. rewrite andb_true_r.
    destruct (bool_decide (name (id s) = i)); cbn [andb].
    + destruct (predicate c); [done|].
      rewrite IH by lia. destruct (List.find _ l); [done|].
      by rewrite nullish_last_cons, <- nullish_assoc.
    + apply IH. lia.
Qed.

Lemma findSymbol_scopes_spec (σ : store) i predicate scope ls best fuel :
  scopes super σ scope ls →
  (length ls + length (concat ls.*2) ≤ fuel)%nat →
  findSymbol_scopes fuel σ i predicate scope best
  = Done (match List.find (fun c => named σ i None c && predicate c) (concat ls.*2) with
          | Some c => Some c
          | None => nullish (last (List.filter (named σ i None) (concat ls.*2))) best
          end).
Proof.
  intros H. revert fuel best.
  induction H as [|c s l ls Hs Hch Hsc IH]; intros fuel best Hf.
  - by destruct fuel.
  - cbn in Hf. rewrite length_app in Hf.
    destruct fuel as [|fuel]; [lia|]. cbn [findSymbol_scopes]. rewrite Hs.
    rewrite (findSymbol_children_chain σ i predicate _ l) by (done || lia).
    cbn [outcome_bind fmap list_fmap snd concat].
    rewrite find_app_first. destruct (List.find _ l) as [found|]; [done|].
    rewrite IH by lia. destruct (List.find _ (concat _)); [done|].
    by rewrite List.filter_app, nullish_last_app.
Qed.

(** X7: [findSymbol] prefers a symbol that the predicate accepts to a nearer
    one.  Over the children of the scopes it visits, nearest scope first,
    each in the order of its chain: the first child with the name that the
    predicate accepts is returned wherever it is; when the predicate
    accepts none, the last child with the name is, that of the farthest
    scope; and without a child of the name the result is [undefined]. *)
Theorem findSymbol_prefers_accepted
    (σ : store) (context : handle) (i : Name) (predicate : handle → bool)
    (scope : option handle) (ls : list (handle * list handle)) (fuel : nat) :
  findSymbol_scope isMethodSymbol isStateSymbol σ context = Done scope →
  scopes super σ scope ls →
  (length ls + length (concat ls.*2) ≤ fuel)%nat →
  findSymbol isMethodSymbol isStateSymbol fuel σ context i predicate
  = Done (findSymbol_answer σ i predicate (concat ls.*2)).
Proof.
  intros Hscope Hsc Hf. unfold findSymbol. rewrite Hscope. cbn [outcome_bind].
  rewrite (findSymbol_scopes_spec σ i predicate scope ls) by done.
  unfold findSymbol_answer. destruct (List.find _ _); [done|].
  by destruct (last _).
Qed.

End FindSymbolProperties.

Section CompletionProperties.

Variable acceptCompletion : handle → UCDocument → handle → bool.

Lemma getCompletionSymbols_children_chain (σ : store) document this type p l
    symbols fuel :
  chain σ p l → (length l ≤ fuel)%nat →
  getCompletionSymbols_children acceptCompletion fuel σ document this type p symbols
  = Done (symbols ++ List.filter (completes acceptCompletion σ document this type) l).
Proof.
  intros H. revert fuel symbols.
  induction H as [|c l [s Hs] Hch IH]; intros fuel symbols Hf.
  - destruct fuel; cbn; by rewrite app_nil_r.
  - destruct fuel as [|fuel]; simpl in *; [lia|].
    rewrite Hs. rewrite (field_Some _ _ _ _ Hs) in IH.
    rewrite IH by lia. unfold completes at 2. rewrite Hs.
    destruct (kind_accepts type s && acceptCompletion c document this); [|done].
    by rewrite <- app_assoc.
Qed.

Lemma getCompletionSymbols_parents_scopes (σ : store) document this type parent ls
    symbols fuel :
  scopes (fun s => nullish (super s) (outer s)) σ parent ls →
  (length ls + length (concat ls.*2) ≤ fuel)%nat →
  getCompletionSymbols_parents acceptCompletion fuel σ document this type parent symbols
  = Done (symbols ++ List.filter (completes acceptCompletion σ document this type) (concat ls.*2)).
Proof.
  intros H. revert fuel symbols.
  induction H as [|c s l ls Hs Hch Hsc IH]; intros fuel symbols Hf.
  - destruct fuel; cbn; by rewrite app_nil_r.
  - cbn in Hf. rewrite length_app in Hf.
    destruct fuel as [|fuel]; [lia|]. cbn [getCompletionSymbols_parents]. rewrite Hs.
    rewrite (getCompletionSymbols_children_chain σ document this type _ l)
      by (done || lia).
    cbn [outcome_bind fmap list_fmap snd concat].
    rewrite IH by lia. by rewrite List.filter_app, app_assoc.
Qed.

(** X8: [getCompletionSymbols] lists the children of the struct, in the order
    of its chain, before those of the structs above it, nearest first,
    where above is [super] and, for a struct without [super], [outer]: each
    child that passes the filter on the type flags and accepts the
    completion, once for every struct that has it, so that a child that a
    nearer struct shadows by name is listed as well. *)
Theorem getCompletionSymbols_own_children_first
    (σ : store) (document : UCDocument) (this : handle) (type : option Z)
    (l : list handle) (ls : list (handle * list handle)) (fuel : nat) :
  scopes (fun s => nullish (super s) (outer s)) σ (Some this) ((this, l) :: ls) →
  (length ls + length (l ++ concat ls.*2) ≤ fuel)%nat →
  getCompletionSymbols acceptCompletion fuel σ document this type
  = Done (List.filter (completes acceptCompletion σ document this type) l
          ++ List.filter (completes acceptCompletion σ document this type)
               (concat ls.*2)).
Proof.
  intros Hsc Hf. rewrite length_app in Hf.
  inversion Hsc as [|c s l' ls' Hs Hch Hls]; subst.
  unfold getCompletionSymbols. rewrite Hs.
  rewrite (getCompletionSymbols_children_chain σ document this type _ l)
    by (done || lia).
  cbn [outcome_bind app].
  by rewrite (getCompletionSymbols_parents_scopes σ document this type _ ls)
    by (done || lia).
Qed.

End CompletionProperties.

(** ** The kind of a type reference, qualified types *)

(** X9: [getTypeKind] never answers [Float].  The member [Float] is the
    number [0], which [||] takes for false: a referent whose own kind is
    [Float] makes the type reference answer [Error], as an unresolved
    reference does. *)
Theorem getTypeKind_never_Float
    (NativeClass : handle) (UCFieldSymbol_getTypeKind : store → handle → UCTypeKind.t)
    (σ : store) (this : UCObjectTypeSymbol) :
  UCObjectTypeSymbol_getTypeKind NativeClass UCFieldSymbol_getTypeKind σ this
    ≠ UCTypeKind.Float
  ∧ (∀ r s,
       reference this = Some r → σ !! r = Some s →
       class s ≠ UCClassSymbol → isFieldSymbol (class s) = true →
       UCFieldSymbol_getTypeKind σ r = UCTypeKind.Float →
       UCObjectTypeSymbol_getTypeKind NativeClass UCFieldSymbol_getTypeKind σ this
       = UCTypeKind.Error)
  ∧ (reference this = None →
     UCObjectTypeSymbol_getTypeKind NativeClass UCFieldSymbol_getTypeKind σ this
     = UCTypeKind.Error).
Proof.
  split; [|split].
  - unfold UCObjectTypeSymbol_getTypeKind.
    destruct (_ && _); [done|]. destruct (reference this) as [r|]; [|done].
    destruct (reference_instanceof _ _ _); [|done].
    destruct (truthy _) eqn:Ht; [|done].
    intros Heq. rewrite Heq in Ht. done.
  - intros r s Hr Hs Hclass Hfield Hkind. unfold UCObjectTypeSymbol_getTypeKind.
    unfold reference_instanceof. rewrite Hr. cbn. rewrite Hs, Hfield, Hkind.
    rewrite (bool_decide_eq_false_2 (class s = UCClassSymbol)) by done.
    by rewrite andb_false_r.
  - intros Hr. unfold UCObjectTypeSymbol_getTypeKind, reference_instanceof.
    rewrite Hr. cbn. by rewrite andb_false_r.
Qed.

(** X10: A type qualified by a package that the packages table does not know
    stays unresolved, whatever the symbols table or the context know of
    it: the one lookup made is that of the package, the type is indexed
    without a context and left as it was, and the analysis then reports
    the package as an unrecognized type before what it reports for the
    type. *)
Theorem qualified_type_of_unknown_package
    (getHash : store → handle → string)
    (PackagesTable_findSymbol SymbolsTable_findSymbol : Name → bool → option handle)
    (isType : UCSymbol → bool)
    (fuel : nat) (package : Identifier) (type : UCObjectTypeSymbol)
    (context : handle) (st : State) :
  PackagesTable_findSymbol (name package) false = None →
  let package_type := ObjectType package (Some UCTypeKind.Package) None None in
  let this := QualifiedType type (Some (QualifiedType package_type None)) in
  let st' := set_lookups (lookups st ++ [InPackagesTable (name package) false]) st in
  UCQualifiedTypeSymbol_index getHash PackagesTable_findSymbol
    SymbolsTable_findSymbol isType fuel this (Some context) st
  = (Done this, st')
  ∧ UCQualifiedTypeSymbol_analyze this (Some context) st'
    = (Done tt,
       with_reports (UnrecognizedTypeNode package_type :: type_reports (symbols st) type) st').
Proof.
  intros Hpkg package_type this st'. split.
  - unfold this, package_type. cbn [UCQualifiedTypeSymbol_index].
    unfold bind at 1. unfold bind at 1.
    rewrite index_type_no_base_eq, lookup_type_eq. rewrite Hpkg.
    cbn. unfold bind. by destruct type as [i k [r|] b].
  - unfold this. cbn [UCQualifiedTypeSymbol_analyze]. unfold bind at 1.
    rewrite UCObjectTypeSymbol_analyze_reports.
    cbn [UCQualifiedTypeSymbol_getReference qualified_type reference package_type].
    rewrite UCObjectTypeSymbol_analyze_reports.
    rewrite with_reports_app. done.
Qed.

(** ** Blocks in blocks, and the clauses of a switch *)

Lemma bind_ext_done {S A B} (m : Method S A) (k k' : A → Method S B) (s : S) :
  (∀ a s1, m s = (Done a, s1) → k a s1 = k' a s1) →
  (let! a := m in k a) s = (let! a := m in k' a) s.
Proof.
  intros Hk. unfold bind. destruct (m s) as [[a| |] s1] eqn:Hm; [by apply Hk|done|done].
Qed.

Lemma bind_eq_l {S A B} (m m' : Method S A) (k : A → Method S B) (s : S) :
  m s = m' s → (let! a := m in k a) s = (let! a := m' in k a) s.
Proof. intros Hm. unfold bind. by rewrite Hm. Qed.

Section NestedBlocks.

Context {OtherFields : Type}.

Implicit Types (statements : list (option (IStatement OtherFields))).
Implicit Types (info : IContextInfo OtherFields).

Lemma set_info_typeFlags_same info :
  set_info_typeFlags (info_typeFlags info) info = info.
Proof. by destruct info. Qed.

(** A block as a statement of a block that is given an [info] object: the
    reset after it changes nothing. *)
Lemma UCBlock_index_loop_block (no_fields : OtherFields) typeFlags statements
    context st info :
  info_typeFlags info = typeFlags →
  (run! index_with (UCBlock OtherFields no_fields statements) context in
   reset_typeFlags typeFlags) (st, info)
  = UCBlock_index_loop true typeFlags statements context (st, info).
Proof.
  intros Hinfo. cbn [index_with UCBlock]. unfold bind, UCBlock_index_with.
  rewrite Hinfo.
  destruct (UCBlock_index_loop true typeFlags statements context (st, info))
    as [[[]| |] [st' info']] eqn:Hrun; [|done|done].
  apply UCBlock_index_loop_typeFlags in Hrun; [|done].
  cbn. by rewrite <- Hrun, set_info_typeFlags_same.
Qed.

(** Without an [info] object the statements never see the object of the
    loop: the loop is the same on every object, and gives back the one it
    was given when that holds the flags the loop resets to. *)
Lemma UCBlock_index_loop_false typeFlags statements context st info :
  info_typeFlags info = typeFlags →
  ∃ r st',
    UCBlock_index_loop false typeFlags statements context (st, info) = (r, (st', info))
    ∧ ∀ typeFlags2 info2,
        info_typeFlags info2 = typeFlags2 →
        UCBlock_index_loop false typeFlags2 statements context (st, info2)
        = (r, (st', info2)).
Proof.
  revert st. induction statements as [|[statement|] statements IH]; intros st Hinfo.
  - by exists (Done tt), st.
  - cbn [UCBlock_index_loop]. unfold bind at 1 3, without_info.
    destruct (index_without statement context st) as [[[]| |] st1] eqn:Hrun.
    + destruct (IH st1 Hinfo) as (r & st' & Hloop & Hany).
      exists r, st'. unfold bind, reset_typeFlags. subst typeFlags.
      rewrite set_info_typeFlags_same. split; [done|].
      intros typeFlags2 info2 <-. rewrite set_info_typeFlags_same. by apply Hany.
    + by exists Throw, st1.
    + by exists OutOfFuel, st1.
  - by apply IH.
Qed.

(** X11: A block written as a statement of a block can be written out in its
    place: the outer block indexes the same statements in the same order
    on the same [info] object, or on none when it was given none, and what
    either of the two does when a statement throws is the same as well. *)
Theorem UCBlock_nested_is_inlined
    (no_fields : OtherFields) (before inner after : list (option (IStatement OtherFields)))
    (context : handle) (st : State) (info : IContextInfo OtherFields) :
  UCBlock_index_with
    (before ++ Some (UCBlock OtherFields no_fields inner) :: after) context (st, info)
  = UCBlock_index_with (before ++ inner ++ after) context (st, info)
  ∧ UCBlock_index_without no_fields
      (before ++ Some (UCBlock OtherFields no_fields inner) :: after) context st
    = UCBlock_index_without no_fields (before ++ inner ++ after) context st.
Proof.
  split.
  - unfold UCBlock_index_with. rewrite !UCBlock_index_loop_app.
    apply bind_ext_done. intros [] [st1 info1] Hbefore.
    apply UCBlock_index_loop_typeFlags in Hbefore; [|done].
    rewrite UCBlock_index_loop_app.
    cbn [UCBlock_index_loop]. rewrite <- bind_assoc.
    apply bind_eq_l. by apply UCBlock_index_loop_block.
  - unfold UCBlock_index_without. cbn [info_typeFlags].
    set (info0 := {| info_typeFlags := None; otherFields := no_fields |}).
    rewrite !UCBlock_index_loop_app.
    unfold bind at 1 2.
    destruct (UCBlock_index_loop_false None before context st info0 eq_refl)
      as (r & st1 & -> & _).
    destruct r as [[]| |]; [|done|done].
    assert (UCBlock_index_loop false None
              (Some (UCBlock OtherFields no_fields inner) :: after) context (st1, info0)
            = UCBlock_index_loop false None (inner ++ after) context (st1, info0))
      as ->; [|done].
    rewrite UCBlock_index_loop_app. cbn [UCBlock_index_loop].
    rewrite <- bind_assoc. apply bind_eq_l.
    unfold bind, without_info. cbn [index_without UCBlock].
    unfold UCBlock_index_without. cbn [info_typeFlags]. fold info0.
    destruct (UCBlock_index_loop_false None inner context st1 info0 eq_refl)
      as (r & st2 & -> & _).
    by destruct r as [[]| |].
Qed.

End NestedBlocks.

Section SwitchProperties.

Context {OtherFields : Type}.

(** X12: The clauses of a switch are indexed with the flags of the type of the
    switch expression.  When the expression is indexed and has a type, the
    [then] statement runs on a new [info] object that holds those flags
    and nothing else, whatever the caller passed and also when the caller
    passed nothing; the caller's object is left as the expression left it;
    and when the [then] statement is a block, every clause of the block is
    indexed with those flags as hint, whatever the clauses before it did
    to the hint. *)
Theorem UCSwitchStatement_hints_its_clauses
    (no_fields : OtherFields) (e : IExpression OtherFields)
    (clauses : list (option (IStatement OtherFields))) (context : handle)
    (flags : Z) (st st1 : State) (info info1 : IContextInfo OtherFields) :
  index_with (expression_index e) context (st, info) = (Done tt, (st1, info1)) →
  expression_typeFlags e st1 = Some flags →
  let hint := typeFlags_only OtherFields no_fields flags in
  let switch :=
    UCSwitchStatement OtherFields no_fields (Some e)
      (Some (UCBlock OtherFields no_fields clauses)) in
  index_with switch context (st, info)
  = with_new_info hint (UCBlock_index_with clauses context) (st1, info1)
  ∧ (index_with switch context (st, info)).2.2 = info1
  ∧ (∀ before clause after st2 info2,
       clauses = before ++ Some clause :: after →
       UCBlock_index_with before context (st1, hint) = (Done tt, (st2, info2)) →
       info_typeFlags info2 = Some flags
       ∧ UCBlock_index_with clauses context (st1, hint)
         = (run! UCBlock_index_with before context in
            run! index_with clause context in
            run! reset_typeFlags (Some flags) in
            UCBlock_index_loop true (Some flags) after context) (st1, hint))
  ∧ (∀ st0 st2,
       index_without (expression_index e) context st0 = (Done tt, st2) →
       expression_typeFlags e st2 = Some flags →
       index_without switch context st0
       = on_new_info hint (UCBlock_index_with clauses context) st2).
Proof.
  intros He Htype hint switch.
  assert (Hrun : index_with switch context (st, info)
                 = with_new_info hint (UCBlock_index_with clauses context) (st1, info1)).
  { unfold switch. cbn [index_with UCSwitchStatement UCBlock]. unfold bind at 1.
    rewrite He. unfold bind at 1. by rewrite Htype. }
  split; [done|]. split; [|split].
  - rewrite Hrun. unfold with_new_info.
    by destruct (UCBlock_index_with clauses context (st1, hint)) as [r [st2 info2]].
  - intros before clause after st2 info2 -> Hbefore. split.
    + by apply UCBlock_index_loop_typeFlags in Hbefore.
    + unfold UCBlock_index_with at 1. by rewrite UCBlock_index_loop_app.
  - intros st0 st2 He0 Htype0. unfold switch.
    cbn [index_without index_with UCSwitchStatement UCBlock].
    unfold bind at 1. rewrite He0. unfold bind at 1, lift. by rewrite Htype0.
Qed.

End SwitchProperties.

(** ** More of the reference index *)

(** X13: [unsetIndexedReferences] undoes [addIndexedReference]: a record that
    is added under a key and then retracted leaves the index as it was,
    the key gone again when it was new. *)
Theorem addIndexedReference_then_unset
    (index : gmap string (gset positive)) (qualifiedId : string) (ref : positive) :
  index !! qualifiedId ≠ Some ∅ →
  ref ∉ getIndexedReferences qualifiedId index →
  unsetIndexedReferences qualifiedId {[ref]}
    (addIndexedReference qualifiedId ref index)
  = index.
Proof.
  intros Hne Hnin. unfold addIndexedReference, unsetIndexedReferences.
  rewrite lookup_insert_eq. unfold getIndexedReferences in *.
  destruct (index !! qualifiedId) as [refs|] eqn:Hk; cbn in *.
  - assert ((refs ∪ {[ref]}) ∖ {[ref]} = refs) as -> by set_solver.
    rewrite decide_False.
    + rewrite insert_insert_eq. by apply insert_id.
    + intros Hsz. apply size_empty_inv in Hsz. apply leibniz_equiv in Hsz.
      by subst.
  - assert (((∅ : gset positive) ∪ {[ref]}) ∖ {[ref]} = ∅) as -> by set_solver.
    rewrite decide_True by done. rewrite delete_insert_eq. by apply delete_id.
Qed.

Lemma addIndexedReference_no_empty index k ref :
  no_empty_entry index → no_empty_entry (addIndexedReference k ref index).
Proof.
  intros Hne k'. unfold addIndexedReference. rewrite lookup_insert.
  case_decide; [|apply Hne]. intros [= Heq]. set_solver.
Qed.

Lemma unsetIndexedReferences_no_empty index k refs :
  no_empty_entry index → no_empty_entry (unsetIndexedReferences k refs index).
Proof.
  intros Hne k'. destruct (decide (k = k')) as [<-|Hk].
  - rewrite unsetIndexedReferences_lookup_eq.
    destruct (index !! k) as [s|]; [|done].
    case_decide as Hsz; [done|]. intros [= Heq]. rewrite Heq in Hsz.
    by rewrite size_empty in Hsz.
  - rewrite unsetIndexedReferences_lookup_ne by done. apply Hne.
Qed.

(** X14: The index never comes to hold an empty set: [addIndexedReference],
    [unsetIndexedReferences] (which deletes the key with the last record)
    and [invalidate] keep an index without empty entries that way. *)
Theorem index_keeps_no_empty_entry
    (st : State) (qualifiedId : string) (ref : positive) (refs : gset positive) :
  no_empty_entry (IndexedReferences st) →
  no_empty_entry (addIndexedReference qualifiedId ref (IndexedReferences st))
  ∧ no_empty_entry (unsetIndexedReferences qualifiedId refs (IndexedReferences st))
  ∧ no_empty_entry (IndexedReferences (UCDocument_invalidate st)).
Proof.
  intros Hne. split; [by apply addIndexedReference_no_empty|].
  split; [by apply unsetIndexedReferences_no_empty|].
  unfold UCDocument_invalidate. cbn.
  apply (map_fold_weak_ind (fun r (_ : gmap string (gset positive)) => no_empty_entry r));
    [done|].
  intros i x m r _ IH. by apply unsetIndexedReferences_no_empty.
Qed.

(** X15: [invalidate] twice is [invalidate] once, and a document that was
    invalidated is not analyzed: [analyze] answers [undefined] and reports
    nothing, whatever the analysis of a class would do. *)
Theorem invalidate_twice
    (node_getRange : IDiagnosticNode → RangeRef)
    (node_toString : IDiagnosticNode → string)
    (typesReached : store → handle → list (UCObjectTypeSymbol * option handle))
    (st : State) :
  UCDocument_invalidate (UCDocument_invalidate st) = UCDocument_invalidate st
  ∧ UCDocument_analyze node_getRange node_toString typesReached
      (UCDocument_invalidate st)
    = (Done None, UCDocument_invalidate st).
Proof.
  split; [|done].
  unfold UCDocument_invalidate. cbn. by rewrite map_fold_empty.
Qed.

(** ** More of the structural builder *)

Section BuilderProperties2.

Variable getTypeFlags : SymbolClass → Z.
Variable UCPackage_addSymbol : handle → handle → store → store.

Local Abbreviation members_loop :=
  (enterEnumDecl_members getTypeFlags UCPackage_addSymbol).

(** The loop over the members files every member in the global map under
    its name: a member is found there unless a later member of the
    declaration has the same name, names that the declaration does not use
    keep their entry, and the document is not touched. *)
Lemma members_loop_registers e members :
  Forall (fun m => is_Some (member_identifier m)) members →
  ∀ count (st : State) stack,
    context (document st) = Some (stack ++ [e]) → is_Some (symbols st !! e) →
    ∃ st',
      members_loop e members count st = (Done tt, st')
      ∧ document st' = document st
      ∧ (∀ x, is_Some (symbols st !! x) → x ≠ e →
              symbols st' !! x = symbols st !! x)
      ∧ (∀ x, is_Some (symbols st !! x) → is_Some (symbols st' !! x))
      ∧ (∀ text, Some text ∉ member_identifier <$> members →
              getEnumMember text st' = getEnumMember text st)
      ∧ (∀ (k : nat) m text,
           members !! k = Some m → member_identifier m = Some text →
           (∀ (k' : nat) m', (k < k')%nat → members !! k' = Some m' →
                     member_identifier m' ≠ Some text) →
           ∃ h s, getEnumMember text st' = Some h
                  ∧ symbols st' !! h = Some s
                  ∧ class s = UCEnumMemberSymbol
                  ∧ name (id s) = text
                  ∧ value s = Some (count + Z.of_nat k)%Z
                  ∧ outer s = Some e).
Proof.
  induction 1 as [|m members Hid Hall IH]; intros count st stack Hctx He.
  { exists st. repeat split; try done. }
  destruct m as [start [text|]]; [|by destruct Hid].
  rewrite (members_loop_cons getTypeFlags UCPackage_addSymbol e start text members
             count st stack) by done.
  destruct (member_declared_lookup_new getTypeFlags e start text count (symbols st) He)
    as (s0 & Hs0 & Hclass0 & Hname0 & Hvalue0 & Houter0).
  pose proof (fresh_handle_ne (symbols st) e He) as Hne.
  pose proof (member_declared_lookup_old getTypeFlags e start text count (symbols st))
    as Hold1.
  pose proof (member_declared_is_Some getTypeFlags e start text count (symbols st))
    as Hsome1.
  set (h := fresh (dom (symbols st))) in *.
  set (σ1 := member_declared getTypeFlags e start text count (symbols st)) in *.
  set (st1 := set_EnumMemberMap _ _).
  destruct (IH (count + 1)%Z st1 stack)
    as (st' & Hrun & Hdoc & Hold & Hsome & Hkeep & Hreg); [done|by apply Hsome1|].
  exists st'. split; [done|]. split; [done|]. split; [|split; [|split]].
  - intros x Hx Hxe. rewrite Hold; [|by apply Hsome1|done]. by apply Hold1.
  - intros x Hx. apply Hsome. by apply Hsome1.
  - intros text' Hnin. rewrite fmap_cons in Hnin.
    apply not_elem_of_cons in Hnin as [Hne' Hnin]. cbn in Hne'.
    rewrite (Hkeep text' Hnin). unfold getEnumMember, st1. cbn.
    rewrite lookup_insert_ne; [done|]. by intros ->.
  - intros [|k] m text' Hm Htext Hlater.
    + cbn in Hm. injection Hm as <-. cbn in Htext. injection Htext as <-.
      exists h, s0.
      assert (Hnin : Some text ∉ member_identifier <$> members).
      { intros (m' & Hm' & Hin)%list_elem_of_fmap.
        apply list_elem_of_lookup in Hin as [k' Hk'].
        by apply (Hlater (S k') m' ltac:(lia) Hk'). }
      rewrite (Hkeep text Hnin). unfold getEnumMember, st1. cbn.
      rewrite lookup_insert_eq. split; [done|].
      rewrite Hold; [|by cbn; rewrite Hs0|done].
      split; [done|]. split; [done|]. split; [done|].
      split; [by rewrite Z.add_0_r|done].
    + cbn in Hm. destruct (Hreg k m text' Hm Htext) as (h' & s & Hget & Hs & Hc & Hn & Hv & Ho).
      { intros k' m' Hlt Hm'. by apply (Hlater (S k') m' ltac:(lia)). }
      exists h', s. repeat split; try done. rewrite Hv. f_equal. lia.
Qed.

(** [enterEnumDecl] up to the loop over the members. *)
Lemma enterEnumDecl_eq ctx text idRange (st : State) stack top :
  decl_identifier ctx = Some (text, idRange) →
  context (document st) = Some (stack ++ [top]) →
  let e := fresh (dom (symbols st)) in
  let enum := UCSymbol_new UCEnumSymbol {| name := text; range := TokenRange idRange |}
                (getTypeFlags UCEnumSymbol) in
  let st2 := set_document
               (set_context (Some ((stack ++ [top]) ++ [e])) (document st))
               (set_symbols (addSymbol top e (<[e := enum]> (symbols st))) st) in
  enterEnumDecl getTypeFlags UCPackage_addSymbol ctx st
  = (run! members_loop e (enumMember ctx) 0 in ret (Some e)) st2.
Proof.
  intros Hid Hctx e enum st2. unfold enterEnumDecl. rewrite Hid.
  unfold bind at 1, new at 1. fold e enum.
  unfold bind at 1, UCDocument_declare at 1. cbn [document set_symbols].
  rewrite Hctx, last_snoc. cbn [symbols set_symbols].
  unfold bind at 1, UCDocument_push at 1. cbn [document set_symbols]. by rewrite Hctx.
Qed.

(** X18: An enum declaration leaves the scope stack as it found it: for a
    declaration with an identifier all of whose members have one,
    [enterEnumDecl] returns with the enum on top of the stack and as the
    first child of the scope it was declared in, and [exitEnumDecl] then
    restores the stack. *)
Theorem enterEnumDecl_exitEnumDecl_balanced
    (ctx : EnumDeclContext) (text : string) (idRange : Range) (st : State)
    (stack : list handle) (top : handle) :
  decl_identifier ctx = Some (text, idRange) →
  context (document st) = Some (stack ++ [top]) → is_Some (symbols st !! top) →
  Forall (fun m => is_Some (member_identifier m)) (enumMember ctx) →
  ∃ e st1 st2,
    enterEnumDecl getTypeFlags UCPackage_addSymbol ctx st = (Done (Some e), st1)
    ∧ context (document st1) = Some ((stack ++ [top]) ++ [e])
    ∧ field children (symbols st1) top = Some e
    ∧ exitEnumDecl st1 = (Done tt, st2)
    ∧ context (document st2) = Some (stack ++ [top])
    ∧ symbols st2 = symbols st1.
Proof.
  intros Hid Hctx Htop Hall.
  pose proof (fresh_handle_ne (symbols st) top Htop) as Hne.
  rewrite (enterEnumDecl_eq ctx text idRange st stack top Hid Hctx).
  set (e := fresh (dom (symbols st))) in *.
  set (enum := UCSymbol_new UCEnumSymbol _ _).
  set (σ2 := addSymbol top e (<[e := enum]> (symbols st))).
  set (st2 := set_document _ _).
  assert (He2 : is_Some (σ2 !! e)).
  { unfold σ2. rewrite is_Some_addSymbol, lookup_insert_eq. by eexists. }
  assert (Htop2 : is_Some (σ2 !! top)).
  { unfold σ2. rewrite is_Some_addSymbol, lookup_insert_ne; done. }
  destruct (members_loop_registers e (enumMember ctx) Hall 0%Z st2 (stack ++ [top]))
    as (st' & Hrun & Hdoc & Hold & _); [done|done|].
  exists e, st'. eexists. unfold bind. rewrite Hrun. split; [done|].
  split; [by rewrite Hdoc|]. split.
  { unfold field. rewrite Hold; [|done|by intros ->].
    apply addSymbol_children. by rewrite lookup_insert_ne. }
  unfold exitEnumDecl, UCDocument_pop. rewrite Hdoc.
  cbn [document st2 set_document context set_context].
  split; [done|]. cbn. by rewrite removelast_last.
Qed.

(** X19: A declaration without an identifier unbalances the stack:
    [enterEnumDecl] returns at once, without a new scope, and
    [exitEnumDecl] pops all the same, so that the scope the declaration
    stands in is closed before its end. *)
Theorem exitEnumDecl_pops_without_enter
    (ctx : EnumDeclContext) (st : State) (stack : list handle) (top : handle) :
  decl_identifier ctx = None →
  context (document st) = Some (stack ++ [top]) →
  (let! _ := enterEnumDecl getTypeFlags UCPackage_addSymbol ctx in exitEnumDecl) st
  = (Done tt, set_document (set_context (Some stack) (document st)) st).
Proof.
  intros Hid Hctx. unfold enterEnumDecl. rewrite Hid.
  unfold bind, ret, exitEnumDecl, UCDocument_pop. rewrite Hctx.
  by rewrite removelast_last.
Qed.

(** X17: [enterEnumDecl] files the members in the global map of enum
    members: after it, [getEnumMember] on the name of a member answers the
    member of that name that the declaration lists last, which has the
    position in the declaration as its value and the new enum as its
    [outer]; [invalidate] of the document does not take the member out of
    the map again; and an entry under any other name is as it was. *)
Theorem enterEnumDecl_registers_members
    (ctx : EnumDeclContext) (text : string) (idRange : Range) (st : State)
    (stack : list handle) (top : handle) :
  decl_identifier ctx = Some (text, idRange) →
  context (document st) = Some (stack ++ [top]) → is_Some (symbols st !! top) →
  Forall (fun m => is_Some (member_identifier m)) (enumMember ctx) →
  ∃ e st',
    enterEnumDecl getTypeFlags UCPackage_addSymbol ctx st = (Done (Some e), st')
    ∧ (∀ (k : nat) m member,
         enumMember ctx !! k = Some m → member_identifier m = Some member →
         (∀ (k' : nat) m', (k < k')%nat → enumMember ctx !! k' = Some m' →
                   member_identifier m' ≠ Some member) →
         ∃ h s, getEnumMember member st' = Some h
                ∧ symbols st' !! h = Some s
                ∧ class s = UCEnumMemberSymbol
                ∧ name (id s) = member
                ∧ value s = Some (Z.of_nat k)
                ∧ outer s = Some e
                ∧ getEnumMember member (UCDocument_invalidate st') = Some h)
    ∧ (∀ other, Some other ∉ member_identifier <$> enumMember ctx →
                getEnumMember other st' = getEnumMember other st).
Proof.
  intros Hid Hctx Htop Hall.
  pose proof (fresh_handle_ne (symbols st) top Htop) as Hne.
  rewrite (enterEnumDecl_eq ctx text idRange st stack top Hid Hctx).
  set (e := fresh (dom (symbols st))) in *.
  set (enum := UCSymbol_new UCEnumSymbol _ _).
  set (σ2 := addSymbol top e (<[e := enum]> (symbols st))).
  set (st2 := set_document _ _).
  assert (He2 : is_Some (σ2 !! e)).
  { unfold σ2. rewrite is_Some_addSymbol, lookup_insert_eq. by eexists. }
  destruct (members_loop_registers e (enumMember ctx) Hall 0%Z st2 (stack ++ [top]))
    as (st' & Hrun & _ & _ & _ & Hkeep & Hreg); [done|done|].
  exists e, st'. unfold bind. rewrite Hrun. split; [done|]. split; [|done].
  intros k m member Hm Hmember Hlater.
  destruct (Hreg k m member Hm Hmember Hlater) as (h & s & ? & ? & ? & ? & Hv & ?).
  exists h, s. rewrite Z.add_0_l in Hv. by repeat split.
Qed.

End BuilderProperties2.

(** ** The modifiers of a class declaration *)

Section ClassModifiersProperties.

Variable toLowerCase : string → string.

Lemma enterClassDecl_modifiers_sublist modifierNodes types :
  default [] (dependsOnTypes types) `sublist_of` default [] (implementsTypes types) →
  default [] (dependsOnTypes (enterClassDecl_modifiers toLowerCase modifierNodes types))
  `sublist_of`
  default [] (implementsTypes (enterClassDecl_modifiers toLowerCase modifierNodes types)).
Proof.
  revert types. induction modifierNodes as [|m ms IH]; intros types Hsub; [done|].
  cbn [enterClassDecl_modifiers]. apply IH.
  destruct (decide (toLowerCase (modifier_identifier m) = "dependson")).
  - unfold enterClassDecl_dependson, enterClassDecl_implements.
    destruct (modifierArguments m) as [values|]; [|done]. cbn.
    by apply sublist_app.
  - destruct (decide (toLowerCase (modifier_identifier m) = "implements")); [|done].
    unfold enterClassDecl_implements.
    destruct (modifierArguments m) as [values|]; [|done]. cbn.
    by apply sublist_inserts_r.
Qed.

(** X20: A class that [dependson] a class is taken to implement it.  The case
    of the modifier [dependson] has no [break]: for every class
    declaration, the types filed as depended on are filed as implemented as
    well, in the same order, and a single [dependson (A)] leaves [A] in
    both arrays. *)
Theorem enterClassDecl_dependson_is_implements
    (modifierNodes : list ClassModifierContext) (value : string * Range) :
  let declared :=
    enterClassDecl_modifiers toLowerCase modifierNodes
      {| dependsOnTypes := None; implementsTypes := None |} in
  default [] (dependsOnTypes declared) `sublist_of` default [] (implementsTypes declared)
  ∧ (∀ modifier,
       toLowerCase (modifier_identifier modifier) = "dependson" →
       modifierArguments modifier = Some [value] →
       let type := ObjectType {| name := value.1; range := TokenRange value.2 |}
                     (Some UCTypeKind.Class) None None in
       enterClassDecl_modifiers toLowerCase [modifier]
         {| dependsOnTypes := None; implementsTypes := None |}
       = {| dependsOnTypes := Some [type]; implementsTypes := Some [type] |}).
Proof.
  intros declared. split.
  - by apply enterClassDecl_modifiers_sublist.
  - intros modifier Hid Hargs type. cbn [enterClassDecl_modifiers].
    rewrite decide_True by done.
    unfold enterClassDecl_dependson, enterClassDecl_implements. by rewrite Hargs.
Qed.

End ClassModifiersProperties.

(** ** The context of a completion *)

Lemma is_char_true char c : is_char char c = true → char = Some (unit_of c).
Proof. apply bool_decide_eq_true_1. Qed.

Lemma letter_is_no_bracket (c : code_unit) :
  char_between (Some c) "a" "z" || char_between (Some c) "A" "Z" = true →
  c ∉ unit_of <$> ["("; ")"; "["; "]"].
Proof.
  unfold char_between.
  change (unit_of "a") with 97%N. change (unit_of "z") with 122%N.
  change (unit_of "A") with 65%N. change (unit_of "Z") with 90%N.
  change (unit_of <$> ["("; ")"; "["; "]"]) with [40; 41; 91; 93]%N.
  intros Hletter. rewrite !not_elem_of_cons.
  apply orb_true_iff in Hletter as [Hl|Hl];
    apply andb_true_iff in Hl as [Hlo Hhi];
    apply N.leb_le in Hlo, Hhi;
    repeat split; try (intros ->; lia); apply not_elem_of_nil.
Qed.

Lemma not_passed_over (c : code_unit) :
  is_char (Some c) " " || is_char (Some c) TAB || is_char (Some c) NEWLINE
  || is_char (Some c) ";" = false →
  c ∉ unit_of <$> ["("; ")"; "["; "]"] →
  is_char (Some c) "." = false →
  c ∉ passed_over.
Proof.
  unfold passed_over, is_char. rewrite !orb_false_iff.
  intros [[[H1 H2] H3] H4] Hparen Hdot.
  apply bool_decide_eq_false in H1, H2, H3, H4, Hdot.
  cbn [fmap list_fmap] in *. rewrite !not_elem_of_cons in *.
  destruct Hparen as (? & ? & ? & ? & _).
  repeat split; try congruence. apply not_elem_of_nil.
Qed.

Lemma no_bracket (c : code_unit) :
  is_char (Some c) "(" = false → is_char (Some c) ")" = false →
  is_char (Some c) "[" = false → is_char (Some c) "]" = false →
  c ∉ unit_of <$> ["("; ")"; "["; "]"].
Proof.
  unfold is_char. intros H1 H2 H3 H4.
  apply bool_decide_eq_false in H1, H2, H3, H4.
  cbn [fmap list_fmap]. rewrite !not_elem_of_cons.
  repeat split; try congruence. apply not_elem_of_nil.
Qed.

Ltac loop_continues IH Hrun :=
  let H1 := fresh in let H2 := fresh in let H3 := fresh in
  destruct (IH _ _ _ _ _ _ Hrun) as (H1 & H2 & H3);
  split; [exact H1|]; split;
  [ let Hne := fresh in
    intros Hne; destruct (H2 Hne) as (?o' & ? & ? & ?); exists o';
    split; [lia|by split]
  | let Ho := fresh in
    intros ?o Ho; destruct (H3 _ Ho); split; [lia|done] ].

(** What the loop answers, from any state: the context is the one it
    started with or a dot; a context it did not start with comes from a dot
    of the text, which the loop passed before it stopped; and the loop
    stops on no white space, semicolon, bracket, parenthesis or dot. *)
Lemma onCompletion_loop_answer text n context parenthesisLevel bracketLevel
    shouldSkipNextChars context' stop :
  onCompletion_loop text n context parenthesisLevel bracketLevel shouldSkipNextChars
  = (context', stop) →
  (context' = context ∨ context' = ".")
  ∧ (context' ≠ context →
     ∃ dot, (dot < n)%nat ∧ text !! dot = Some (unit_of ".")
            ∧ ∀ o, stop = Some o → (o < dot)%nat)
  ∧ (∀ o, stop = Some o →
          (o < n)%nat ∧ ∀ c, text !! o = Some c → c ∉ passed_over).
Proof.
  revert context parenthesisLevel bracketLevel shouldSkipNextChars context' stop.
  induction n as [|n IH]; intros context p b skip context' stop Hrun.
  { cbn in Hrun. injection Hrun as <- <-. split; [by left|]. by split. }
  cbn [onCompletion_loop] in Hrun.
  destruct (is_char (text !! n) " " || is_char (text !! n) TAB
            || is_char (text !! n) NEWLINE || is_char (text !! n) ";") eqn:Hws;
    [loop_continues IH Hrun|].
  assert (Hrest : ∀ skip',
    (if (0 <? p)%Z || (0 <? b)%Z
     then onCompletion_loop text n context p b skip'
     else if is_char (text !! n) "."
          then onCompletion_loop text n "." p b false
          else if skip' then onCompletion_loop text n context p b skip'
               else (context, Some n)) = (context', stop) →
    (∀ c, text !! n = Some c →
          c ∉ unit_of <$> ["("; ")"; "["; "]"]) →
    (context' = context ∨ context' = ".")
    ∧ (context' ≠ context →
       ∃ dot, (dot < S n)%nat ∧ text !! dot = Some (unit_of ".")
              ∧ ∀ o, stop = Some o → (o < dot)%nat)
    ∧ (∀ o, stop = Some o →
            (o < S n)%nat ∧ ∀ c, text !! o = Some c → c ∉ passed_over)).
  { intros skip' Hrun' Hparen.
    destruct ((0 <? p)%Z || (0 <? b)%Z); [loop_continues IH Hrun'|].
    destruct (is_char (text !! n) ".") eqn:Hdot.
    { apply is_char_true in Hdot.
      destruct (IH _ _ _ _ _ _ Hrun') as (H1 & H2 & H3).
      assert (context' = ".") as -> by by destruct H1.
      split; [by right|]. split.
      - intros _. exists n. split; [lia|]. split; [done|].
        intros o Ho. destruct (H3 _ Ho). lia.
      - intros o Ho. destruct (H3 _ Ho). split; [lia|done]. }
    destruct skip'; [loop_continues IH Hrun'|].
    injection Hrun' as <- <-. split; [by left|]. split; [done|].
    intros o [= <-]. split; [lia|]. intros c Hc. specialize (Hparen c Hc).
    rewrite Hc in Hws, Hdot. by apply not_passed_over. }
  destruct (char_between (text !! n) "a" "z" || char_between (text !! n) "A" "Z")
    eqn:Hletter.
  { apply Hrest in Hrun; [done|]. intros c Hc. rewrite Hc in Hletter.
    by apply letter_is_no_bracket. }
  destruct (is_char (text !! n) "(") eqn:H1; [loop_continues IH Hrun|].
  destruct (is_char (text !! n) ")") eqn:H2; [loop_continues IH Hrun|].
  destruct (is_char (text !! n) "[") eqn:H3; [loop_continues IH Hrun|].
  destruct (is_char (text !! n) "]") eqn:H4; [loop_continues IH Hrun|].
  apply Hrest in Hrun; [done|]. intros c Hc. rewrite Hc in H1, H2, H3, H4.
  by apply no_bracket.
Qed.

(** X21: The handler of completion requests looks for a dot to the left of the
    cursor.  When it answers, the context it passes on is the empty string
    or a dot; it is a dot only when the text has a dot at or before the
    cursor, to the right of the offset the position is moved to; a position
    that is moved is moved to an offset at or before the cursor, and never
    onto white space, a semicolon, a bracket, a parenthesis or a dot. *)
Theorem onCompletion_context_is_a_dot_of_the_text
    (triggerKind : option Z) (doc : option (list code_unit)) (offset : nat)
    (context : string) (stop : option nat) :
  onCompletion triggerKind doc offset = Some (context, stop) →
  (context = "" ∨ context = ".")
  ∧ (context = "." →
     ∃ text dot, doc = Some text ∧ (dot ≤ offset)%nat
                 ∧ text !! dot = Some (unit_of ".")
                 ∧ ∀ o, stop = Some o → (o < dot)%nat)
  ∧ (∀ o, stop = Some o →
          ∃ text, doc = Some text ∧ (o ≤ offset)%nat
                  ∧ ∀ c, text !! o = Some c → c ∉ passed_over).
Proof.
  unfold onCompletion. intros Hrun.
  assert (Hnone : (Some ("", @None nat) = Some (context, stop)) →
    (context = "" ∨ context = ".")
    ∧ (context = "." →
       ∃ text dot, doc = Some text ∧ (dot ≤ offset)%nat
                   ∧ text !! dot = Some (unit_of ".")
                   ∧ ∀ o, stop = Some o → (o < dot)%nat)
    ∧ (∀ o, stop = Some o →
            ∃ text, doc = Some text ∧ (o ≤ offset)%nat
                    ∧ ∀ c, text !! o = Some c → c ∉ passed_over)).
  { intros [= <- <-]. split; [by left|]. by split. }
  destruct triggerKind as [kind|]; [|by apply Hnone].
  destruct (kind <=? TriggerCharacter)%Z; [|by apply Hnone].
  destruct doc as [text|]; [|done]. apply (inj Some) in Hrun.
  apply onCompletion_loop_answer in Hrun as (H1 & H2 & H3).
  split; [done|]. split.
  - intros ->. destruct H2 as (dot & Hlt & Hdot & Hstop); [done|].
    exists text, dot. split; [done|]. split; [lia|done].
  - intros o Ho. destruct (H3 o Ho) as [Hlt Hc]. exists text.
    split; [done|]. split; [lia|done].
Qed.

(** X22: A cursor at or behind the end of the text: the loop stops at once, on
    [undefined], and the context is empty whatever the text ends with. *)
Theorem onCompletion_at_the_end_of_the_text
    (kind : Z) (text : list code_unit) (offset : nat) :
  (kind ≤ TriggerCharacter)%Z → (length text ≤ offset)%nat →
  onCompletion (Some kind) (Some text) offset = Some ("", Some offset).
Proof.
  intros Hkind Hend. unfold onCompletion.
  rewrite (proj2 (Z.leb_le _ _) Hkind). cbn [onCompletion_loop].
  by rewrite (lookup_ge_None_2 text offset Hend).
Qed.

(** ** Lookups through classes and states *)

Lemma first_named_app (σ : store) l1 l2 i kind :
  first_named σ (l1 ++ l2) i kind
  = match first_named σ l1 i kind with
    | Some c => Some c
    | None => first_named σ l2 i kind
    end.
Proof.
  induction l1 as [|c l1 IH]; [done|]. cbn.
  destruct (σ !! c) as [s|]; [|done].
  by destruct (bool_decide (name (id s) = i) && kind_accepts kind s).
Qed.

Lemma scopes_None link (σ : store) ls : scopes link σ None ls → ls = [].
Proof. by inversion 1. Qed.

Lemma findSuperSymbol_scopes (σ : store) p ls i kind :
  scopes super σ p ls →
  Forall (fun cl => field (Some ∘ class) σ cl.1 ≠ Some UCStateSymbol) ls →
  ∀ c fuel, p = Some c → (length ls + length (concat ls.*2) ≤ fuel)%nat →
  findSuperSymbol fuel σ c i kind = Done (first_named σ (concat ls.*2) i kind).
Proof.
  induction 1 as [|c s l ls Hs Hch Hsc IH]; intros Hall c' fuel Hp Hf; [done|].
  injection Hp as <-. apply Forall_cons in Hall as [Hc Hall].
  cbn in Hf, Hc. rewrite length_app in Hf. unfold field in Hc. rewrite Hs in Hc.
  cbn in Hc. destruct fuel as [|fuel]; [lia|].
  cbn [findSuperSymbol]. rewrite Hs. unfold getSymbol. rewrite Hs.
  rewrite (getSymbol_loop_chain σ _ l) by (done || lia).
  rewrite decide_False by congruence.
  cbn [outcome_bind fmap list_fmap snd concat]. rewrite first_named_app.
  destruct (first_named σ l i kind) as [found|]; [done|].
  destruct (super s) as [sup|] eqn:Hsup.
  - apply IH; [done|done|lia].
  - by rewrite (scopes_None _ _ _ Hsc).
Qed.

(** X24: [findSuperSymbol] on a class finds the nearest declaration.  For a
    struct with the structs [ls] from itself upwards in its [super] chain,
    none of them a state: the result is the first child with the name that
    passes the kind filter, among the children of the struct and then of
    each struct above it, nearest first; a child of the name that does not
    pass the filter hides nothing behind it. *)
Theorem findSuperSymbol_nearest_declaration
    (σ : store) (this : handle) (ls : list (handle * list handle)) (i : Name)
    (kind : option Z) (fuel : nat) :
  scopes super σ (Some this) ls →
  Forall (fun cl => field (Some ∘ class) σ cl.1 ≠ Some UCStateSymbol) ls →
  (length ls + length (concat ls.*2) ≤ fuel)%nat →
  findSuperSymbol fuel σ this i kind = Done (first_named σ (concat ls.*2) i kind).
Proof. intros Hsc Hall Hf. by eapply findSuperSymbol_scopes. Qed.

(** One call of [findSuperSymbol] on a symbol with the children [l]. *)
Lemma findSuperSymbol_step (σ : store) this s l i kind fuel :
  σ !! this = Some s → chain σ (children s) l → (length l ≤ fuel)%nat →
  findSuperSymbol (S fuel) σ this i kind
  = match first_named σ l i kind with
    | Some c => Done (Some c)
    | None =>
      let above :=
        match super s with
        | Some sup => findSuperSymbol fuel σ sup i kind
        | None => Done None
        end in
      if decide (class s = UCStateSymbol) then
        let? symbol := above in
        match symbol with
        | Some c => Done (Some c)
        | None =>
          match outer s with
          | Some o => findSuperSymbol fuel σ o i kind
          | None => Throw
          end
        end
      else above
    end.
Proof.
  intros Hs Hch Hf. cbn [findSuperSymbol]. rewrite Hs. unfold getSymbol. rewrite Hs.
  rewrite (getSymbol_loop_chain σ _ l) by done. cbn [outcome_bind].
  destruct (first_named σ l i kind); [|done].
  by destruct (decide (class s = UCStateSymbol)).
Qed.

(** X25: A state that overrides a state looks in the class of the overridden
    state before its own class.  For a state whose [super] is a state of a
    base class, a name that neither state declares and the base class does
    is resolved to the declaration of the base class, whatever the class of
    the state itself declares: the [outer] of the state is not asked. *)
Theorem state_lookup_prefers_class_of_overridden_state
    (σ : store) (this overridden base : handle) (s so sb : UCSymbol)
    (l lo lb : list handle) (i : Name) (kind : option Z) (found : handle)
    (fuel : nat) :
  σ !! this = Some s → class s = UCStateSymbol → super s = Some overridden →
  chain σ (children s) l → first_named σ l i kind = None →
  σ !! overridden = Some so → class so = UCStateSymbol → super so = None →
  outer so = Some base →
  chain σ (children so) lo → first_named σ lo i kind = None →
  σ !! base = Some sb →
  chain σ (children sb) lb → first_named σ lb i kind = Some found →
  (length l + length lo + length lb + 3 ≤ fuel)%nat →
  findSuperSymbol fuel σ this i kind = Done (Some found).
Proof.
  intros Hs Hclass Hsuper Hch Hnone Hso Hclasso Hsupero Houtero Hcho Hnoneo
    Hsb Hchb Hfound Hf.
  destruct fuel as [|fuel]; [lia|].
  rewrite (findSuperSymbol_step σ this s l) by (done || lia).
  rewrite Hnone, Hsuper. cbn zeta. rewrite decide_True by done.
  destruct fuel as [|fuel]; [lia|].
  rewrite (findSuperSymbol_step σ overridden so lo) by (done || lia).
  rewrite Hnoneo, Hsupero, Houtero. cbn zeta. rewrite decide_True by done.
  cbn [outcome_bind].
  destruct fuel as [|fuel]; [lia|].
  rewrite (findSuperSymbol_step σ base sb lb) by (done || lia).
  by rewrite Hfound.
Qed.

(** ** Indexing the children of a struct *)

(** X26: The loop over the children in [UCStructSymbol.index] indexes every
    child, whatever the children before it throw.  With an [index] of the
    children that returns or throws and leaves the chain alone, the loop
    returns, and the state is that of the calls of [index] on the children
    in the order of the chain, one after the other, each from the state the
    one before left, thrown or not. *)
Theorem index_children_indexes_every_child
    (index : handle → handle → M unit) (this : handle) (child : option handle)
    (l : list handle) (st : State) (fuel : nat) :
  (∀ c st, keeps_links st (index c this st).2) →
  (∀ c st, (index c this st).1 ≠ OutOfFuel) →
  chain (symbols st) child l → (length l ≤ fuel)%nat →
  index_children fuel index this child st
  = (Done tt, foldl (fun st c => (index c this st).2) st l).
Proof.
  intros Hkeeps Hreturns Hch. revert st child fuel Hch.
  induction l as [|c l IH]; intros st child fuel Hch Hf.
  - inversion Hch; subst. by destruct fuel.
  - rewrite (chain_head _ _ _ _ Hch).
    pose proof (chain_all_Some _ _ _ c Hch) as Hc. specialize (Hc ltac:(by left)).
    apply chain_tail in Hch.
    destruct fuel as [|fuel]; [cbn in Hf; lia|]. cbn [index_children foldl].
    unfold bind at 1, try_catch.
    pose proof (Hkeeps c st) as Hk. pose proof (Hreturns c st) as Hr.
    destruct (index c this st) as [r st1] eqn:Hrun. cbn in Hk, Hr.
    assert (Hch1 : chain (symbols st1) (field next (symbols st1) c) l).
    { destruct (Hk c) as [_ ->]. eapply chain_frame; [|exact Hch].
      intros a _ Ha. destruct (Hk a) as [Hsome Hnext]. by split; [apply Hsome|]. }
    destruct (proj1 (Hk c) Hc) as [s1 Hs1].
    assert (Hread : read next c st1 = (Done (next s1), st1)).
    { unfold read, lift. by rewrite Hs1. }
    rewrite (field_Some _ _ _ _ Hs1) in Hch1.
    destruct r as [[]| |]; [| |done].
    + unfold bind at 1. rewrite Hread. apply IH; [done|cbn in Hf; lia].
    + unfold bind at 1. rewrite Hread. apply IH; [done|cbn in Hf; lia].
Qed.

(** ** Malformed members of an enum declaration *)

Section BuilderProperties3.

Variable getTypeFlags : SymbolClass → Z.
Variable UCPackage_addSymbol : handle → handle → store → store.

Local Abbreviation members_loop :=
  (enterEnumDecl_members getTypeFlags UCPackage_addSymbol).

(** The loop over two lists of member nodes in a row. *)
Lemma members_loop_app e members1 members2 count (st : State) :
  members_loop e (members1 ++ members2) count st
  = (run! members_loop e members1 count in
     members_loop e members2 (count + Z.of_nat (length members1))) st.
Proof.
  revert count st. induction members1 as [|m members1 IH]; intros count st.
  - cbn. by rewrite Z.add_0_r.
  - cbn [app enterEnumDecl_members length].
    destruct (member_identifier m) as [text|]; [|done].
    repeat (rewrite bind_assoc; apply bind_ext; intros ? ?).
    rewrite IH. apply bind_ext. intros _ st1. f_equal. lia.
Qed.

(** X27: [enterEnumDecl] throws at the first member without an identifier:
    by then the enum is declared and on top of the scope stack, and so are
    the members before that one, which are the children of the enum; the
    members after it are not declared, and nothing pops the enum. *)
Theorem enterEnumDecl_throws_at_member_without_identifier
    (ctx : EnumDeclContext) (text : string) (idRange : Range) (st : State)
    (stack : list handle) (top : handle)
    (before after : list EnumMemberContext) (malformed : EnumMemberContext) :
  decl_identifier ctx = Some (text, idRange) →
  context (document st) = Some (stack ++ [top]) → is_Some (symbols st !! top) →
  enumMember ctx = before ++ malformed :: after →
  Forall (fun m => is_Some (member_identifier m)) before →
  member_identifier malformed = None →
  let e := fresh (dom (symbols st)) in
  ∃ st' hs,
    enterEnumDecl getTypeFlags UCPackage_addSymbol ctx st = (Throw, st')
    ∧ context (document st') = Some ((stack ++ [top]) ++ [e])
    ∧ field children (symbols st') top = Some e
    ∧ length hs = length before
    ∧ chain (symbols st') (field children (symbols st') e) (rev hs).
Proof.
  intros Hid Hctx Htop Hmembers Hall Hbad e.
  pose proof (fresh_handle_ne (symbols st) top Htop) as Hne.
  rewrite (enterEnumDecl_eq getTypeFlags UCPackage_addSymbol ctx text idRange st stack
             top Hid Hctx).
  fold e.
  set (enum := UCSymbol_new UCEnumSymbol _ _).
  set (σ2 := addSymbol top e (<[e := enum]> (symbols st))).
  set (st2 := set_document _ _).
  assert (He2 : ∃ s, σ2 !! e = Some s ∧ children s = None).
  { unfold σ2, addSymbol. rewrite lookup_assign_ne by done.
    rewrite !lookup_assign_eq, lookup_insert_eq. by eexists. }
  destruct He2 as (s2 & Hs2 & Hchildren).
  assert (Htop2 : is_Some (σ2 !! top)).
  { unfold σ2. rewrite is_Some_addSymbol, lookup_insert_ne; done. }
  destruct (members_loop_numbers getTypeFlags UCPackage_addSymbol e before Hall 0%Z st2
              (stack ++ [top]) [])
    as (st' & hs & Hrun & Hlen & Hch & Hold & _).
  { done. }
  { cbn. by rewrite Hs2. }
  { cbn. rewrite (field_Some _ _ _ _ Hs2), Hchildren. constructor. }
  destruct (members_loop_registers getTypeFlags UCPackage_addSymbol e before Hall 0%Z st2
              (stack ++ [top]))
    as (st'' & Hrun' & Hdoc & _); [done|by cbn; rewrite Hs2|].
  rewrite Hrun in Hrun'. injection Hrun' as <-.
  exists st', hs. split; [|split; [by rewrite Hdoc|split; [|split; [done|]]]].
  - rewrite Hmembers. unfold bind at 1. rewrite members_loop_app.
    unfold bind at 1. rewrite Hrun. cbn [enterEnumDecl_members]. by rewrite Hbad.
  - unfold field. rewrite Hold; [|done|by intros ->].
    apply addSymbol_children. by rewrite lookup_insert_ne.
  - by rewrite app_nil_r in Hch.
Qed.

End BuilderProperties3.

(** ** Examples of the further properties *)

Ltac walk_links :=
  repeat first
    [ apply linked_nil
    | apply chain_nil
    | apply scopes_nil
    | eapply linked_cons; [vm_compute; reflexivity|cbn]
    | eapply scopes_cons; [vm_compute; reflexivity|cbn|cbn]
    | apply chain_cons; [vm_compute; by eexists|]
    | match goal with
      | |- chain ?σ (field ?f ?σ' ?h) ?l =>
        let p := eval vm_compute in (field f σ' h) in
        replace (field f σ' h) with p by (vm_compute; reflexivity)
      end ].

Lemma Example_shadowed_supers_Y :
  linked super Example.shadowed (Some Example.Y)
    [Example.Y; Example.Mid; Example.X].
Proof. walk_links. Qed.

Lemma Example_shadowed_scopes_Y :
  scopes super Example.shadowed (Some Example.Y)
    [(Example.Y, [Example.Y_Idle]); (Example.Mid, [Example.Mid_Idle]);
     (Example.X, [Example.X_Idle])].
Proof. walk_links. Qed.

Lemma Example_shadowed_parents_Y :
  scopes (fun s => nullish (super s) (outer s)) Example.shadowed (Some Example.Y)
    [(Example.Y, [Example.Y_Idle]); (Example.Mid, [Example.Mid_Idle]);
     (Example.X, [Example.X_Idle])].
Proof. walk_links. Qed.

Lemma findSuperStruct_strictly_above_witness :
  findSuperStruct 2 Example.shadowed Example.Y "Y"
  = Done (first_named Example.shadowed [Example.Mid; Example.X] "Y" None)
  ∧ first_named Example.shadowed [Example.Mid; Example.X] "Y" None ≠ Some Example.Y.
Proof.
  refine (findSuperStruct_strictly_above Example.shadowed Example.Y
            [Example.Mid; Example.X] "Y" 2 Example_shadowed_supers_Y _).
  vm_compute. lia.
Defined.

Lemma childrenCount_addSymbol_witness :
  childrenCount 1 Example.with_Health Example.Y
  = Done (Z.of_nat (length [Example.Y_Idle]))
  ∧ childrenCount 2 (addSymbol Example.Y Example.Health Example.with_Health) Example.Y
    = Done (Z.of_nat (length [Example.Y_Idle]) + 1)%Z.
Proof.
  refine (childrenCount_addSymbol Example.with_Health Example.Y Example.Health
            [Example.Y_Idle] 1 _ _ Example_with_Health_chain_Y
            Example_Health_not_declared _).
  - vm_compute. by eexists.
  - vm_compute. by eexists.
  - vm_compute. lia.
Defined.

Lemma removeSymbol_not_a_child_witness :
  removeSymbol 1 Example.Y Example.Health Example.with_Health
  = Done Example.with_Health.
Proof.
  refine (removeSymbol_not_a_child Example.with_Health Example.Y Example.Health
            [Example.Y_Idle] 1 Example_with_Health_chain_Y
            Example_Health_not_declared _).
  vm_compute. lia.
Defined.

Lemma Example_declared_Health_chain_Y :
  chain ScopeExample.declared_Health
    (field children ScopeExample.declared_Health Example.Y)
    ([] ++ Example.Health :: Example.Y_Idle :: []).
Proof. cbn [app]. walk_links. Qed.

Lemma removeSymbol_inner_child_keeps_next_witness :
  removeSymbol 1 Example.Y Example.Y_Idle ScopeExample.declared_Health
  = Done (assign (set_next (field next ScopeExample.declared_Health Example.Y_Idle))
            Example.Health ScopeExample.declared_Health)
  ∧ chain (assign (set_next (field next ScopeExample.declared_Health Example.Y_Idle))
             Example.Health ScopeExample.declared_Health)
          (field children
             (assign (set_next (field next ScopeExample.declared_Health Example.Y_Idle))
                Example.Health ScopeExample.declared_Health) Example.Y)
          ([] ++ Example.Health :: [])
  ∧ field next
      (assign (set_next (field next ScopeExample.declared_Health Example.Y_Idle))
         Example.Health ScopeExample.declared_Health) Example.Y_Idle
    = field next ScopeExample.declared_Health Example.Y_Idle
  ∧ chain (assign (set_next (field next ScopeExample.declared_Health Example.Y_Idle))
             Example.Health ScopeExample.declared_Health)
          (Some Example.Y_Idle) (Example.Y_Idle :: []).
Proof.
  refine (removeSymbol_inner_child_keeps_next ScopeExample.declared_Health Example.Y
            Example.Health Example.Y_Idle [] [] 1 Example_declared_Health_chain_Y _).
  vm_compute. lia.
Defined.

Lemma addSymbol_twice_is_a_cycle_witness :
  field next
    (addSymbol Example.Y Example.Health
       (addSymbol Example.Y Example.Health Example.with_Health)) Example.Health
  = Some Example.Health
  ∧ getSymbol 100
      (addSymbol Example.Y Example.Health
         (addSymbol Example.Y Example.Health Example.with_Health))
      Example.Y "Idle" None
    = OutOfFuel
  ∧ childrenCount 100
      (addSymbol Example.Y Example.Health
         (addSymbol Example.Y Example.Health Example.with_Health)) Example.Y
    = OutOfFuel.
Proof.
  refine (addSymbol_twice_is_a_cycle Example.with_Health Example.Y Example.Health
            Example.Health_symbol "Idle" None 100 _ _ _).
  - vm_compute. by eexists.
  - vm_compute. reflexivity.
  - vm_compute. discriminate.
Defined.

Lemma findSymbol_prefers_accepted_witness :
  findSymbol ScopeExample.isMethodSymbol ScopeExample.isStateSymbol 6
    Example.shadowed Example.Y "Idle" (ScopeExample.is_property Example.shadowed)
  = Done (findSymbol_answer Example.shadowed "Idle"
            (ScopeExample.is_property Example.shadowed)
            (concat [(Example.Y, [Example.Y_Idle]); (Example.Mid, [Example.Mid_Idle]);
                     (Example.X, [Example.X_Idle])].*2)).
Proof.
  refine (findSymbol_prefers_accepted ScopeExample.isMethodSymbol
            ScopeExample.isStateSymbol Example.shadowed Example.Y "Idle"
            (ScopeExample.is_property Example.shadowed) (Some Example.Y)
            [(Example.Y, [Example.Y_Idle]); (Example.Mid, [Example.Mid_Idle]);
             (Example.X, [Example.X_Idle])] 6 _ Example_shadowed_scopes_Y _).
  - vm_compute. reflexivity.
  - vm_compute. lia.
Defined.

(** In the example the state of [Y] is nearer, and the property of the
    class in the middle is found. *)
Example findSymbol_finds_the_property :
  findSymbol ScopeExample.isMethodSymbol ScopeExample.isStateSymbol 6
    Example.shadowed Example.Y "Idle" (ScopeExample.is_property Example.shadowed)
  = Done (Some Example.Mid_Idle)
  ∧ findSymbol ScopeExample.isMethodSymbol ScopeExample.isStateSymbol 6
      Example.shadowed Example.Y "Idle" (fun _ => false)
    = Done (Some Example.X_Idle).
Proof. split; vm_compute; reflexivity. Qed.

Lemma getCompletionSymbols_own_children_first_witness :
  getCompletionSymbols ScopeExample.acceptCompletion 6 Example.shadowed
    Example.document_Y Example.Y None
  = Done (List.filter
            (completes ScopeExample.acceptCompletion Example.shadowed
               Example.document_Y Example.Y None) [Example.Y_Idle]
          ++ List.filter
               (completes ScopeExample.acceptCompletion Example.shadowed
                  Example.document_Y Example.Y None)
               (concat [(Example.Mid, [Example.Mid_Idle]);
                        (Example.X, [Example.X_Idle])].*2)).
Proof.
  refine (getCompletionSymbols_own_children_first ScopeExample.acceptCompletion
            Example.shadowed Example.document_Y Example.Y None [Example.Y_Idle]
            [(Example.Mid, [Example.Mid_Idle]); (Example.X, [Example.X_Idle])] 6
            Example_shadowed_parents_Y _).
  vm_compute. lia.
Defined.

Lemma qualified_type_of_unknown_package_witness :
  UCQualifiedTypeSymbol_index Example.getHash Example.PackagesTable_findSymbol
    Example.SymbolsTable_findSymbol Example.isType 5
    (QualifiedType Example.extends_X
       (Some (QualifiedType
                (ObjectType (at_line "Core" 1) (Some UCTypeKind.Package) None None)
                None)))
    (Some Example.Y) (Example.state_of Example.built Example.document_Y)
  = (Done (QualifiedType Example.extends_X
             (Some (QualifiedType
                      (ObjectType (at_line "Core" 1) (Some UCTypeKind.Package) None None)
                      None))),
     set_lookups
       (lookups (Example.state_of Example.built Example.document_Y)
        ++ [InPackagesTable (name (at_line "Core" 1)) false])
       (Example.state_of Example.built Example.document_Y))
  ∧ UCQualifiedTypeSymbol_analyze
      (QualifiedType Example.extends_X
         (Some (QualifiedType
                  (ObjectType (at_line "Core" 1) (Some UCTypeKind.Package) None None)
                  None)))
      (Some Example.Y)
      (set_lookups
         (lookups (Example.state_of Example.built Example.document_Y)
          ++ [InPackagesTable (name (at_line "Core" 1)) false])
         (Example.state_of Example.built Example.document_Y))
    = (Done tt,
       with_reports
         (UnrecognizedTypeNode
            (ObjectType (at_line "Core" 1) (Some UCTypeKind.Package) None None)
          :: type_reports (symbols (Example.state_of Example.built Example.document_Y))
               Example.extends_X)
         (set_lookups
            (lookups (Example.state_of Example.built Example.document_Y)
             ++ [InPackagesTable (name (at_line "Core" 1)) false])
            (Example.state_of Example.built Example.document_Y))).
Proof.
  refine (qualified_type_of_unknown_package Example.getHash
            Example.PackagesTable_findSymbol Example.SymbolsTable_findSymbol
            Example.isType 5 (at_line "Core" 1) Example.extends_X Example.Y
            (Example.state_of Example.built Example.document_Y) _).
  reflexivity.
Defined.

Lemma UCSwitchStatement_hints_its_clauses_witness :
  index_with
    (UCSwitchStatement unit tt (Some SwitchExample.expression)
       (Some (UCBlock unit tt SwitchExample.clauses)))
    Example.Y (SwitchExample.before, BlockExample.no_hint)
  = with_new_info (typeFlags_only unit tt 3)
      (UCBlock_index_with SwitchExample.clauses Example.Y)
      (SwitchExample.before, SwitchExample.hinted)
  ∧ (index_with
       (UCSwitchStatement unit tt (Some SwitchExample.expression)
          (Some (UCBlock unit tt SwitchExample.clauses)))
       Example.Y (SwitchExample.before, BlockExample.no_hint)).2.2
    = SwitchExample.hinted.
Proof.
  refine (let H := UCSwitchStatement_hints_its_clauses tt SwitchExample.expression
                     SwitchExample.clauses Example.Y 3 SwitchExample.before
                     SwitchExample.before BlockExample.no_hint SwitchExample.hinted
                     _ _ in
          conj (proj1 H) (proj1 (proj2 H))).
  - reflexivity.
  - reflexivity.
Defined.

(** The clause of the example is given the hint of the switch, and the
    caller keeps the hint of the expression. *)
Example UCSwitchStatement_clause_sees_the_switch_type :
  lookups
    (index_with
       (UCSwitchStatement unit tt (Some SwitchExample.expression)
          (Some (UCBlock unit tt SwitchExample.clauses)))
       Example.Y (SwitchExample.before, BlockExample.no_hint)).2.1
  = [InContext Example.Y "hint"]
  ∧ lookups
      (index_without
         (UCSwitchStatement unit tt (Some SwitchExample.expression)
            (Some (UCBlock unit tt SwitchExample.clauses)))
         Example.Y SwitchExample.before).2
    = [InContext Example.Y "hint"].
Proof. split; reflexivity. Qed.

Lemma addIndexedReference_then_unset_witness :
  unsetIndexedReferences "X" {[1%positive]}
    (addIndexedReference "X" 1%positive IndexExample.one_record)
  = IndexExample.one_record.
Proof.
  refine (addIndexedReference_then_unset IndexExample.one_record "X" 1%positive _ _).
  - vm_compute. discriminate.
  - vm_compute. discriminate.
Defined.

Lemma IndexExample_indexed_no_empty_entry :
  no_empty_entry (IndexedReferences IndexExample.indexed).
Proof.
  assert (Hone : ∀ r : positive, ({[r]} : gset positive) ≠ ∅).
  { intros r Heq. apply (f_equal size) in Heq.
    by rewrite size_singleton, size_empty in Heq. }
  intros k. cbn [IndexedReferences IndexExample.indexed].
  rewrite lookup_insert. case_decide; [intros [= Heq]; by apply Hone in Heq|].
  rewrite lookup_singleton. case_decide; [intros [= Heq]; by apply Hone in Heq|done].
Qed.

Lemma index_keeps_no_empty_entry_witness :
  no_empty_entry
    (addIndexedReference "X" 1%positive (IndexedReferences IndexExample.indexed))
  ∧ no_empty_entry
      (unsetIndexedReferences "X" {[2%positive]}
         (IndexedReferences IndexExample.indexed))
  ∧ no_empty_entry
      (IndexedReferences (UCDocument_invalidate IndexExample.indexed)).
Proof.
  refine (index_keeps_no_empty_entry IndexExample.indexed "X" 1%positive
            {[2%positive]} IndexExample_indexed_no_empty_entry).
Defined.

(** In the example the record under the key of [X] is the last one there:
    retracting it, by [unsetIndexedReferences] and by [invalidate], takes
    the key out of the index, and leaves the key of [Y] as it is. *)
Example last_record_takes_the_key :
  IndexedReferences IndexExample.indexed !! "X" = Some {[2%positive]}
  ∧ unsetIndexedReferences "X" {[2%positive]}
      (IndexedReferences IndexExample.indexed) !! "X" = None
  ∧ IndexedReferences (UCDocument_invalidate IndexExample.indexed) !! "X" = None
  ∧ IndexedReferences (UCDocument_invalidate IndexExample.indexed) !! "Y"
    = Some {[3%positive]}.
Proof. repeat split; vm_compute; reflexivity. Qed.

Lemma Example_members_have_identifiers :
  Forall (fun m => is_Some (member_identifier m)) (enumMember EnumExample.E_decl).
Proof. repeat constructor; by eexists. Qed.

Lemma enterEnumDecl_exitEnumDecl_balanced_witness :
  ∃ e st1 st2,
    enterEnumDecl EnumExample.getTypeFlags EnumExample.UCPackage_addSymbol
      EnumExample.E_decl EnumExample.in_class_Y = (Done (Some e), st1)
    ∧ context (document st1) = Some (([] ++ [Example.Y]) ++ [e])
    ∧ field children (symbols st1) Example.Y = Some e
    ∧ exitEnumDecl st1 = (Done tt, st2)
    ∧ context (document st2) = Some ([] ++ [Example.Y])
    ∧ symbols st2 = symbols st1.
Proof.
  refine (enterEnumDecl_exitEnumDecl_balanced EnumExample.getTypeFlags
            EnumExample.UCPackage_addSymbol EnumExample.E_decl "E"
            (EnumExample.token 3 5) EnumExample.in_class_Y [] Example.Y _ _ _
            Example_members_have_identifiers).
  - reflexivity.
  - reflexivity.
  - vm_compute. by eexists.
Defined.

Lemma exitEnumDecl_pops_without_enter_witness :
  (let! _ := enterEnumDecl EnumExample.getTypeFlags EnumExample.UCPackage_addSymbol
               EnumExample.no_identifier in
   exitEnumDecl) EnumExample.in_class_Y
  = (Done tt,
     set_document (set_context (Some []) (document EnumExample.in_class_Y))
       EnumExample.in_class_Y).
Proof.
  refine (exitEnumDecl_pops_without_enter EnumExample.getTypeFlags
            EnumExample.UCPackage_addSymbol EnumExample.no_identifier
            EnumExample.in_class_Y [] Example.Y _ _).
  - reflexivity.
  - reflexivity.
Defined.

Lemma enterEnumDecl_registers_members_witness :
  ∃ e st',
    enterEnumDecl EnumExample.getTypeFlags EnumExample.UCPackage_addSymbol
      EnumExample.E_decl EnumExample.in_class_Y = (Done (Some e), st')
    ∧ (∀ (k : nat) m member,
         enumMember EnumExample.E_decl !! k = Some m →
         member_identifier m = Some member →
         (∀ (k' : nat) m', (k < k')%nat →
            enumMember EnumExample.E_decl !! k' = Some m' →
            member_identifier m' ≠ Some member) →
         ∃ h s, getEnumMember member st' = Some h
                ∧ symbols st' !! h = Some s
                ∧ class s = UCEnumMemberSymbol
                ∧ name (id s) = member
                ∧ value s = Some (Z.of_nat k)
                ∧ outer s = Some e
                ∧ getEnumMember member (UCDocument_invalidate st') = Some h)
    ∧ (∀ other, Some other ∉ member_identifier <$> enumMember EnumExample.E_decl →
                getEnumMember other st' = getEnumMember other EnumExample.in_class_Y).
Proof.
  refine (enterEnumDecl_registers_members EnumExample.getTypeFlags
            EnumExample.UCPackage_addSymbol EnumExample.E_decl "E"
            (EnumExample.token 3 5) EnumExample.in_class_Y [] Example.Y _ _ _
            Example_members_have_identifiers).
  - reflexivity.
  - reflexivity.
  - vm_compute. by eexists.
Defined.

Lemma enterEnumDecl_numbers_members_witness :
  ∃ st' hs,
    enterEnumDecl EnumExample.getTypeFlags EnumExample.UCPackage_addSymbol
      EnumExample.E_decl EnumExample.in_class_Y
    = (Done (Some (fresh (dom (symbols EnumExample.in_class_Y)))), st')
    ∧ length hs = length (enumMember EnumExample.E_decl)
    ∧ chain (symbols st')
            (field children (symbols st') (fresh (dom (symbols EnumExample.in_class_Y))))
            (rev hs)
    ∧ (∀ (k : nat) m h,
         enumMember EnumExample.E_decl !! k = Some m → hs !! k = Some h →
         ∃ s, symbols st' !! h = Some s
              ∧ class s = UCEnumMemberSymbol
              ∧ Some (name (id s)) = member_identifier m
              ∧ value s = Some (Z.of_nat k)
              ∧ outer s = Some (fresh (dom (symbols EnumExample.in_class_Y)))).
Proof.
  refine (enterEnumDecl_numbers_members EnumExample.getTypeFlags
            EnumExample.UCPackage_addSymbol EnumExample.E_decl "E"
            (EnumExample.token 3 5) EnumExample.in_class_Y [] Example.Y _ _ _
            Example_members_have_identifiers).
  - reflexivity.
  - reflexivity.
  - vm_compute. by eexists.
Defined.

Lemma onCompletion_context_is_a_dot_of_the_text_witness :
  ("." = "" ∨ "." = ".")
  ∧ ("." = "." →
     ∃ text dot, Some (code_units "x = Foo.Bar ") = Some text ∧ (dot ≤ 11)%nat
                 ∧ text !! dot = Some (unit_of ".")
                 ∧ ∀ o, Some 6%nat = Some o → (o < dot)%nat)
  ∧ (∀ o, Some 6%nat = Some o →
          ∃ text, Some (code_units "x = Foo.Bar ") = Some text ∧ (o ≤ 11)%nat
                  ∧ ∀ c, text !! o = Some c → c ∉ passed_over).
Proof.
  refine (onCompletion_context_is_a_dot_of_the_text (Some 2%Z)
            (Some (code_units "x = Foo.Bar ")) 11 "." (Some 6%nat) _).
  vm_compute. reflexivity.
Defined.

Lemma onCompletion_at_the_end_of_the_text_witness :
  onCompletion (Some 1%Z) (Some (code_units "x = Foo.")) 8 = Some ("", Some 8%nat).
Proof.
  refine (onCompletion_at_the_end_of_the_text 1 (code_units "x = Foo.") 8 _ _).
  - vm_compute. discriminate.
  - vm_compute. lia.
Defined.

Lemma onPrepareRename_range_witness :
  ∃ s, Some (UCSymbol_new UCPropertySymbol (at_line "Health" 3) 4) = Some s
       ∧ typeFlags s ≠ 0%Z
       ∧ isFieldSymbol (class s) = true
       ∧ class s ≠ UCClassSymbol
       ∧ range (id s) ≠ DEFAULT_RANGE
       ∧ VALID_ID_REGEXP_test (name (id s)) = true
       ∧ range (at_line "Health" 3) = range (id s).
Proof.
  refine (onPrepareRename_range 0 (Some (UCSymbol_new UCPropertySymbol
            (at_line "Health" 3) 4)) (range (at_line "Health" 3)) _).
  reflexivity.
Defined.

Lemma Example_shadowed_classes :
  Forall (fun cl => field (Some ∘ class) Example.shadowed cl.1 ≠ Some UCStateSymbol)
    [(Example.Y, [Example.Y_Idle]); (Example.Mid, [Example.Mid_Idle]);
     (Example.X, [Example.X_Idle])].
Proof. repeat constructor; vm_compute; discriminate. Qed.

Lemma findSuperSymbol_nearest_declaration_witness :
  findSuperSymbol 6 Example.shadowed Example.Y "Idle" (Some 4%Z)
  = Done (first_named Example.shadowed
            (concat [(Example.Y, [Example.Y_Idle]); (Example.Mid, [Example.Mid_Idle]);
                     (Example.X, [Example.X_Idle])].*2) "Idle" (Some 4%Z)).
Proof.
  refine (findSuperSymbol_nearest_declaration Example.shadowed Example.Y
            [(Example.Y, [Example.Y_Idle]); (Example.Mid, [Example.Mid_Idle]);
             (Example.X, [Example.X_Idle])] "Idle" (Some 4%Z) 6
            Example_shadowed_scopes_Y Example_shadowed_classes _).
  vm_compute. lia.
Defined.

(** With the flags of a property as filter, the state of [Y] is passed
    over for the property of the class above. *)
Example findSuperSymbol_passes_over_the_state :
  findSuperSymbol 6 Example.shadowed Example.Y "Idle" (Some 4%Z)
  = Done (Some Example.Mid_Idle).
Proof. vm_compute. reflexivity. Qed.

Lemma OverrideExample_chain_X :
  chain OverrideExample.overriding (children OverrideExample.X_symbol)
    [OverrideExample.X_Health; Example.X_Idle].
Proof. cbn [children OverrideExample.X_symbol]. walk_links. Qed.

Lemma state_lookup_prefers_class_of_overridden_state_witness :
  findSuperSymbol 5 OverrideExample.overriding Example.Y_Idle "Health" None
  = Done (Some OverrideExample.X_Health).
Proof.
  refine (state_lookup_prefers_class_of_overridden_state OverrideExample.overriding
            Example.Y_Idle Example.X_Idle Example.X
            OverrideExample.Y_Idle_symbol OverrideExample.X_Idle_symbol
            OverrideExample.X_symbol [] []
            [OverrideExample.X_Health; Example.X_Idle] "Health" None
            OverrideExample.X_Health 5 _ _ _ _ _ _ _ _ _ _ _ _
            OverrideExample_chain_X _ _).
  - vm_compute. reflexivity.
  - reflexivity.
  - reflexivity.
  - apply chain_nil.
  - reflexivity.
  - vm_compute. reflexivity.
  - reflexivity.
  - reflexivity.
  - reflexivity.
  - apply chain_nil.
  - reflexivity.
  - vm_compute. reflexivity.
  - vm_compute. reflexivity.
  - vm_compute. lia.
Defined.

(** In the example the class [Y] of the state declares [Health] as well,
    and a lookup from the class finds that declaration. *)
Example state_and_class_disagree_on_Health :
  findSuperSymbol 5 OverrideExample.overriding Example.Y_Idle "Health" None
  = Done (Some OverrideExample.X_Health)
  ∧ findSuperSymbol 5 OverrideExample.overriding Example.Y "Health" None
    = Done (Some OverrideExample.Y_Health).
Proof. split; vm_compute; reflexivity. Qed.

Lemma ChildrenExample_index_keeps_links c (st : State) :
  keeps_links st (ChildrenExample.index c Example.Y st).2.
Proof.
  unfold ChildrenExample.index. by destruct (decide (c = Example.Health)).
Qed.

Lemma ChildrenExample_index_returns c (st : State) :
  (ChildrenExample.index c Example.Y st).1 ≠ OutOfFuel.
Proof.
  unfold ChildrenExample.index. by destruct (decide (c = Example.Health)).
Qed.

Lemma Example_declared_Health_children_Y :
  chain (symbols (Example.state_of ScopeExample.declared_Health Example.document_Y))
    (field children ScopeExample.declared_Health Example.Y)
    [Example.Health; Example.Y_Idle].
Proof. exact Example_declared_Health_chain_Y. Qed.

Lemma index_children_indexes_every_child_witness :
  index_children 2 ChildrenExample.index Example.Y
    (field children ScopeExample.declared_Health Example.Y)
    (Example.state_of ScopeExample.declared_Health Example.document_Y)
  = (Done tt,
     foldl (fun st c => (ChildrenExample.index c Example.Y st).2)
       (Example.state_of ScopeExample.declared_Health Example.document_Y)
       [Example.Health; Example.Y_Idle]).
Proof.
  refine (index_children_indexes_every_child ChildrenExample.index Example.Y
            (field children ScopeExample.declared_Health Example.Y)
            [Example.Health; Example.Y_Idle]
            (Example.state_of ScopeExample.declared_Health Example.document_Y) 2
            ChildrenExample_index_keeps_links ChildrenExample_index_returns
            Example_declared_Health_children_Y _).
  vm_compute. lia.
Defined.

(** In the example the first child throws, and the second is indexed. *)
Example index_children_goes_on_after_a_throw :
  (index_children 2 ChildrenExample.index Example.Y
     (field children ScopeExample.declared_Health Example.Y)
     (Example.state_of ScopeExample.declared_Health Example.document_Y)).1
  = Done tt
  ∧ lookups
      (index_children 2 ChildrenExample.index Example.Y
         (field children ScopeExample.declared_Health Example.Y)
         (Example.state_of ScopeExample.declared_Health Example.document_Y)).2
    = [InContext Example.Y_Idle "indexed"].
Proof. split; vm_compute; reflexivity. Qed.

Lemma enterEnumDecl_throws_at_member_without_identifier_witness :
  ∃ st' hs,
    enterEnumDecl EnumExample.getTypeFlags EnumExample.UCPackage_addSymbol
      MalformedEnumExample.E_decl EnumExample.in_class_Y = (Throw, st')
    ∧ context (document st')
      = Some (([] ++ [Example.Y]) ++ [fresh (dom (symbols EnumExample.in_class_Y))])
    ∧ field children (symbols st') Example.Y
      = Some (fresh (dom (symbols EnumExample.in_class_Y)))
    ∧ length hs = length [{| member_start := EnumExample.token 3 9;
                             member_identifier := Some "A" |}]
    ∧ chain (symbols st')
            (field children (symbols st') (fresh (dom (symbols EnumExample.in_class_Y))))
            (rev hs).
Proof.
  refine (enterEnumDecl_throws_at_member_without_identifier EnumExample.getTypeFlags
            EnumExample.UCPackage_addSymbol MalformedEnumExample.E_decl "E"
            (EnumExample.token 3 5) EnumExample.in_class_Y [] Example.Y
            [{| member_start := EnumExample.token 3 9; member_identifier := Some "A" |}]
            [{| member_start := EnumExample.token 3 14; member_identifier := Some "C" |}]
            {| member_start := EnumExample.token 3 12; member_identifier := None |}
            _ _ _ _ _ _).
  - reflexivity.
  - reflexivity.
  - vm_compute. by eexists.
  - reflexivity.
  - repeat constructor. by eexists.
  - reflexivity.
Defined.

(** In the example the member [C], behind the malformed one, is not a
    child of the enum and not in the map of the enum members, and the
    member [A] is both. *)
Example malformed_member_hides_the_later_ones :
  MalformedEnumExample.declared.1 = Throw
  ∧ getEnumMember "C" MalformedEnumExample.declared.2 = None
  ∧ is_Some (getEnumMember "A" MalformedEnumExample.declared.2)
  ∧ getSymbol 10 (symbols MalformedEnumExample.declared.2)
      (fresh (dom (symbols EnumExample.in_class_Y))) "C" None = Done None.
Proof. repeat split; try (vm_compute; reflexivity). vm_compute. by eexists. Qed.
